(** * Verification of the sheet-metal DXF engine (src/services/dxfService.ts)

    Numbers of the TypeScript source are modelled as exact rationals [Q]
    (the real-number reading of IEEE doubles); where the parser needs the
    non-finite values of JavaScript, [jsnum] adds NaN and the two infinities.
    The trigonometry of [addDimension] is modelled over the reals [R]. *)

From Stdlib Require Import String Ascii.
From Stdlib Require Import Reals Lra.

Ltac rlra := lra.
Ltac rnra := nra.

From Stdlib Require Import ZArith QArith Qround Qabs Lqa List Bool Lia.
Import ListNotations.

Ltac qlra := lra.

Open Scope Q_scope.

(* ================================================================== *)
(** ** Flat-pattern geometry: [calculateFlatPattern] *)

Module Flat.

Record flat_pattern := mk_flat_pattern {
  flatLength : Q;
  bendPositions : list Q
}.

(** [segments.reduce((a, b) => a + b, 0)] *)
Definition reduce_sum (segments : list Q) : Q :=
  fold_left Qplus segments 0.

(** [let cumOuter = 0; for (let k = 0; k <= i; k++) cumOuter += segments[k];]
    (only called with [i < segments.length - 1], so every index is in range) *)
Definition cum_outer (segments : list Q) (i : nat) : Q :=
  fold_left Qplus (firstn (S i) segments) 0.

(** [calculateFlatPattern(segments, thickness)] *)
Definition calculateFlatPattern (segments : list Q) (thickness : Q) : flat_pattern :=
  let BEND_DEDUCTION := 2 * thickness in
  let totalOuter := reduce_sum segments in
  let totalDeductions :=
    inject_Z (Z.of_nat (length segments) - 1) * BEND_DEDUCTION in
  let finalFlatLength := totalOuter - totalDeductions in
  (* for (let i = 0; i < segments.length - 1; i++) *)
  let bends :=
    map (fun i =>
           let correction := inject_Z (Z.of_nat i) * BEND_DEDUCTION
                             + BEND_DEDUCTION / 2 in
           cum_outer segments i - correction)
        (seq 0 (length segments - 1)) in
  mk_flat_pattern finalFlatLength bends.

(** The usual mathematical sum, used to state results. *)
Fixpoint qsum (l : list Q) : Q :=
  match l with [] => 0 | x :: r => x + qsum r end.

Definition strictly_increasing (l : list Q) : Prop :=
  forall i, (S i < length l)%nat -> nth i l 0 < nth (S i) l 0.

End Flat.

(* ================================================================== *)
(** ** JavaScript primitives: numbers, number formatting and parsing, strings *)

Module Js.

(** A JavaScript number: finite values as exact rationals, plus NaN and
    the two infinities (the parser's bounds start at [+/-Infinity]). *)
Inductive jsnum := JFin (q : Q) | JNaN | JInf | JNegInf.

Definition qltb (x y : Q) : bool := negb (Qle_bool y x).

(** [===] on numbers *)
Definition js_eqb (a b : jsnum) : bool :=
  match a, b with
  | JFin x, JFin y => Qeq_bool x y
  | JInf, JInf | JNegInf, JNegInf => true
  | _, _ => false
  end.

(** [<] on numbers (false as soon as one side is NaN) *)
Definition js_lt (a b : jsnum) : bool :=
  match a, b with
  | JFin x, JFin y => qltb x y
  | JNegInf, (JFin _ | JInf) | JFin _, JInf => true
  | _, _ => false
  end.

Definition js_add (a b : jsnum) : jsnum :=
  match a, b with
  | JFin x, JFin y => JFin (x + y)
  | JNaN, _ | _, JNaN | JInf, JNegInf | JNegInf, JInf => JNaN
  | JInf, _ | _, JInf => JInf
  | JNegInf, _ | _, JNegInf => JNegInf
  end.

Definition js_neg (a : jsnum) : jsnum :=
  match a with JFin x => JFin (- x) | JNaN => JNaN | JInf => JNegInf | JNegInf => JInf end.

Definition js_sub (a b : jsnum) : jsnum := js_add a (js_neg b).

Definition js_mul (a b : jsnum) : jsnum :=
  let inf_times (pos : bool) (y : Q) :=
    match Qcompare y 0 with
    | Eq => JNaN
    | Gt => if pos then JInf else JNegInf
    | Lt => if pos then JNegInf else JInf
    end in
  match a, b with
  | JFin x, JFin y => JFin (x * y)
  | JNaN, _ | _, JNaN => JNaN
  | JInf, JFin y | JFin y, JInf => inf_times true y
  | JNegInf, JFin y | JFin y, JNegInf => inf_times false y
  | JInf, JInf | JNegInf, JNegInf => JInf
  | JInf, JNegInf | JNegInf, JInf => JNegInf
  end.

(** *** Characters *)

Definition is_ws (c : ascii) : bool :=
  let n := nat_of_ascii c in
  ((9 <=? n) && (n <=? 13))%nat || (n =? 32)%nat.

Definition digit_val (c : ascii) : option Z :=
  let n := nat_of_ascii c in
  if ((48 <=? n) && (n <=? 57))%nat then Some (Z.of_nat (n - 48)) else None.

Definition hex_val (c : ascii) : option Z :=
  let n := nat_of_ascii c in
  if ((48 <=? n) && (n <=? 57))%nat then Some (Z.of_nat (n - 48))
  else if ((97 <=? n) && (n <=? 102))%nat then Some (Z.of_nat (n - 87))
  else if ((65 <=? n) && (n <=? 70))%nat then Some (Z.of_nat (n - 55))
  else None.

Definition digit_char (d : Z) : ascii := ascii_of_nat (48 + Z.to_nat d).

(** *** Printing numbers *)

Fixpoint digits_acc (fuel : nat) (n : Z) (acc : string) : string :=
  match fuel with
  | O => acc
  | S f =>
      let acc' := String (digit_char (n mod 10)) acc in
      if (n <? 10)%Z then acc' else digits_acc f (n / 10) acc'
  end.

(** Decimal digits of a natural number [n >= 0], without leading zeros. *)
Definition z_digits (n : Z) : string :=
  digits_acc (S (Z.to_nat (Z.log2 n))) n EmptyString.

Fixpoint zeros (k : nat) : string :=
  match k with O => EmptyString | S k => String "0" (zeros k) end.

(** [f] digits of [0 <= r < 10^f], left-padded with zeros. *)
Definition frac_digits (f : nat) (r : Z) : string :=
  zeros (f - String.length (z_digits r)) ++ z_digits r.

(** Sign, integer part and [f] fraction digits of [n / 10^f]. *)
Definition fixed_string (f : nat) (neg : bool) (n : Z) : string :=
  (if neg then "-" else "") ++
  z_digits (n / 10 ^ Z.of_nat f) ++
  (match f with O => "" | S _ => "." ++ frac_digits f (n mod 10 ^ Z.of_nat f) end).

(** [Number.prototype.toFixed(f)]: [n] is the integer nearest to
    [|x| * 10^f], ties going to the larger one, printed with [f] fraction
    digits and a leading "-" when [x < 0].  (From [1e21] on JavaScript
    prints the exponent form instead; coordinates stay far below.) *)
Definition toFixed (f : nat) (x : Q) : string :=
  fixed_string f (qltb x 0)
    (Qfloor (Qabs x * inject_Z (10 ^ Z.of_nat f) + (1 # 2))).

(** [Number.prototype.toString()] for the values the writer prints (colour
    indices and text heights): the shortest fixed notation that is exact,
    searching up to 20 fraction digits. *)
Fixpoint shortest_fixed (k fuel : nat) (x : Q) : string :=
  match fuel with
  | O => toFixed k x
  | S fuel' =>
      let y := Qabs x * inject_Z (10 ^ Z.of_nat k) in
      if Qeq_bool y (inject_Z (Qfloor y)) then fixed_string k (qltb x 0) (Qfloor y)
      else shortest_fixed (S k) fuel' x
  end.

Definition number_to_string (x : Q) : string := shortest_fixed 0 20 x.

(** *** Parsing numbers *)

Fixpoint skip_ws (l : list ascii) : list ascii :=
  match l with c :: r => if is_ws c then skip_ws r else l | [] => [] end.

(** Longest prefix of characters accepted by [val]; returns the digit
    values and the rest. *)
Fixpoint scan (val : ascii -> option Z) (l : list ascii) : list Z * list ascii :=
  match l with
  | c :: r =>
      match val c with
      | Some d => let (ds, rest) := scan val r in (d :: ds, rest)
      | None => ([], l)
      end
  | [] => ([], [])
  end.

Definition digits_value (base : Z) (ds : list Z) : Z :=
  fold_left (fun acc d => acc * base + d)%Z ds 0%Z.

Definition read_sign (l : list ascii) : bool * list ascii :=
  match l with
  | "-"%char :: r => (true, r)
  | "+"%char :: r => (false, r)
  | _ => (false, l)
  end.

Definition signed (neg : bool) (q : Q) : Q := if neg then - q else q.

(** [parseInt(s)] (no radix): optional sign, a "0x" prefix switches to
    hexadecimal, then the longest digit prefix; none gives NaN. *)
Definition parseInt (s : string) : jsnum :=
  let (neg, l) := read_sign (skip_ws (list_ascii_of_string s)) in
  let '(base, val, l') :=
    match l with
    | "0"%char :: ("x"|"X")%char :: r => (16%Z, hex_val, r)
    | _ => (10%Z, digit_val, l)
    end in
  match scan val l' with
  | ([], _) => JNaN
  | (ds, _) => JFin (signed neg (inject_Z (digits_value base ds)))
  end.

Definition list_prefix (p l : list ascii) : bool :=
  String.prefix (string_of_list_ascii p) (string_of_list_ascii l).

(** Optional exponent part [e[+-]digits]; absent or incomplete reads as 0. *)
Definition read_exponent (l : list ascii) : Z :=
  match l with
  | ("e"|"E")%char :: r =>
      let (neg, r') := read_sign r in
      match scan digit_val r' with
      | ([], _) => 0%Z
      | (ds, _) => if neg then (- digits_value 10 ds)%Z else digits_value 10 ds
      end
  | _ => 0%Z
  end.

(** [parseFloat(s)]: leading white space, optional sign, then "Infinity" or
    the longest decimal literal prefix [digits [. digits] [exponent]] or
    [. digits [exponent]]; no such prefix gives NaN.  The value is exact. *)
Definition parseFloat (s : string) : jsnum :=
  let (neg, l) := read_sign (skip_ws (list_ascii_of_string s)) in
  if list_prefix (list_ascii_of_string "Infinity") l then
    (if neg then JNegInf else JInf)
  else
    let (ip, l2) := scan digit_val l in
    let '(fp, l3) :=
      match l2 with
      | "."%char :: r => scan digit_val r
      | _ => ([], l2)
      end in
    match ip, fp with
    | [], [] => JNaN
    | _, _ =>
        let e := read_exponent l3 in
        JFin (signed neg (inject_Z (digits_value 10 (ip ++ fp))
                          * Qpower 10 (e - Z.of_nat (length fp))))
    end.

(** *** Strings *)

(** [String.prototype.trim] (ASCII white space) *)
Fixpoint ltrim (s : string) : string :=
  match s with
  | String c r => if is_ws c then ltrim r else s
  | EmptyString => EmptyString
  end.

Fixpoint rtrim (s : string) : string :=
  match s with
  | EmptyString => EmptyString
  | String c r =>
      let r' := rtrim r in
      if String.eqb r' "" && is_ws c then EmptyString else String c r'
  end.

Definition trim (s : string) : string := rtrim (ltrim s).

Definition newline : ascii := ascii_of_nat 10.

(** [s.split('\n')] *)
Fixpoint split_nl (s : string) : list string :=
  match s with
  | EmptyString => [EmptyString]
  | String c r =>
      let rest := split_nl r in
      if Ascii.eqb c newline then EmptyString :: rest
      else match rest with
           | h :: t => String c h :: t
           | [] => [String c EmptyString]
           end
  end.

(** [a.join('\n')] *)
Fixpoint join_nl (l : list string) : string :=
  match l with
  | [] => EmptyString
  | [x] => x
  | x :: r => x ++ String newline (join_nl r)
  end.

Definition has_newline (s : string) : bool :=
  existsb (Ascii.eqb newline) (list_ascii_of_string s).

End Js.

(* ================================================================== *)
(** ** [SimpleDxfWriter]: the text the writer accumulates *)

Module Writer.
Import Js.
Local Open Scope string_scope.

Record writer := mk_writer { content : list string }.

Definition header_lines : list string :=
  [ "0"; "SECTION"; "2"; "HEADER"; "9"; "$ACADVER"; "1"; "AC1009"; "0"; "ENDSEC";
    "0"; "SECTION"; "2"; "TABLES";
    "0"; "TABLE"; "2"; "LAYER"; "70"; "6";
    "0"; "LAYER"; "2"; "0"; "70"; "0"; "62"; "7"; "6"; "CONTINUOUS";
    "0"; "LAYER"; "2"; "CUT_OUTER"; "70"; "0"; "62"; "7"; "6"; "CONTINUOUS";
    "0"; "LAYER"; "2"; "CUT_INNER"; "70"; "0"; "62"; "1"; "6"; "CONTINUOUS";
    "0"; "LAYER"; "2"; "BEND"; "70"; "0"; "62"; "2"; "6"; "DASHED";
    "0"; "LAYER"; "2"; "DIMENSIONS"; "70"; "0"; "62"; "3"; "6"; "CONTINUOUS";
    "0"; "LAYER"; "2"; "TEXT"; "70"; "0"; "62"; "4"; "6"; "CONTINUOUS";
    "0"; "ENDTAB";
    "0"; "ENDSEC";
    "0"; "SECTION"; "2"; "ENTITIES" ].

(** [new SimpleDxfWriter()] runs [header()]. *)
Definition new_writer : writer := mk_writer header_lines.

Definition push (w : writer) (l : list string) : writer :=
  mk_writer (content w ++ l).

Definition line_lines (x1 y1 x2 y2 : Q) (layer : string) (color : Q) : list string :=
  [ "0"; "LINE"; "8"; layer; "62"; number_to_string color;
    "10"; toFixed 3 x1; "20"; toFixed 3 y1; "30"; "0.0";
    "11"; toFixed 3 x2; "21"; toFixed 3 y2; "31"; "0.0" ].

Definition vertex_lines (layer : string) (p : Q * Q) : list string :=
  [ "0"; "VERTEX"; "8"; layer; "10"; toFixed 3 (fst p); "20"; toFixed 3 (snd p);
    "30"; "0.0" ].

Definition polyline_lines (points : list (Q * Q)) (layer : string) (color : Q)
    (closed : bool) : list string :=
  [ "0"; "POLYLINE"; "8"; layer; "62"; number_to_string color; "66"; "1";
    "10"; "0.0"; "20"; "0.0"; "30"; "0.0"; "70"; if closed then "1" else "0" ]
  ++ flat_map (vertex_lines layer) points
  ++ [ "0"; "SEQEND" ].

Definition circle_lines (cx cy radius : Q) (layer : string) (color : Q) : list string :=
  [ "0"; "CIRCLE"; "8"; layer; "62"; number_to_string color;
    "10"; toFixed 3 cx; "20"; toFixed 3 cy; "30"; "0.0";
    "40"; toFixed 3 radius ].

Definition text_lines (text : string) (x y height : Q) (layer : string)
    (rotation : Q) : list string :=
  [ "0"; "TEXT"; "8"; layer;
    "10"; toFixed 3 x; "20"; toFixed 3 y; "30"; "0.0";
    "40"; number_to_string height;
    "50"; number_to_string rotation;
    "1"; text ].

Definition addLine (w : writer) x1 y1 x2 y2 layer color : writer :=
  push w (line_lines x1 y1 x2 y2 layer color).
Definition addPolyline (w : writer) points layer color closed : writer :=
  push w (polyline_lines points layer color closed).
Definition addCircle (w : writer) cx cy radius layer color : writer :=
  push w (circle_lines cx cy radius layer color).
Definition addText (w : writer) text x y height layer rotation : writer :=
  push w (text_lines text x y height layer rotation).

Definition footer_lines : list string := [ "0"; "ENDSEC"; "0"; "EOF" ].

(** [toString()]: pushes the footer into [content] and joins; the writer
    keeps the pushed footer. *)
Definition toString (w : writer) : string * writer :=
  let w' := push w footer_lines in
  (join_nl (content w'), w').

(** A sequence of calls of the four primitive appends. *)
Inductive call :=
| CLine (x1 y1 x2 y2 : Q) (layer : string) (color : Q)
| CPolyline (points : list (Q * Q)) (layer : string) (color : Q) (closed : bool)
| CCircle (cx cy radius : Q) (layer : string) (color : Q)
| CText (text : string) (x y height : Q) (layer : string) (rotation : Q).

Definition call_lines (c : call) : list string :=
  match c with
  | CLine x1 y1 x2 y2 layer color => line_lines x1 y1 x2 y2 layer color
  | CPolyline pts layer color closed => polyline_lines pts layer color closed
  | CCircle cx cy r layer color => circle_lines cx cy r layer color
  | CText t x y h layer rot => text_lines t x y h layer rot
  end.

Definition apply_call (w : writer) (c : call) : writer :=
  match c with
  | CLine x1 y1 x2 y2 layer color => addLine w x1 y1 x2 y2 layer color
  | CPolyline pts layer color closed => addPolyline w pts layer color closed
  | CCircle cx cy r layer color => addCircle w cx cy r layer color
  | CText t x y h layer rot => addText w t x y h layer rot
  end.

Definition run_calls (cs : list call) : writer := fold_left apply_call cs new_writer.

(** The strings a call writes verbatim (layer names and text). *)
Definition call_strings (c : call) : list string :=
  match c with
  | CLine _ _ _ _ layer _ | CPolyline _ layer _ _ | CCircle _ _ _ layer _ => [layer]
  | CText t _ _ _ layer _ => [t; layer]
  end.

End Writer.

(* ================================================================== *)
(** ** [parseDxf] *)

Module Parser.
Import Js.
Local Open Scope string_scope.

(** Outcome of running JavaScript code: a value, a thrown [TypeError], or
    (for the fuel of the loops) no answer within the given fuel. *)
Inductive res (A : Type) := RDone (a : A) | RTypeError | ROutOfFuel.
Arguments RDone {A} a.
Arguments RTypeError {A}.
Arguments ROutOfFuel {A}.

Definition res_bind {A B} (m : res A) (k : A -> res B) : res B :=
  match m with
  | RDone a => k a
  | RTypeError => RTypeError
  | ROutOfFuel => ROutOfFuel
  end.

Notation "x <- m ;; k" := (res_bind m (fun x => k))
  (at level 61, m at next level, right associativity).

(** [value === 'LIT'] where [value] may be [undefined] *)
Definition opt_eqb (v : option string) (lit : string) : bool :=
  match v with Some s => String.eqb s lit | None => false end.

Definition pfloat (v : option string) : jsnum :=
  match v with Some s => parseFloat s | None => JNaN end.
Definition pint (v : option string) : jsnum :=
  match v with Some s => parseInt s | None => JNaN end.

(** [(n & 1)] is non-zero: [ToInt32] truncates, non-finite values give 0. *)
Definition low_bit (n : jsnum) : bool :=
  match n with
  | JFin q => Z.odd (Z.quot (Qnum q) (Zpos (Qden q)))
  | _ => false
  end.

Record line_obj := mk_line {
  l_layer : option string; l_color : jsnum;
  l_x0 : jsnum; l_y0 : jsnum; l_x1 : jsnum; l_y1 : jsnum }.
Record circle_obj := mk_circle {
  c_layer : option string; c_color : jsnum;
  c_x : jsnum; c_y : jsnum; c_radius : jsnum }.
Record text_obj := mk_text {
  t_layer : option string; t_color : jsnum;
  t_x : jsnum; t_y : jsnum; t_height : jsnum; t_text : option string }.
Record poly_obj := mk_poly {
  p_layer : option string; p_color : jsnum;
  p_points : list (jsnum * jsnum); p_closed : bool }.

(** [interface DxfEntity], one constructor per [type]. *)
Inductive dxf_entity :=
| DLine (o : line_obj)
| DCircle (o : circle_obj)
| DText (o : text_obj)
| DPolyline (o : poly_obj).

Record bounds := mk_bounds { minX : jsnum; minY : jsnum; maxX : jsnum; maxY : jsnum }.

(** [updateBounds(x, y)] *)
Definition update_bounds (b : bounds) (x y : jsnum) : bounds :=
  let minX' := if js_lt x (minX b) then x else minX b in
  let maxX' := if js_lt (maxX b) x then x else maxX b in
  let minY' := if js_lt y (minY b) then y else minY b in
  let maxY' := if js_lt (maxY b) y then y else maxY b in
  mk_bounds minX' minY' maxX' maxY'.

(** Parser state: [entities], the four bound variables, [inEntities], and
    [fed], a record of the arguments of every [updateBounds] call (added
    to state which coordinates were contributed; it is never read). *)
Record pstate := mk_pstate {
  entities : list dxf_entity;
  bnds : bounds;
  inEntities : bool;
  fed : list (jsnum * jsnum) }.

Definition init_state : pstate :=
  mk_pstate [] (mk_bounds JInf JInf JNegInf JNegInf) false [].

Definition set_in (st : pstate) (b : bool) : pstate :=
  mk_pstate (entities st) (bnds st) b (fed st).
Definition add_entity (st : pstate) (e : dxf_entity) : pstate :=
  mk_pstate (entities st ++ [e]) (bnds st) (inEntities st) (fed st).
Definition upd_st (st : pstate) (x y : jsnum) : pstate :=
  mk_pstate (entities st) (update_bounds (bnds st) x y) (inEntities st)
            (fed st ++ [(x, y)]).

(** [next()]: the code line and the (possibly missing) value line. *)
Definition next (rest : list string) : option ((jsnum * option string) * list string) :=
  match rest with
  | [] => None
  | c :: tl => Some ((parseInt c, hd_error tl), match tl with [] => [] | _ :: r => r end)
  end.

(** [let p = peek(); while (p && p.code !== 0) { next(); ...; p = peek(); }]
    with the body's field assignments given by [upd]. *)
Fixpoint fields_loop {A} (upd : jsnum -> option string -> A -> A)
    (rest : list string) (a : A) : A * list string :=
  match rest with
  | [] => (a, [])
  | c :: tl =>
      let code := parseInt c in
      if js_eqb code (JFin 0) then (a, rest)
      else match tl with
           | [] => (upd code None a, [])
           | v :: r => fields_loop upd r (upd code (Some v) a)
           end
  end.

Definition line_upd (code : jsnum) (v : option string) (o : line_obj) : line_obj :=
  let o := if js_eqb code (JFin 8) then mk_line v (l_color o) (l_x0 o) (l_y0 o) (l_x1 o) (l_y1 o) else o in
  let o := if js_eqb code (JFin 62) then mk_line (l_layer o) (pint v) (l_x0 o) (l_y0 o) (l_x1 o) (l_y1 o) else o in
  let o := if js_eqb code (JFin 10) then mk_line (l_layer o) (l_color o) (pfloat v) (l_y0 o) (l_x1 o) (l_y1 o) else o in
  let o := if js_eqb code (JFin 20) then mk_line (l_layer o) (l_color o) (l_x0 o) (pfloat v) (l_x1 o) (l_y1 o) else o in
  let o := if js_eqb code (JFin 11) then mk_line (l_layer o) (l_color o) (l_x0 o) (l_y0 o) (pfloat v) (l_y1 o) else o in
  let o := if js_eqb code (JFin 21) then mk_line (l_layer o) (l_color o) (l_x0 o) (l_y0 o) (l_x1 o) (pfloat v) else o in
  o.

Definition circle_upd (code : jsnum) (v : option string) (o : circle_obj) : circle_obj :=
  let o := if js_eqb code (JFin 8) then mk_circle v (c_color o) (c_x o) (c_y o) (c_radius o) else o in
  let o := if js_eqb code (JFin 62) then mk_circle (c_layer o) (pint v) (c_x o) (c_y o) (c_radius o) else o in
  let o := if js_eqb code (JFin 10) then mk_circle (c_layer o) (c_color o) (pfloat v) (c_y o) (c_radius o) else o in
  let o := if js_eqb code (JFin 20) then mk_circle (c_layer o) (c_color o) (c_x o) (pfloat v) (c_radius o) else o in
  let o := if js_eqb code (JFin 40) then mk_circle (c_layer o) (c_color o) (c_x o) (c_y o) (pfloat v) else o in
  o.

Definition text_upd (code : jsnum) (v : option string) (o : text_obj) : text_obj :=
  let o := if js_eqb code (JFin 8) then mk_text v (t_color o) (t_x o) (t_y o) (t_height o) (t_text o) else o in
  let o := if js_eqb code (JFin 62) then mk_text (t_layer o) (pint v) (t_x o) (t_y o) (t_height o) (t_text o) else o in
  let o := if js_eqb code (JFin 10) then mk_text (t_layer o) (t_color o) (pfloat v) (t_y o) (t_height o) (t_text o) else o in
  let o := if js_eqb code (JFin 20) then mk_text (t_layer o) (t_color o) (t_x o) (pfloat v) (t_height o) (t_text o) else o in
  let o := if js_eqb code (JFin 40) then mk_text (t_layer o) (t_color o) (t_x o) (t_y o) (pfloat v) (t_text o) else o in
  let o := if js_eqb code (JFin 1) then mk_text (t_layer o) (t_color o) (t_x o) (t_y o) (t_height o) v else o in
  o.

Definition poly_upd (code : jsnum) (v : option string) (o : poly_obj) : poly_obj :=
  let o := if js_eqb code (JFin 8) then mk_poly v (p_color o) (p_points o) (p_closed o) else o in
  let o := if js_eqb code (JFin 62) then mk_poly (p_layer o) (pint v) (p_points o) (p_closed o) else o in
  let o := if js_eqb code (JFin 70) && low_bit (pint v) then mk_poly (p_layer o) (p_color o) (p_points o) true else o in
  o.

Definition vertex_upd (code : jsnum) (v : option string) (xy : jsnum * jsnum) : jsnum * jsnum :=
  let xy := if js_eqb code (JFin 10) then (pfloat v, snd xy) else xy in
  let xy := if js_eqb code (JFin 20) then (fst xy, pfloat v) else xy in
  xy.

Definition poly_add_point (o : poly_obj) (pt : jsnum * jsnum) : poly_obj :=
  mk_poly (p_layer o) (p_color o) (p_points o ++ [pt]) (p_closed o).

(** The [while (true)] loop reading the vertices of a POLYLINE. *)
Fixpoint vertex_loop (fuel : nat) (rest : list string) (o : poly_obj) (st : pstate)
    : option (poly_obj * pstate * list string) :=
  match fuel with
  | O => None
  | S f =>
      match next rest with
      | None => Some (o, st, rest)
      | Some ((_, v), rest1) =>
          if opt_eqb v "SEQEND" then Some (o, st, rest1)
          else if opt_eqb v "VERTEX" then
            let '((vx, vy), rest2) := fields_loop vertex_upd rest1 (JFin 0, JFin 0) in
            vertex_loop f rest2 (poly_add_point o (vx, vy)) (upd_st st vx vy)
          else vertex_loop f rest1 o st
      end
  end.

Definition text_width (t : string) (height : jsnum) : jsnum :=
  js_mul (js_mul (JFin (inject_Z (Z.of_nat (String.length t)))) height) (JFin (3 # 5)).

(** Body of the main loop after the SECTION test: the ENDSEC test and the
    dispatch on the entity type. *)
Definition dispatch (st : pstate) (code : jsnum) (v : option string)
    (rest : list string) : res (pstate * list string) :=
  let st := if js_eqb code (JFin 0) && opt_eqb v "ENDSEC" then set_in st false else st in
  if inEntities st && js_eqb code (JFin 0) then
    if opt_eqb v "LINE" then
      let (o, rest') := fields_loop line_upd rest
                          (mk_line (Some "0") (JFin 7) (JFin 0) (JFin 0) (JFin 0) (JFin 0)) in
      let st := upd_st st (l_x0 o) (l_y0 o) in
      let st := upd_st st (l_x1 o) (l_y1 o) in
      RDone (add_entity st (DLine o), rest')
    else if opt_eqb v "CIRCLE" then
      let (o, rest') := fields_loop circle_upd rest
                          (mk_circle (Some "0") (JFin 7) (JFin 0) (JFin 0) (JFin 0)) in
      let st := upd_st st (js_sub (c_x o) (c_radius o)) (js_sub (c_y o) (c_radius o)) in
      let st := upd_st st (js_add (c_x o) (c_radius o)) (js_add (c_y o) (c_radius o)) in
      RDone (add_entity st (DCircle o), rest')
    else if opt_eqb v "TEXT" then
      let (o, rest') := fields_loop text_upd rest
                          (mk_text (Some "0") (JFin 7) (JFin 0) (JFin 0) (JFin 10) (Some "")) in
      let st := upd_st st (t_x o) (t_y o) in
      match t_text o with
      | None => RTypeError   (* [text.text!.length] on [undefined] *)
      | Some t =>
          let st := upd_st st (js_add (t_x o) (text_width t (t_height o)))
                              (js_add (t_y o) (t_height o)) in
          RDone (add_entity st (DText o), rest')
      end
    else if opt_eqb v "POLYLINE" then
      let (o, rest') := fields_loop poly_upd rest (mk_poly (Some "0") (JFin 7) [] false) in
      match vertex_loop (S (length rest')) rest' o st with
      | Some (o', st', rest'') => RDone (add_entity st' (DPolyline o'), rest'')
      | None => ROutOfFuel
      end
    else RDone (st, rest)
  else RDone (st, rest).

(** [while (i < lines.length) { const pair = next(); ... }] *)
Fixpoint main_loop (fuel : nat) (st : pstate) (rest : list string) : res pstate :=
  match fuel with
  | O => ROutOfFuel
  | S f =>
      match next rest with
      | None => RDone st
      | Some ((code, v), rest1) =>
          if js_eqb code (JFin 0) && opt_eqb v "SECTION" then
            match next rest1 with
            | Some ((c2, v2), rest2) =>
                if js_eqb c2 (JFin 2) && opt_eqb v2 "ENTITIES" then
                  main_loop f (set_in st true) rest2          (* continue *)
                else
                  p <- dispatch st code v rest2 ;; main_loop f (fst p) (snd p)
            | None => p <- dispatch st code v rest1 ;; main_loop f (fst p) (snd p)
            end
          else p <- dispatch st code v rest1 ;; main_loop f (fst p) (snd p)
      end
  end.

(** [unchanged_or_fed st st']: from [st] to [st'] either the bounds (and the
    record of fed coordinates) are untouched, or some coordinate has been fed
    to [updateBounds]. *)
Definition unchanged_or_fed (st st' : pstate) : Prop :=
  (fed st' = fed st /\ bnds st' = bnds st) \/ fed st' <> [].

(** [code, value] line pairs none of whose code lines parses to 0: the
    field lines of one DXF record. *)
Fixpoint nonzero_pairs (l : list string) : bool :=
  match l with
  | [] => true
  | c :: v :: r => negb (js_eqb (parseInt c) (JFin 0)) && nonzero_pairs r
  | [_] => false
  end.

(** The main loop run from a given state with enough fuel for every line. *)
Definition run_loop (st : pstate) (l : list string) : res pstate :=
  main_loop (S (length l)) st l.

Record parse_result := mk_result {
  r_entities : list dxf_entity;
  r_bounds : bounds;
  r_fed : list (jsnum * jsnum) }.

Definition final_bounds (b : bounds) : bounds :=
  if js_eqb (minX b) JInf then mk_bounds (JFin 0) (JFin 0) (JFin 100) (JFin 100) else b.

Definition dxf_lines (content : string) : list string := map trim (split_nl content).

(** [parseDxf(content)] *)
Definition parseDxf (content : string) : res parse_result :=
  let lines := dxf_lines content in
  st <- main_loop (S (length lines)) init_state lines ;;
  RDone (mk_result (entities st) (final_bounds (bnds st)) (fed st)).

End Parser.

(* ================================================================== *)
(** ** Tray panel layout: the [isTray] branch of [generateFabricationFiles] *)

Module Tray.

(** Drawing entities as the writer appends them (the text serialisation of
    each call is modelled in [Dxf] below; here the geometry is what matters). *)
Inductive entity :=
| EPolyline (points : list (Q * Q)) (layer : string) (color : Z) (closed : bool)
| ELine (x1 y1 x2 y2 : Q) (layer : string) (color : Z)
| ECircle (cx cy radius : Q) (layer : string) (color : Z)
| EText (text : string) (x y height : Q) (layer : string) (rotation : Q).

Definition FLANGE : Q := 35.          (* Standard AHU Flange *)
Definition BEND_DEDUCTION : Q := 3 # 2. (* For 0.8mm *)
Definition holeSpacing : Q := 150.
Definition rivetDia : Q := 4.

Definition flatW (W : Q) : Q := W + (2 * FLANGE) - (2 * BEND_DEDUCTION).
Definition flatH (H : Q) : Q := H + (2 * FLANGE) - (2 * BEND_DEDUCTION).
Definition notchSize : Q := FLANGE - (BEND_DEDUCTION / 2).
Definition flangeMid : Q := notchSize / 2.

(** The 12-point notched outer cut. *)
Definition tray_outline (W H : Q) : list (Q * Q) :=
  let fW := flatW W in let fH := flatH H in let n := notchSize in
  [ (n, 0); (fW - n, 0);
    (fW - n, n); (fW, n);
    (fW, fH - n); (fW - n, fH - n);
    (fW - n, fH); (n, fH);
    (n, fH - n); (0, fH - n);
    (0, n); (n, n) ].

(** Four bend lines and their "UP 90" labels. *)
Definition tray_bends (W H : Q) : list entity :=
  let fW := flatW W in let fH := flatH H in let n := notchSize in
  [ ELine n n n (fH - n) "BEND" 2;
    EText "UP 90" (n - 5) (fH / 2) (7 # 2) "TEXT" 90;
    ELine (fW - n) n (fW - n) (fH - n) "BEND" 2;
    EText "UP 90" (fW - n + 2) (fH / 2) (7 # 2) "TEXT" 90;
    ELine n n (fW - n) n "BEND" 2;
    EText "UP 90" (fW / 2) (n - 5) (7 # 2) "TEXT" 0;
    ELine n (fH - n) (fW - n) (fH - n) "BEND" 2;
    EText "UP 90" (fW / 2) (fH - n + 2) (7 # 2) "TEXT" 0 ].

(** [Math.floor((flat - 2*notchSize) / holeSpacing)] *)
Definition numHoles (flat : Q) : Z := Qfloor ((flat - 2 * notchSize) / holeSpacing).
(** [(flat - 2*notchSize) / (numHoles + 1)] *)
Definition holeStep (flat : Q) : Q :=
  (flat - 2 * notchSize) / inject_Z (numHoles flat + 1).

(** [for (let i = 1; i <= numHolesX; i++) { bottom hole; top hole }] *)
Definition rivets_x (W H : Q) : list entity :=
  let fW := flatW W in let fH := flatH H in
  flat_map (fun i =>
      let x := notchSize + (inject_Z (Z.of_nat i) * holeStep fW) in
      [ ECircle x flangeMid (rivetDia / 2) "CUT_INNER" 1;
        ECircle x (fH - flangeMid) (rivetDia / 2) "CUT_INNER" 1 ])
    (seq 1 (Z.to_nat (numHoles fW))).

(** [for (let i = 1; i <= numHolesY; i++) { left hole; right hole }] *)
Definition rivets_y (W H : Q) : list entity :=
  let fW := flatW W in let fH := flatH H in
  flat_map (fun i =>
      let y := notchSize + (inject_Z (Z.of_nat i) * holeStep fH) in
      [ ECircle flangeMid y (rivetDia / 2) "CUT_INNER" 1;
        ECircle (fW - flangeMid) y (rivetDia / 2) "CUT_INNER" 1 ])
    (seq 1 (Z.to_nat (numHoles fH))).

(** The entities the tray branch appends before its dimensions. *)
Definition tray_entities (W H : Q) : list entity :=
  EPolyline (tray_outline W H) "CUT_OUTER" 7 true
  :: tray_bends W H ++ rivets_x W H ++ rivets_y W H.

(** Positions along a flange of length [flat] at which the loop places holes. *)
Definition hole_positions (flat : Q) : list Q :=
  map (fun i => notchSize + (inject_Z (Z.of_nat i) * holeStep flat))
      (seq 1 (Z.to_nat (numHoles flat))).

(** Axis-aligned extent of a point list. *)
Definition qmax (a b : Q) : Q := if Qle_bool a b then b else a.
Definition qmin (a b : Q) : Q := if Qle_bool a b then a else b.
Definition list_max (l : list Q) : Q :=
  match l with [] => 0 | x :: r => fold_left qmax r x end.
Definition list_min (l : list Q) : Q :=
  match l with [] => 0 | x :: r => fold_left qmin r x end.
Definition bbox_width (pts : list (Q * Q)) : Q :=
  list_max (map fst pts) - list_min (map fst pts).
Definition bbox_height (pts : list (Q * Q)) : Q :=
  list_max (map snd pts) - list_min (map snd pts).

(** What the claims say about the holes of one flange pair of a flat
    dimension [flat]: how many there are, where they sit, and that they are
    mirror images about the middle of the flange. *)
Definition hole_pair_spec (flat : Q) (xs : list Q) : Prop :=
  Z.of_nat (length xs) = Z.max 0 (Qfloor ((flat - 2 * notchSize) / holeSpacing))
  /\ (forall i, (i < length xs)%nat ->
        nth i xs 0 == notchSize + inject_Z (Z.of_nat (S i))
                      * ((flat - 2 * notchSize) / inject_Z (Z.of_nat (length xs) + 1)))
  /\ (forall i, (i < length xs)%nat ->
        nth i xs 0 + nth (length xs - 1 - i) xs 0 == flat).

End Tray.

(* ================================================================== *)
(** ** Part list and the in-place hole remapping of [generateFabricationFiles] *)

Module Parts.

(** [interface Hole] (src/unnamed/part_000) *)
Inductive hole_shape := Circle | Rect.

Record hole := mk_hole {
  Shape : hole_shape;
  X : Q;
  Y : Q;
  W_or_Dia : Q;
  Hh : option Q          (* [H?: number] *)
}.

Inductive part_type := Panel | Profile.

(** Hole objects live in a store and are referenced by location, so that
    two parts (or one part listed twice) may share the same [Hole] object,
    as JavaScript references allow. *)
Definition loc := nat.
Definition store := loc -> hole.

(** [interface PartGeometry] *)
Record part := mk_part {
  Part_Name : string;
  Type_ : part_type;     (* [Type] *)
  Material : string;
  Qty : Q;
  Width_mm : Q;
  Height_mm : Q;
  Notes : option string;
  Holes : option (list loc)
}.

Definition store_upd (h : store) (l : loc) (v : hole) : store :=
  fun l' => if Nat.eqb l l' then v else h l'.

(** [String.prototype.toLowerCase] on ASCII text. *)
Definition lower_ascii (c : ascii) : ascii :=
  let n := nat_of_ascii c in
  if (65 <=? n)%nat && (n <=? 90)%nat then ascii_of_nat (n + 32) else c.

Fixpoint toLowerCase (s : string) : string :=
  match s with
  | EmptyString => EmptyString
  | String c r => String (lower_ascii c) (toLowerCase r)
  end.

(** [String.prototype.includes] *)
Fixpoint includes (s pat : string) : bool :=
  String.prefix pat s ||
  match s with EmptyString => false | String _ r => includes r pat end.

(** [const isTray = !panel.Notes?.toLowerCase().includes('flat');]
    ([undefined] is falsy, so a panel without notes is a tray). *)
Definition isTray (p : part) : bool :=
  match Notes p with
  | None => true
  | Some n => negb (includes (toLowerCase n) "flat")
  end.

Definition is_panel (p : part) : bool :=
  match Type_ p with Panel => true | Profile => false end.

(** [h.X += notchSize; h.Y += notchSize;] *)
Definition shift_hole (hl : hole) : hole :=
  mk_hole (Shape hl) (X hl + Tray.notchSize) (Y hl + Tray.notchSize)
          (W_or_Dia hl) (Hh hl).

(** [panel.Holes.forEach(h => { ... })] *)
Definition remap_holes (hs : list loc) (h : store) : store :=
  fold_left (fun h l => store_upd h l (shift_hole (h l))) hs h.

(** The effect of one iteration of [panels.forEach] on the store: the only
    assignment to input data is the remapping inside the [isTray] branch,
    guarded by [if (panel.Holes)]. *)
Definition panel_effect (h : store) (p : part) : store :=
  if isTray p then
    match Holes p with Some hs => remap_holes hs h | None => h end
  else h.

(** Effect of [generateFabricationFiles(data)] on the store of holes:
    [data.Parts_List.filter(p => p.Type === 'Panel').forEach(...)]; the
    profile loop and the cut list only read the input. *)
Definition generate_effect (parts : list part) (h : store) : store :=
  fold_left panel_effect (filter is_panel parts) h.

(** Locations of the holes that tray panels reference, with repetitions. *)
Definition tray_hole_refs (parts : list part) : list loc :=
  flat_map (fun p => if isTray p then match Holes p with Some hs => hs | None => [] end
                     else [])
           (filter is_panel parts).

(** Two tray panels whose [Holes] arrays hold the same [Hole] object
    (location 0). *)
Definition shared_hole_store : store :=
  fun _ => mk_hole Circle 100 50 10 None.

Definition shared_hole_parts : list part :=
  [ mk_part "Side_A" Panel "GI" 1 300 200 None (Some [0%nat]);
    mk_part "Side_B" Panel "GI" 1 300 200 None (Some [0%nat]) ].

End Parts.


(* ================================================================== *)
(** ** [addDimension] over the reals *)

Module Dim.
Import Js Writer.
Local Open Scope R_scope.
Local Open Scope string_scope.

Definition rltb (x y : R) : bool := if Rlt_dec x y then true else false.

(** [toFixed(f)] on a real: [Int_part] is the floor. *)
Definition toFixedR (f : nat) (x : R) : string :=
  fixed_string f (rltb x 0) (Int_part (Rabs x * 10 ^ f + / 2)).

(** [Number.prototype.toString()] as in [Js.shortest_fixed]. *)
Fixpoint shortest_fixedR (k fuel : nat) (x : R) : string :=
  match fuel with
  | O => toFixedR k x
  | S fuel' =>
      let y := Rabs x * 10 ^ k in
      if Req_dec_T y (IZR (Int_part y)) then fixed_string k (rltb x 0) (Int_part y)
      else shortest_fixedR (S k) fuel' x
  end.

Definition number_to_stringR (x : R) : string := shortest_fixedR 0 20 x.

(** [addLine] and [addText] on real arguments, as in [Writer]. *)
Definition addLineR (w : writer) (x1 y1 x2 y2 : R) (layer : string) (color : R) : writer :=
  push w [ "0"; "LINE"; "8"; layer; "62"; number_to_stringR color;
           "10"; toFixedR 3 x1; "20"; toFixedR 3 y1; "30"; "0.0";
           "11"; toFixedR 3 x2; "21"; toFixedR 3 y2; "31"; "0.0" ].

Definition addTextR (w : writer) (text : string) (x y height : R) (layer : string)
    (rotation : R) : writer :=
  push w [ "0"; "TEXT"; "8"; layer;
           "10"; toFixedR 3 x; "20"; toFixedR 3 y; "30"; "0.0";
           "40"; number_to_stringR height;
           "50"; number_to_stringR rotation;
           "1"; text ].

(** [Math.atan2(y, x)] for finite arguments (no signed zeros in [R]). *)
Definition atan2 (y x : R) : R :=
  if Rlt_dec 0 x then atan (y / x)
  else if Rlt_dec x 0 then
    (if Rle_dec 0 y then atan (y / x) + PI else atan (y / x) - PI)
  else if Rlt_dec 0 y then PI / 2
  else if Rlt_dec y 0 then - (PI / 2)
  else 0.

(** [Math.sign] *)
Definition sign (x : R) : R :=
  if Rlt_dec 0 x then 1 else if Rlt_dec x 0 then -1 else 0.

(** [let textRot = angle * 180 / Math.PI; if (textRot > 90 || textRot < -90) textRot += 180;] *)
Definition text_rotation (angle : R) : R :=
  let textRot := angle * 180 / PI in
  if rltb 90 textRot || rltb textRot (-90) then textRot + 180 else textRot.

(** [addDimension(x1, y1, x2, y2, value?, offset = 20)] *)
Definition addDimension (w : writer) (x1 y1 x2 y2 : R) (value : option R) (offset : R)
    : writer :=
  let dist := sqrt ((x2 - x1) ^ 2 + (y2 - y1) ^ 2) in
  if Rlt_dec dist (1 / 10) then w
  else
    let val := match value with Some v => v | None => dist end in
    let angle := atan2 (y2 - y1) (x2 - x1) in
    let perpAngle := angle + PI / 2 in
    let gap := 2 in
    let overshoot := 2 in
    let extStartX1 := x1 + cos perpAngle * (sign offset * gap) in
    let extStartY1 := y1 + sin perpAngle * (sign offset * gap) in
    let extStartX2 := x2 + cos perpAngle * (sign offset * gap) in
    let extStartY2 := y2 + sin perpAngle * (sign offset * gap) in
    let offX := cos perpAngle * offset in
    let offY := sin perpAngle * offset in
    let dimX1 := x1 + offX in
    let dimY1 := y1 + offY in
    let dimX2 := x2 + offX in
    let dimY2 := y2 + offY in
    let extEndX1 := dimX1 + cos perpAngle * (sign offset * overshoot) in
    let extEndY1 := dimY1 + sin perpAngle * (sign offset * overshoot) in
    let extEndX2 := dimX2 + cos perpAngle * (sign offset * overshoot) in
    let extEndY2 := dimY2 + sin perpAngle * (sign offset * overshoot) in
    let w := addLineR w extStartX1 extStartY1 extEndX1 extEndY1 "DIMENSIONS" 3 in
    let w := addLineR w extStartX2 extStartY2 extEndX2 extEndY2 "DIMENSIONS" 3 in
    let w := addLineR w dimX1 dimY1 dimX2 dimY2 "DIMENSIONS" 3 in
    let tickSize := 2 in
    let tickAngle := angle + PI / 4 in
    let tick1X := cos tickAngle * tickSize in
    let tick1Y := sin tickAngle * tickSize in
    let w := addLineR w (dimX1 - tick1X) (dimY1 - tick1Y) (dimX1 + tick1X) (dimY1 + tick1Y) "DIMENSIONS" 3 in
    let w := addLineR w (dimX2 - tick1X) (dimY2 - tick1Y) (dimX2 + tick1X) (dimY2 + tick1Y) "DIMENSIONS" 3 in
    let midX := (dimX1 + dimX2) / 2 in
    let midY := (dimY1 + dimY2) / 2 in
    let textGap := 2 in
    let textX := midX + cos perpAngle * textGap in
    let textY := midY + sin perpAngle * textGap in
    let textStr := toFixedR 1 val in
    let textHeight := 7 / 2 in
    let textWidthEstimate := INR (String.length textStr) * (textHeight * (3 / 5)) in
    let textRot := text_rotation angle in
    addTextR w textStr (textX - textWidthEstimate / 2) (textY - textHeight / 2)
             textHeight "TEXT" textRot.

End Dim.

(* ================================================================== *)
(** ** Rendering then parsing: what is compared *)

Module RoundTrip.
Import Js Writer Parser.

(** A parsed coordinate is finite and within 0.001 of the value written.
    [toFixed(3)] moves a value by at most 0.0005.  [parseFloat] is modelled
    by the exact decimal; in double arithmetic it returns the double nearest
    to that decimal, which is no farther from it than the written double
    itself, so the two steps together move a value by at most 0.001. *)
Definition close (a : jsnum) (q : Q) : Prop :=
  match a with JFin r => Qabs (r - q) <= 1 # 1000 | _ => False end.

Definition point_close (p : Q * Q) (pt : jsnum * jsnum) : Prop :=
  close (fst pt) (fst p) /\ close (snd pt) (snd p).

(** The parsed entity has the type of the call and its coordinates. *)
Definition call_matches (c : call) (e : dxf_entity) : Prop :=
  match c, e with
  | CLine x1 y1 x2 y2 _ _, DLine o =>
      close (l_x0 o) x1 /\ close (l_y0 o) y1 /\ close (l_x1 o) x2 /\ close (l_y1 o) y2
  | CPolyline pts _ _ _, DPolyline o => Forall2 point_close pts (p_points o)
  | CCircle cx cy r _ _, DCircle o =>
      close (c_x o) cx /\ close (c_y o) cy /\ close (c_radius o) r
  | CText _ x y _ _ _, DText o => close (t_x o) x /\ close (t_y o) y
  | _, _ => False
  end.

(** The vertex the parser reads back from the two [toFixed(3)] strings
    written for the point [p]. *)
Definition written_point (p : Q * Q) : jsnum * jsnum :=
  (parseFloat (toFixed 3 (fst p)), parseFloat (toFixed 3 (snd p))).

(** The layer names and texts of a call hold no line break. *)
Definition no_newline_call (c : call) : Prop :=
  Forall (fun s => has_newline s = false) (call_strings c).

(** A layer name holding line breaks: "A", "0", "LINE" on three lines. *)
Definition newline_layer : string :=
  String "A" (String newline (String "0" (String newline "LINE"%string))).

Definition newline_layer_calls : list call :=
  [CLine 0 0 (201 # 2) 0 newline_layer 7].

End RoundTrip.

(* ================================================================== *)
(** ** The bounds of [parseDxf] and the viewBox of [DxfPreview] (src/App.tsx) *)

Module Preview.
Import Js Parser.
Local Open Scope string_scope.

(** The points [parseDxf] passes to [updateBounds] for an entity: the two
    end points of a LINE, the corners [center -/+ radius] of a CIRCLE, the
    anchor and the estimated far corner of a TEXT, the vertices of a
    POLYLINE. *)
Definition entity_points (e : dxf_entity) : list (jsnum * jsnum) :=
  match e with
  | DLine o => [(l_x0 o, l_y0 o); (l_x1 o, l_y1 o)]
  | DCircle o =>
      [(js_sub (c_x o) (c_radius o), js_sub (c_y o) (c_radius o));
       (js_add (c_x o) (c_radius o), js_add (c_y o) (c_radius o))]
  | DText o =>
      (t_x o, t_y o) ::
      match t_text o with
      | Some t => [(js_add (t_x o) (text_width t (t_height o)), js_add (t_y o) (t_height o))]
      | None => []
      end
  | DPolyline o => p_points o
  end.

(** [m <= q] and [q <= m] for a bound [m] that may be infinite. *)
Definition bound_le (m : jsnum) (q : Q) : Prop :=
  match m with JFin a => a <= q | JNegInf => True | _ => False end.
Definition bound_ge (m : jsnum) (q : Q) : Prop :=
  match m with JFin a => q <= a | JInf => True | _ => False end.

(** The box [minX..maxX] x [minY..maxY] holds the point [(x, y)]. *)
Definition encloses (b : bounds) (x y : Q) : Prop :=
  bound_le (minX b) x /\ bound_ge (maxX b) x /\ bound_le (minY b) y /\ bound_ge (maxY b) y.

Definition is_fin (a : jsnum) : bool := match a with JFin _ => true | _ => false end.

Definition bounds_finite (b : bounds) : bool :=
  is_fin (minX b) && is_fin (minY b) && is_fin (maxX b) && is_fin (maxY b).

(** [Math.max(a, b)] *)
Definition js_max (a b : jsnum) : jsnum :=
  match a, b with
  | JNaN, _ | _, JNaN => JNaN
  | _, _ => if js_lt a b then b else a
  end.

(** The four numbers of the [viewBox] attribute of [DxfPreview]. *)
Record view_box := mk_view_box { vb_x : jsnum; vb_y : jsnum; vb_w : jsnum; vb_h : jsnum }.

(** [const width = maxX - minX; const height = maxY - minY;
     const p = Math.max(width, height) * 0.1;
     `${minX - p} ${-maxY - p} ${width + p*2} ${height + p*2}`] *)
Definition viewBox (b : bounds) : view_box :=
  let width := js_sub (maxX b) (minX b) in
  let height := js_sub (maxY b) (minY b) in
  let p := js_mul (js_max width height) (JFin (1 # 10)) in
  mk_view_box (js_sub (minX b) p) (js_sub (js_neg (maxY b)) p)
              (js_add width (js_mul p (JFin 2))) (js_add height (js_mul p (JFin 2))).

(** The SVG point [(x, y)] lies in the (finite) view box. *)
Definition in_view (v : view_box) (x y : Q) : Prop :=
  match v with
  | mk_view_box (JFin vx) (JFin vy) (JFin vw) (JFin vh) =>
      vx <= x <= vx + vw /\ vy <= y <= vy + vh
  | _ => False
  end.

(** A line ending in a carriage return, as the lines of a CRLF file do
    after [split('\n')]. *)
Definition cr : ascii := ascii_of_nat 13.
Definition add_cr (s : string) : string := s ++ String cr EmptyString.

End Preview.

(* ================================================================== *)
(** ** Profiles: [parseProfileDims] and the profile branch of
    [generateFabricationFiles] *)

Module Profile.
Import Js Flat Parts.
Local Open Scope string_scope.

Definition is_digit_b (c : ascii) : bool :=
  match digit_val c with Some _ => true | None => false end.

(** The class [[xX]]. *)
Definition is_x (c : ascii) : bool :=
  (Ascii.eqb c "x"%char) || (Ascii.eqb c "X"%char).

(** Greedy [\d*]: the longest digit prefix and the rest. *)
Fixpoint span_digits (l : list ascii) : list ascii * list ascii :=
  match l with
  | c :: r =>
      if is_digit_b c then let (d, rest) := span_digits r in (c :: d, rest)
      else ([], l)
  | [] => ([], [])
  end.

(** [/(\d+)[xX](\d+)(?:[xX](\d+))?/] anchored at the start of [l]: the
    captures [match[1]], [match[2]] and [match[3]] ([None] for
    [undefined]).  Backtracking never changes the outcome: a shorter
    first group leaves a digit where [[xX]] is needed, and the optional
    group after the second one always succeeds, so the greedy choices are
    the ones the engine keeps. *)
Definition match_at (l : list ascii)
    : option (list ascii * list ascii * option (list ascii)) :=
  match span_digits l with
  | ((_ :: _) as d1, c1 :: r1) =>
      if is_x c1 then
        match span_digits r1 with
        | ((_ :: _) as d2, r2) =>
            let g3 :=
              match r2 with
              | c2 :: r2' =>
                  if is_x c2 then
                    match span_digits r2' with
                    | ((_ :: _) as d3, _) => Some d3
                    | _ => None
                    end
                  else None
              | [] => None
              end in
            Some (d1, d2, g3)
        | _ => None
        end
      else None
  | _ => None
  end.

(** [name.match(regex)] without the [g] flag: the leftmost match. *)
Fixpoint regex_search (l : list ascii)
    : option (list ascii * list ascii * option (list ascii)) :=
  match match_at l with
  | Some m => Some m
  | None => match l with [] => None | _ :: r => regex_search r end
  end.

(** [parseFloat] of a capture; a capture is a non-empty digit string, on
    which [parseFloat] is finite, so the fallback is never taken. *)
Definition pf (d : list ascii) : Q :=
  match parseFloat (string_of_list_ascii d) with JFin q => q | _ => 0 end.

Record dims := mk_dims { web : Q; flange : Q; lip : Q }.

(** [parseProfileDims(name, defaultWeb)]; a capture is a non-empty
    string, hence truthy in [match[3] ? ... : 0]. *)
Definition parseProfileDims (name : string) (defaultWeb : Q) : dims :=
  match regex_search (list_ascii_of_string name) with
  | Some (d1, d2, g3) =>
      mk_dims (pf d1) (pf d2) (match g3 with Some d3 => pf d3 | None => 0 end)
  | None => mk_dims defaultWeb 35 15
  end.

(** [prof.Height_mm || 100] ([0] is the only falsy number here). *)
Definition height_or_100 (h : Q) : Q := if Qeq_bool h 0 then 100 else h.

(** [if (lip > 0) segments.push(lip); segments.push(flange);
     segments.push(web); segments.push(flange); if (lip > 0) segments.push(lip);] *)
Definition profile_segments (d : dims) : list Q :=
  (if Qle_bool (lip d) 0 then [] else [lip d])
  ++ [flange d; web d; flange d]
  ++ (if Qle_bool (lip d) 0 then [] else [lip d]).

(** [const { flatLength, bendPositions } = calculateFlatPattern(segments, 2.0);]
    for one profile [prof]. *)
Definition profile_flat (prof : part) : flat_pattern :=
  let d := parseProfileDims (Part_Name prof) (height_or_100 (Height_mm prof)) in
  calculateFlatPattern (profile_segments d) 2.

(** The value of a digit string. *)
Definition digits_Q (d : list ascii) : Q :=
  inject_Z (digits_value 10 (map (fun c => match digit_val c with Some v => v | None => 0%Z end) d)).

(** The list starts with a decimal digit. *)
Definition starts_with_digit (l : list ascii) : bool :=
  match l with c :: _ => is_digit_b c | [] => false end.

(** The list starts with [[xX]] followed by a decimal digit. *)
Definition starts_with_x_digit (l : list ascii) : bool :=
  match l with x :: c :: _ => is_x x && is_digit_b c | _ => false end.

End Profile.

(* ================================================================== *)
(** ** [addCallout]: leader callouts of the hole loop *)

Module Callout.
Import Js Writer Dim.
Local Open Scope R_scope.
Local Open Scope string_scope.


End Callout.

(* ================================================================== *)
(** ** The CSV cut list of [generateFabricationFiles] *)

Module CutList.
Import Js Parts.
Local Open Scope string_scope.

Definition type_name (t : part_type) : string :=
  match t with Panel => "Panel" | Profile => "Profile" end.

(** [part.Notes || ''] *)
Definition notes_text (n : option string) : string :=
  match n with Some s => s | None => "" end.

(** One row: [`${part.Part_Name},${part.Type},${part.Width_mm},${part.Height_mm},${part.Qty},${part.Material},${part.Notes || ''}`];
    numbers are interpolated with [Number.prototype.toString]. *)
Definition csv_row (p : part) : string :=
  Part_Name p ++ "," ++ type_name (Type_ p) ++ "," ++ number_to_string (Width_mm p)
  ++ "," ++ number_to_string (Height_mm p) ++ "," ++ number_to_string (Qty p)
  ++ "," ++ Material p ++ "," ++ notes_text (Notes p).

Definition csv_header : string :=
  "Part Name,Type,Width (mm),Height/Length (mm),Qty,Material,Notes".

(** [csvRows.join('\n')] with [csvRows = [header, ...Parts_List.map(row)]]. *)
Definition cut_list (parts : list part) : string :=
  join_nl (csv_header :: map csv_row parts).

(** Number of occurrences of a character in a string. *)
Definition count_char (c : ascii) (s : string) : nat :=
  count_occ ascii_dec (list_ascii_of_string s) c.

End CutList.

(* ################################################################## *)
(** * Theorems *)

(* ================================================================== *)
(** ** Proofs: flat pattern *)

Module FlatProofs.
Import Flat.

Lemma fold_left_Qplus_qsum (l : list Q) (a : Q) :
  fold_left Qplus l a == a + qsum l.
Proof.
  revert a; induction l as [|x l IH]; intro a; simpl.
  - qlra.
  - rewrite IH. qlra.
Qed.

Lemma qsum_firstn_S (l : list Q) (k : nat) :
  (k < length l)%nat ->
  qsum (firstn (S k) l) == qsum (firstn k l) + nth k l 0.
Proof.
  revert k; induction l as [|x l IH]; intros k Hk;
    cbn [length] in Hk; [lia|].
  destruct k as [|k].
  - cbn [firstn qsum nth]. qlra.
  - change (firstn (S (S k)) (x :: l)) with (x :: firstn (S k) l).
    change (firstn (S k) (x :: l)) with (x :: firstn k l).
    cbn [qsum nth]. rewrite IH by lia. qlra.
Qed.

Lemma nth_map_seq0 {A} (f : nat -> A) (n i : nat) (d : A) :
  (i < n)%nat -> nth i (map f (seq 0 n)) d = f i.
Proof.
  intro Hi. rewrite nth_indep with (d' := f 0%nat)
    by (rewrite length_map, length_seq; exact Hi).
  now rewrite map_nth, seq_nth.
Qed.

Lemma bend_nth (segments : list Q) (t : Q) (i : nat) :
  (i < length segments - 1)%nat ->
  nth i (bendPositions (calculateFlatPattern segments t)) 0
  == qsum (firstn (S i) segments) - (inject_Z (Z.of_nat i) * (2 * t) + t).
Proof.
  intro Hi. unfold calculateFlatPattern; cbn [bendPositions].
  rewrite nth_map_seq0 by exact Hi.
  unfold cum_outer. rewrite fold_left_Qplus_qsum. setoid_replace (2 * t / 2) with t by field. ring.
Qed.

Lemma bend_length (segments : list Q) (t : Q) :
  length (bendPositions (calculateFlatPattern segments t))
  = (length segments - 1)%nat.
Proof. simpl. now rewrite length_map, length_seq. Qed.

(** Consecutive bend positions differ by the next segment minus [2 t]. *)
Lemma bend_step (segments : list Q) (t : Q) (i : nat) :
  (S i < length segments - 1)%nat ->
  nth (S i) (bendPositions (calculateFlatPattern segments t)) 0
  - nth i (bendPositions (calculateFlatPattern segments t)) 0
  == nth (S i) segments 0 - 2 * t.
Proof.
  intro Hi.
  rewrite (bend_nth segments t (S i)) by exact Hi.
  rewrite (bend_nth segments t i) by lia.
  rewrite (qsum_firstn_S segments (S i)) by lia.
  rewrite Nat2Z.inj_succ. unfold Z.succ.
  rewrite inject_Z_plus. change (inject_Z 1) with 1. ring.
Qed.

End FlatProofs.

Module FlatClaims.
Import Flat FlatProofs.

(** C1 (as amended): for [n >= 2] segments and thickness [t],
    [calculateFlatPattern] returns [flatLength = sum - (n-1) 2t] and
    [n-1] bend positions, the [i]-th being the cumulative length of the
    first [i+1] segments minus [i 2t + t]; the bend positions are strictly
    increasing exactly when every interior segment (indices [1 .. n-2]) is
    longer than the bend deduction [2t]. *)
Theorem calculateFlatPattern_spec (segments : list Q) (t : Q) :
  (2 <= length segments)%nat ->
  let r := calculateFlatPattern segments t in
  flatLength r == qsum segments
                  - inject_Z (Z.of_nat (length segments) - 1) * (2 * t)
  /\ length (bendPositions r) = (length segments - 1)%nat
  /\ (forall i, (i < length segments - 1)%nat ->
        nth i (bendPositions r) 0
        == qsum (firstn (S i) segments) - (inject_Z (Z.of_nat i) * (2 * t) + t))
  /\ (strictly_increasing (bendPositions r) <->
        forall j, (1 <= j)%nat -> (j < length segments - 1)%nat ->
                  2 * t < nth j segments 0).
Proof.
  intros Hn r. subst r. split; [|split; [|split]].
  - cbn [calculateFlatPattern flatLength]. unfold reduce_sum.
    rewrite fold_left_Qplus_qsum. ring.
  - apply bend_length.
  - intros i Hi. now apply bend_nth.
  - split.
    + intros Hinc j Hj1 Hj2.
      destruct j as [|i]; [lia|].
      assert (Hs := bend_step segments t i Hj2).
      assert (Hlt := Hinc i ltac:(rewrite bend_length; lia)).
      qlra.
    + intros Hseg i Hi. rewrite bend_length in Hi.
      assert (Hs := bend_step segments t i Hi).
      assert (Hj := Hseg (S i) ltac:(lia) Hi).
      qlra.
Qed.

Lemma calculateFlatPattern_spec_witness :
  (2 <= length [15; 35; 100; 35; 15])%nat /\
  strictly_increasing (bendPositions (calculateFlatPattern [15; 35; 100; 35; 15] 2)).
Proof.
  split; [cbn; lia|].
  apply (proj2 (proj2 (proj2 (calculateFlatPattern_spec [15; 35; 100; 35; 15] 2
           ltac:(cbn; lia))))).
  intros j Hj1 Hj2. cbn in Hj2.
  destruct j as [|[|[|[|j]]]]; try lia; vm_compute; reflexivity.
Defined.

(** C1, counterexample: with segments [10; 1; 10] and thickness 2 the bend
    positions are [8; 5], which is not increasing. *)
Lemma calculateFlatPattern_not_increasing :
  ~ strictly_increasing (bendPositions (calculateFlatPattern [10; 1; 10] 2)).
Proof.
  intro H. specialize (H 0%nat ltac:(cbn; lia)).
  vm_compute in H. discriminate H.
Qed.

End FlatClaims.

(* ================================================================== *)
(** ** Proofs: tray layout *)

Module TrayProofs.
Import Tray.

Lemma nth_map_seq {A} (f : nat -> A) (s n i : nat) (d : A) :
  (i < n)%nat -> nth i (map f (seq s n)) d = f (s + i)%nat.
Proof.
  intro Hi. rewrite nth_indep with (d' := f 0%nat)
    by (rewrite length_map, length_seq; exact Hi).
  now rewrite map_nth, seq_nth.
Qed.

Lemma fold_qmax_ge (r : list Q) (a : Q) :
  a <= fold_left qmax r a /\ forall y, In y r -> y <= fold_left qmax r a.
Proof.
  revert a; induction r as [|x r IH]; intro a; cbn [fold_left In].
  - split; [apply Qle_refl | intros y []].
  - destruct (Qle_bool a x) eqn:E.
    + replace (qmax a x) with x by (unfold qmax; now rewrite E).
      apply Qle_bool_iff in E. destruct (IH x) as [H1 H2].
      split; [eapply Qle_trans; eauto|].
      intros y [<-|Hy]; auto.
    + replace (qmax a x) with a by (unfold qmax; now rewrite E).
      assert (x <= a) by (apply Qlt_le_weak, Qnot_le_lt; intro C;
        apply Qle_bool_iff in C; congruence).
      destruct (IH a) as [H1 H2]. split; [exact H1|].
      intros y [<-|Hy]; [eapply Qle_trans; eauto | auto].
Qed.

Lemma fold_qmax_le (r : list Q) (a B : Q) :
  a <= B -> (forall y, In y r -> y <= B) -> fold_left qmax r a <= B.
Proof.
  revert a; induction r as [|x r IH]; intros a Ha Hr; cbn [fold_left]; [exact Ha|].
  apply IH; [|intros; apply Hr; now right].
  unfold qmax. destruct (Qle_bool a x); [apply Hr; now left | exact Ha].
Qed.

Lemma fold_qmin_le (r : list Q) (a : Q) :
  fold_left qmin r a <= a /\ forall y, In y r -> fold_left qmin r a <= y.
Proof.
  revert a; induction r as [|x r IH]; intro a; cbn [fold_left In].
  - split; [apply Qle_refl | intros y []].
  - destruct (Qle_bool a x) eqn:E.
    + replace (qmin a x) with a by (unfold qmin; now rewrite E).
      apply Qle_bool_iff in E. destruct (IH a) as [H1 H2].
      split; [exact H1|].
      intros y [<-|Hy]; [eapply Qle_trans; eauto | auto].
    + replace (qmin a x) with x by (unfold qmin; now rewrite E).
      assert (x <= a) by (apply Qlt_le_weak, Qnot_le_lt; intro C;
        apply Qle_bool_iff in C; congruence).
      destruct (IH x) as [H1 H2]. split; [eapply Qle_trans; eauto|].
      intros y [<-|Hy]; auto.
Qed.

Lemma fold_qmin_ge (r : list Q) (a B : Q) :
  B <= a -> (forall y, In y r -> B <= y) -> B <= fold_left qmin r a.
Proof.
  revert a; induction r as [|x r IH]; intros a Ha Hr; cbn [fold_left]; [exact Ha|].
  apply IH; [|intros; apply Hr; now right].
  unfold qmin. destruct (Qle_bool a x); [exact Ha | apply Hr; now left].
Qed.

(** The maximum of a non-empty list is any member bounding all others. *)
Lemma list_max_eq (l : list Q) (M : Q) :
  (exists y, In y l /\ y == M) -> (forall y, In y l -> y <= M) -> list_max l == M.
Proof.
  destruct l as [|x r]; [intros [y [[] _]]|].
  intros [y [Hy HyM]] Hall. cbn [list_max]. apply Qle_antisym.
  - apply fold_qmax_le; [apply Hall; now left | intros; apply Hall; now right].
  - rewrite <- HyM. destruct (fold_qmax_ge r x) as [H1 H2].
    destruct Hy as [<-|Hy]; auto.
Qed.

Lemma list_min_eq (l : list Q) (m : Q) :
  (exists y, In y l /\ y == m) -> (forall y, In y l -> m <= y) -> list_min l == m.
Proof.
  destruct l as [|x r]; [intros [y [[] _]]|].
  intros [y [Hy Hym]] Hall. cbn [list_min]. apply Qle_antisym.
  - rewrite <- Hym. destruct (fold_qmin_le r x) as [H1 H2].
    destruct Hy as [<-|Hy]; auto.
  - apply fold_qmin_ge; [apply Hall; now left | intros; apply Hall; now right].
Qed.

Lemma flatW_eq (W : Q) : flatW W == W + 67.
Proof. unfold flatW, FLANGE, BEND_DEDUCTION. ring. Qed.

Lemma flatH_eq (H : Q) : flatH H == H + 67.
Proof. unfold flatH, FLANGE, BEND_DEDUCTION. ring. Qed.

Lemma notch_eq : notchSize == 137 # 4.
Proof. reflexivity. Qed.

Lemma outline_width (W H : Q) :
  0 <= W -> bbox_width (tray_outline W H) == W + 2 * FLANGE - 2 * BEND_DEDUCTION.
Proof.
  intro HW. unfold bbox_width.
  rewrite (list_max_eq _ (flatW W)), (list_min_eq _ 0).
  - unfold flatW. ring.
  - exists 0. split; [cbn; tauto | apply Qeq_refl].
  - unfold tray_outline; cbn [map fst In].
    intros y Hy. repeat destruct Hy as [<-|Hy]; try destruct Hy;
      rewrite ?flatW_eq, ?notch_eq; qlra.
  - exists (flatW W). split; [cbn; tauto | apply Qeq_refl].
  - unfold tray_outline; cbn [map fst In].
    intros y Hy. repeat destruct Hy as [<-|Hy]; try destruct Hy;
      rewrite ?flatW_eq, ?notch_eq; qlra.
Qed.

Lemma outline_height (W H : Q) :
  0 <= H -> bbox_height (tray_outline W H) == H + 2 * FLANGE - 2 * BEND_DEDUCTION.
Proof.
  intro HH. unfold bbox_height.
  rewrite (list_max_eq _ (flatH H)), (list_min_eq _ 0).
  - unfold flatH. ring.
  - exists 0. split; [cbn; tauto | apply Qeq_refl].
  - unfold tray_outline; cbn [map snd In].
    intros y Hy. repeat destruct Hy as [<-|Hy]; try destruct Hy;
      rewrite ?flatH_eq, ?notch_eq; qlra.
  - exists (flatH H). split; [cbn; tauto | apply Qeq_refl].
  - unfold tray_outline; cbn [map snd In].
    intros y Hy. repeat destruct Hy as [<-|Hy]; try destruct Hy;
      rewrite ?flatH_eq, ?notch_eq; qlra.
Qed.

Lemma hole_positions_length (f : Q) :
  length (hole_positions f) = Z.to_nat (numHoles f).
Proof. unfold hole_positions. now rewrite length_map, length_seq. Qed.

Lemma hole_positions_nth (f : Q) (i : nat) :
  (i < length (hole_positions f))%nat ->
  nth i (hole_positions f) 0
  == notchSize + inject_Z (Z.of_nat (S i))
     * ((f - 2 * notchSize) / inject_Z (Z.of_nat (length (hole_positions f)) + 1)).
Proof.
  intro Hi. assert (Hi' := Hi). rewrite hole_positions_length in Hi' |- *.
  unfold hole_positions. rewrite nth_map_seq by exact Hi'.
  rewrite Z2Nat.id by lia. reflexivity.
Qed.

Lemma hole_positions_spec (f : Q) : hole_pair_spec f (hole_positions f).
Proof.
  split; [|split].
  - rewrite hole_positions_length. unfold numHoles, holeSpacing. lia.
  - exact (hole_positions_nth f).
  - intros i Hi.
    rewrite (hole_positions_nth f i Hi), (hole_positions_nth f (length (hole_positions f) - 1 - i)) by lia.
    set (c := length (hole_positions f)) in *.
    assert (Hc : ~ inject_Z (Z.of_nat c + 1) == 0).
    { intro E. change 0 with (inject_Z 0) in E. apply (proj1 (inject_Z_injective _ _)) in E. lia. }
    assert (E : inject_Z (Z.of_nat (S (c - 1 - i)))
                == inject_Z (Z.of_nat c + 1) - inject_Z (Z.of_nat (S i))).
    { unfold Qminus. rewrite <- inject_Z_opp, <- inject_Z_plus.
      apply inject_Z_injective. lia. }
    rewrite E. unfold notchSize, FLANGE, BEND_DEDUCTION. field. exact Hc.
Qed.

Lemma flat_map_map_fuse {A B C} (f : A -> B) (g : B -> list C) (l : list A) :
  flat_map g (map f l) = flat_map (fun a => g (f a)) l.
Proof. induction l as [|a l IH]; cbn; [reflexivity | now rewrite IH]. Qed.

Lemma rivets_x_holes (W H : Q) :
  rivets_x W H =
  flat_map (fun x => [ECircle x flangeMid (rivetDia / 2) "CUT_INNER" 1;
                      ECircle x (flatH H - flangeMid) (rivetDia / 2) "CUT_INNER" 1])
           (hole_positions (flatW W)).
Proof. unfold rivets_x, hole_positions. now rewrite flat_map_map_fuse. Qed.

Lemma rivets_y_holes (W H : Q) :
  rivets_y W H =
  flat_map (fun y => [ECircle flangeMid y (rivetDia / 2) "CUT_INNER" 1;
                      ECircle (flatW W - flangeMid) y (rivetDia / 2) "CUT_INNER" 1])
           (hole_positions (flatH H)).
Proof. unfold rivets_y, hole_positions. now rewrite flat_map_map_fuse. Qed.

End TrayProofs.

Module TrayClaims.
Import Tray TrayProofs.

(** C2 (as amended): for a tray panel (Notes not containing "flat") with
    finished width [W >= 0] and height [H >= 0], the first entity is the
    closed twelve-vertex notched outer cut, whose bounding width is
    [W + 2 FLANGE - 2 D] and height [H + 2 FLANGE - 2 D]; after the bend
    lines come the rivet holes of the top/bottom pair at positions [xs] and
    of the left/right pair at positions [ys], where each pair has
    [max 0 (floor (usableLength / 150))] holes, at
    [notch + i * usableLength / (count + 1)], mirror-symmetric about the
    middle of the flange. *)
Theorem tray_layout_spec (W H : Q) :
  0 <= W -> 0 <= H ->
  let pts := tray_outline W H in
  let xs := hole_positions (flatW W) in
  let ys := hole_positions (flatH H) in
  tray_entities W H =
    EPolyline pts "CUT_OUTER" 7 true :: tray_bends W H
    ++ flat_map (fun x => [ECircle x flangeMid (rivetDia / 2) "CUT_INNER" 1;
                           ECircle x (flatH H - flangeMid) (rivetDia / 2) "CUT_INNER" 1]) xs
    ++ flat_map (fun y => [ECircle flangeMid y (rivetDia / 2) "CUT_INNER" 1;
                           ECircle (flatW W - flangeMid) y (rivetDia / 2) "CUT_INNER" 1]) ys
  /\ length pts = 12%nat
  /\ bbox_width pts == W + 2 * FLANGE - 2 * BEND_DEDUCTION
  /\ bbox_height pts == H + 2 * FLANGE - 2 * BEND_DEDUCTION
  /\ hole_pair_spec (flatW W) xs
  /\ hole_pair_spec (flatH H) ys.
Proof.
  intros HW HH pts xs ys.
  split; [|split; [reflexivity|split; [|split; [|split]]]].
  - unfold tray_entities. now rewrite rivets_x_holes, rivets_y_holes.
  - now apply outline_width.
  - now apply outline_height.
  - apply hole_positions_spec.
  - apply hole_positions_spec.
Qed.

Lemma tray_layout_spec_witness :
  0 <= 300 /\ 0 <= 200 /\ length (hole_positions (flatW 300)) = 1%nat
  /\ bbox_width (tray_outline 300 200) == 367.
Proof.
  destruct (tray_layout_spec 300 200 ltac:(vm_compute; discriminate)
              ltac:(vm_compute; discriminate))
    as (_ & _ & Hw & _ & _ & _).
  split; [vm_compute; discriminate|].
  split; [vm_compute; discriminate|].
  split; [vm_compute; reflexivity|].
  rewrite Hw. reflexivity.
Defined.

(** C2, counterexample: for a 1 x 1 tray the usable flange length is
    [-0.5], [floor (-0.5 / 150) = -1], and the loop places no hole. *)
Lemma tray_hole_count_not_floor :
  rivets_x 1 1 = []
  /\ Z.of_nat (length (hole_positions (flatW 1)))
     <> Qfloor ((flatW 1 - 2 * notchSize) / holeSpacing).
Proof. split; vm_compute; [reflexivity | discriminate]. Qed.

End TrayClaims.

(* ================================================================== *)
(** ** Proofs: hole remapping *)

Module PartsProofs.
Import Parts.

Lemma iter_shift_comm (k : nat) (hl : hole) :
  Nat.iter k shift_hole (shift_hole hl) = Nat.iter (S k) shift_hole hl.
Proof. symmetry. apply Nat.iter_succ_r. Qed.

Lemma iter_add (a b : nat) (hl : hole) :
  Nat.iter a shift_hole (Nat.iter b shift_hole hl) = Nat.iter (a + b) shift_hole hl.
Proof. symmetry. apply Nat.iter_add. Qed.

Lemma remap_holes_count (hs : list loc) (h : store) (l : loc) :
  remap_holes hs h l = Nat.iter (count_occ Nat.eq_dec hs l) shift_hole (h l).
Proof.
  unfold remap_holes. revert h.
  induction hs as [|a hs IH]; intro h; cbn [fold_left count_occ]; [reflexivity|].
  rewrite IH. unfold store_upd.
  destruct (Nat.eq_dec a l) as [<-|Hne].
  - rewrite Nat.eqb_refl. apply iter_shift_comm.
  - apply Nat.eqb_neq in Hne. now rewrite Hne.
Qed.

Lemma panel_effect_count (p : part) (h : store) (l : loc) :
  panel_effect h p l
  = Nat.iter (count_occ Nat.eq_dec
                (if isTray p then match Holes p with Some hs => hs | None => [] end
                 else []) l) shift_hole (h l).
Proof.
  unfold panel_effect. destruct (isTray p); [|reflexivity].
  destruct (Holes p) as [hs|]; [apply remap_holes_count | reflexivity].
Qed.

Lemma fold_panel_effect_count (ps : list part) (h : store) (l : loc) :
  fold_left panel_effect ps h l
  = Nat.iter (count_occ Nat.eq_dec
                (flat_map (fun p => if isTray p then
                                      match Holes p with Some hs => hs | None => [] end
                                    else []) ps) l) shift_hole (h l).
Proof.
  revert h. induction ps as [|p ps IH]; intro h; [reflexivity|].
  cbn [fold_left flat_map]. rewrite IH, count_occ_app, panel_effect_count.
  rewrite iter_add. f_equal. apply Nat.add_comm.
Qed.

Lemma iter_shift_fields (k : nat) (hl : hole) :
  Shape (Nat.iter k shift_hole hl) = Shape hl
  /\ W_or_Dia (Nat.iter k shift_hole hl) = W_or_Dia hl
  /\ Hh (Nat.iter k shift_hole hl) = Hh hl
  /\ X (Nat.iter k shift_hole hl) == X hl + inject_Z (Z.of_nat k) * Tray.notchSize
  /\ Y (Nat.iter k shift_hole hl) == Y hl + inject_Z (Z.of_nat k) * Tray.notchSize.
Proof.
  induction k as [|k (IH1 & IH2 & IH3 & IH4 & IH5)].
  - cbn. repeat split; ring.
  - rewrite Nat.iter_succ. cbn [shift_hole Shape W_or_Dia Hh X Y].
    repeat split; try assumption.
    + rewrite IH4, Nat2Z.inj_succ. unfold Z.succ. rewrite inject_Z_plus. ring.
    + rewrite IH5, Nat2Z.inj_succ. unfold Z.succ. rewrite inject_Z_plus. ring.
Qed.

End PartsProofs.

Module PartsClaims.
Import Parts PartsProofs.

(** C9 (as amended): [generateFabricationFiles] changes no part record;
    in the store of [Hole] objects, a hole's [X] and [Y] grow by
    [notchSize = 34.25] once per reference to it from a tray panel's
    [Holes] list, and its other fields never change.  A hole referenced
    once (no sharing) is therefore shifted exactly once, and holes of flat
    panels and profiles (zero tray references) are untouched. *)
Theorem generate_effect_holes (parts : list part) (h : store) (l : loc) :
  let k := count_occ Nat.eq_dec (tray_hole_refs parts) l in
  let h' := generate_effect parts h in
  Shape (h' l) = Shape (h l)
  /\ W_or_Dia (h' l) = W_or_Dia (h l)
  /\ Hh (h' l) = Hh (h l)
  /\ X (h' l) == X (h l) + inject_Z (Z.of_nat k) * Tray.notchSize
  /\ Y (h' l) == Y (h l) + inject_Z (Z.of_nat k) * Tray.notchSize.
Proof.
  intros k h'. subst h' k. unfold generate_effect, tray_hole_refs.
  rewrite fold_panel_effect_count. apply iter_shift_fields.
Qed.

(** C9, counterexample: two tray panels whose [Holes] arrays hold the same
    [Hole] object; that hole is moved by [2 * 34.25 = 68.5]. *)
Lemma generate_effect_shared_hole_twice :
  X (generate_effect shared_hole_parts shared_hole_store 0%nat) == 337 # 2
  /\ ~ (X (generate_effect shared_hole_parts shared_hole_store 0%nat)
        == X (shared_hole_store 0%nat) + Tray.notchSize).
Proof. split; vm_compute; [reflexivity | discriminate]. Qed.

End PartsClaims.

(* ================================================================== *)
(** ** Proofs: rendering *)

Module WriterProofs.
Import Js Writer.

Lemma string_append_assoc (a b c : string) :
  (a ++ (b ++ c) = (a ++ b) ++ c)%string.
Proof. induction a as [|x a IH]; cbn; [reflexivity | now rewrite IH]. Qed.

Lemma join_nl_app (l1 l2 : list string) :
  l1 <> [] -> l2 <> [] ->
  join_nl (l1 ++ l2) = (join_nl l1 ++ String newline (join_nl l2))%string.
Proof.
  intros H1 H2. induction l1 as [|x l1 IH]; [congruence|].
  destruct l1 as [|y l1].
  - cbn [app]. destruct l2; [congruence | reflexivity].
  - change ((x :: y :: l1) ++ l2) with (x :: ((y :: l1) ++ l2)).
    cbn [join_nl]. fold (join_nl ((y :: l1) ++ l2)). fold (join_nl (y :: l1)).
    rewrite IH by discriminate. now rewrite <- string_append_assoc.
Qed.

Lemma string_length_append (a b : string) :
  String.length (a ++ b) = (String.length a + String.length b)%nat.
Proof. induction a as [|c a IH]; cbn; [reflexivity | now rewrite IH]. Qed.

End WriterProofs.

Module WriterClaims.
Import Js Writer WriterProofs.

(** C4 (as amended): [toString] pushes the ENDSEC/EOF footer into the
    writer before joining, so rendering the same writer a second time
    returns the first output followed by a newline and a second footer
    "0 ENDSEC 0 EOF"; the two outputs always differ. *)
Theorem toString_twice (w : writer) :
  fst (toString (snd (toString w)))
  = (fst (toString w) ++ String newline (join_nl footer_lines))%string
  /\ fst (toString (snd (toString w))) <> fst (toString w).
Proof.
  assert (Heq : fst (toString (snd (toString w)))
                = (fst (toString w) ++ String newline (join_nl footer_lines))%string).
  { cbn [toString fst snd push content].
    rewrite <- app_assoc.
    rewrite (app_assoc (content w) footer_lines footer_lines).
    apply join_nl_app; [destruct (content w); discriminate | discriminate]. }
  split; [exact Heq|].
  rewrite Heq. intro E. apply (f_equal String.length) in E.
  rewrite string_length_append in E. cbn [String.length] in E. lia.
Qed.

(** C4, counterexample: two renders of a fresh writer differ. *)
Lemma toString_twice_differs :
  fst (toString (snd (toString new_writer))) <> fst (toString new_writer).
Proof.
  intro E. apply (f_equal String.length) in E. vm_compute in E. discriminate E.
Qed.

End WriterClaims.

(* ================================================================== *)
(** ** Proofs: the parser's loops always advance *)

Module ParserProofs.
Import Js Parser.
Local Open Scope string_scope.

Lemma next_length l p r : next l = Some (p, r) -> (length r < length l)%nat.
Proof.
  destruct l as [|c [|v t]]; cbn; intro H; inversion H; subst; cbn; lia.
Qed.

Lemma fields_loop_length {A} (upd : jsnum -> option string -> A -> A) :
  forall n l a, (length l <= n)%nat ->
  (length (snd (fields_loop upd l a)) <= length l)%nat.
Proof.
  induction n as [|n IH]; intros l a Hl.
  - destruct l; [cbn; lia | cbn in Hl; lia].
  - destruct l as [|c [|v r]]; cbn [fields_loop].
    + cbn; lia.
    + destruct (js_eqb (parseInt c) (JFin 0)); cbn; lia.
    + destruct (js_eqb (parseInt c) (JFin 0)); [cbn; lia|].
      cbn in Hl. specialize (IH r (upd (parseInt c) (Some v) a) ltac:(lia)).
      cbn. lia.
Qed.

Lemma fields_loop_le {A} (upd : jsnum -> option string -> A -> A) l a :
  (length (snd (fields_loop upd l a)) <= length l)%nat.
Proof. now apply (fields_loop_length upd (length l)). Qed.

Lemma vertex_loop_some :
  forall f rest o st, (length rest < f)%nat ->
  exists o' st' r', vertex_loop f rest o st = Some (o', st', r')
                    /\ (length r' <= length rest)%nat.
Proof.
  induction f as [|f IH]; intros rest o st Hf; [lia|].
  cbn [vertex_loop].
  destruct (next rest) as [[[code v] rest1]|] eqn:En.
  - pose proof (next_length _ _ _ En) as Hn.
    destruct (opt_eqb v "SEQEND"); [eexists _, _, _; split; [reflexivity | lia]|].
    destruct (opt_eqb v "VERTEX").
    + destruct (fields_loop vertex_upd rest1 (JFin 0, JFin 0)) as [[vx vy] rest2] eqn:Ef.
      pose proof (fields_loop_le vertex_upd rest1 (JFin 0, JFin 0)) as Hl.
      rewrite Ef in Hl. cbn [snd] in Hl.
      destruct (IH rest2 (poly_add_point o (vx, vy)) (upd_st st vx vy) ltac:(lia))
        as (o' & st' & r' & E & Hr).
      exists o', st', r'. split; [exact E | lia].
    + destruct (IH rest1 o st ltac:(lia)) as (o' & st' & r' & E & Hr).
      exists o', st', r'. split; [exact E | lia].
  - eexists _, _, _. split; [reflexivity | lia].
Qed.

Lemma dispatch_progress st code v rest :
  dispatch st code v rest <> ROutOfFuel
  /\ (forall st' r', dispatch st code v rest = RDone (st', r') ->
                     (length r' <= length rest)%nat).
Proof.
  unfold dispatch.
  set (st0 := if js_eqb code (JFin 0) && opt_eqb v "ENDSEC" then set_in st false else st).
  destruct (inEntities st0 && js_eqb code (JFin 0));
    [| split; [discriminate | intros ? ? E; inversion E; lia]].
  destruct (opt_eqb v "LINE").
  { pose proof (fields_loop_le line_upd rest
      (mk_line (Some "0") (JFin 7) (JFin 0) (JFin 0) (JFin 0) (JFin 0))) as H.
    destruct (fields_loop line_upd rest _) as [o r'].
    split; [discriminate | intros ? ? E; inversion E; subst; exact H]. }
  destruct (opt_eqb v "CIRCLE").
  { pose proof (fields_loop_le circle_upd rest
      (mk_circle (Some "0") (JFin 7) (JFin 0) (JFin 0) (JFin 0))) as H.
    destruct (fields_loop circle_upd rest _) as [o r'].
    split; [discriminate | intros ? ? E; inversion E; subst; exact H]. }
  destruct (opt_eqb v "TEXT").
  { pose proof (fields_loop_le text_upd rest
      (mk_text (Some "0") (JFin 7) (JFin 0) (JFin 0) (JFin 10) (Some ""))) as H.
    destruct (fields_loop text_upd rest _) as [o r'].
    destruct (t_text o);
      split; try discriminate; intros ? ? E; inversion E; subst; exact H. }
  destruct (opt_eqb v "POLYLINE").
  { pose proof (fields_loop_le poly_upd rest (mk_poly (Some "0") (JFin 7) [] false)) as H.
    destruct (fields_loop poly_upd rest _) as [o r']. cbn [snd] in H.
    destruct (vertex_loop_some (S (length r')) r' o st0 ltac:(lia))
      as (o' & st' & r'' & E & Hr).
    rewrite E.
    split; [discriminate | intros ? ? E'; inversion E'; subst; lia]. }
  split; [discriminate | intros ? ? E; inversion E; lia].
Qed.

Lemma main_loop_fuel :
  forall f1 f2 st l, (length l < f1)%nat -> (length l < f2)%nat ->
  main_loop f1 st l = main_loop f2 st l /\ main_loop f1 st l <> ROutOfFuel.
Proof.
  induction f1 as [|f1 IH]; intros f2 st l H1 H2; [lia|].
  destruct f2 as [|f2]; [lia|].
  cbn [main_loop].
  destruct (next l) as [[[code v] rest1]|] eqn:En; [|split; [reflexivity | discriminate]].
  pose proof (next_length _ _ _ En) as Hn.
  assert (Hd : forall r, (length r <= length rest1)%nat ->
      (p <- dispatch st code v r ;; main_loop f1 (fst p) (snd p))
      = (p <- dispatch st code v r ;; main_loop f2 (fst p) (snd p))
      /\ (p <- dispatch st code v r ;; main_loop f1 (fst p) (snd p)) <> ROutOfFuel).
  { intros r Hr. destruct (dispatch_progress st code v r) as [Hnf Hlen].
    destruct (dispatch st code v r) as [[st' r']| |] eqn:Ed; cbn [res_bind fst snd].
    - specialize (Hlen st' r' eq_refl). apply IH; lia.
    - split; [reflexivity | discriminate].
    - congruence. }
  destruct (js_eqb code (JFin 0) && opt_eqb v "SECTION").
  - destruct (next rest1) as [[[c2 v2] rest2]|] eqn:En2.
    + pose proof (next_length _ _ _ En2).
      destruct (js_eqb c2 (JFin 2) && opt_eqb v2 "ENTITIES").
      * apply IH; lia.
      * apply Hd; lia.
    + apply Hd; lia.
  - apply Hd; lia.
Qed.

Lemma run_loop_fuel f st l :
  (length l < f)%nat -> main_loop f st l = run_loop st l.
Proof. intro H. apply main_loop_fuel; [exact H | unfold run_loop; lia]. Qed.

Lemma run_loop_terminates st l : run_loop st l <> ROutOfFuel.
Proof. apply (main_loop_fuel (S (length l)) (S (length l))); lia. Qed.

(** One iteration of the main loop, at the level of [run_loop]. *)
Lemma run_loop_step st l :
  run_loop st l =
  match next l with
  | None => RDone st
  | Some ((code, v), rest1) =>
      if js_eqb code (JFin 0) && opt_eqb v "SECTION" then
        match next rest1 with
        | Some ((c2, v2), rest2) =>
            if js_eqb c2 (JFin 2) && opt_eqb v2 "ENTITIES" then
              run_loop (set_in st true) rest2
            else p <- dispatch st code v rest2 ;; run_loop (fst p) (snd p)
        | None => p <- dispatch st code v rest1 ;; run_loop (fst p) (snd p)
        end
      else p <- dispatch st code v rest1 ;; run_loop (fst p) (snd p)
  end.
Proof.
  unfold run_loop at 1. cbn [main_loop].
  destruct (next l) as [[[code v] rest1]|] eqn:En; [|reflexivity].
  pose proof (next_length _ _ _ En) as Hn.
  assert (Hd : forall r, (length r <= length rest1)%nat ->
      (p <- dispatch st code v r ;; main_loop (length l) (fst p) (snd p))
      = (p <- dispatch st code v r ;; run_loop (fst p) (snd p))).
  { intros r Hr. destruct (dispatch_progress st code v r) as [_ Hlen].
    destruct (dispatch st code v r) as [[st' r']| |]; cbn [res_bind fst snd];
      [|reflexivity|reflexivity].
    specialize (Hlen st' r' eq_refl). apply run_loop_fuel; lia. }
  destruct (js_eqb code (JFin 0) && opt_eqb v "SECTION").
  - destruct (next rest1) as [[[c2 v2] rest2]|] eqn:En2.
    + pose proof (next_length _ _ _ En2).
      destruct (js_eqb c2 (JFin 2) && opt_eqb v2 "ENTITIES").
      * apply run_loop_fuel; lia.
      * apply Hd; lia.
    + apply Hd; lia.
  - apply Hd; lia.
Qed.

Lemma uof_refl st : unchanged_or_fed st st.
Proof. now left. Qed.

Lemma uof_trans a b c :
  unchanged_or_fed a b -> unchanged_or_fed b c -> unchanged_or_fed a c.
Proof.
  intros [[F1 B1]|N1] [[F2 B2]|N2].
  - left. split; congruence.
  - now right.
  - right. congruence.
  - now right.
Qed.

Lemma uof_upd a b x y : unchanged_or_fed a (upd_st b x y).
Proof. right. cbn. destruct (fed b); discriminate. Qed.

Lemma uof_add a b e : unchanged_or_fed a b -> unchanged_or_fed a (add_entity b e).
Proof. intros [[F B]|N]; [left | right]; cbn; auto. Qed.

Lemma uof_set a b x : unchanged_or_fed a b -> unchanged_or_fed a (set_in b x).
Proof. intros [[F B]|N]; [left | right]; cbn; auto. Qed.

Lemma vertex_loop_uof :
  forall f rest o st o' st' r, vertex_loop f rest o st = Some (o', st', r) ->
  unchanged_or_fed st st'.
Proof.
  induction f as [|f IH]; intros rest o st o' st' r E; [discriminate|].
  cbn [vertex_loop] in E.
  destruct (next rest) as [[[code v] rest1]|];
    [| inversion E; subst; apply uof_refl].
  destruct (opt_eqb v "SEQEND"); [inversion E; subst; apply uof_refl|].
  destruct (opt_eqb v "VERTEX").
  - destruct (fields_loop vertex_upd rest1 (JFin 0, JFin 0)) as [[vx vy] rest2].
    apply IH in E. eapply uof_trans; [apply uof_upd | exact E].
  - eapply IH; exact E.
Qed.

Lemma dispatch_uof st code v rest st' r :
  dispatch st code v rest = RDone (st', r) -> unchanged_or_fed st st'.
Proof.
  unfold dispatch.
  set (st0 := if js_eqb code (JFin 0) && opt_eqb v "ENDSEC" then set_in st false else st).
  assert (H0 : unchanged_or_fed st st0).
  { unfold st0. destruct (_ && _); [apply uof_set|]; apply uof_refl. }
  clearbody st0.
  destruct (inEntities st0 && js_eqb code (JFin 0)); [|intro E; inversion E; subst; exact H0].
  destruct (opt_eqb v "LINE").
  { destruct (fields_loop line_upd rest _) as [o r'].
    intro E; inversion E; subst. apply uof_add, uof_upd. }
  destruct (opt_eqb v "CIRCLE").
  { destruct (fields_loop circle_upd rest _) as [o r'].
    intro E; inversion E; subst. apply uof_add, uof_upd. }
  destruct (opt_eqb v "TEXT").
  { destruct (fields_loop text_upd rest _) as [o r'].
    destruct (t_text o); intro E; inversion E; subst. apply uof_add, uof_upd. }
  destruct (opt_eqb v "POLYLINE").
  { destruct (fields_loop poly_upd rest _) as [o r'].
    destruct (vertex_loop _ r' o st0) as [[[o' st''] r'']|] eqn:Ev; intro E; inversion E; subst.
    apply uof_add. eapply uof_trans; [exact H0 | eapply vertex_loop_uof; exact Ev]. }
  intro E; inversion E; subst; exact H0.
Qed.

Lemma main_loop_uof :
  forall f st l st', main_loop f st l = RDone st' -> unchanged_or_fed st st'.
Proof.
  induction f as [|f IH]; intros st l st' E; [discriminate|].
  cbn [main_loop] in E.
  destruct (next l) as [[[code v] rest1]|]; [|inversion E; subst; apply uof_refl].
  assert (Hd : forall r, (p <- dispatch st code v r ;; main_loop f (fst p) (snd p)) = RDone st' ->
                         unchanged_or_fed st st').
  { intros r Er. destruct (dispatch st code v r) as [[st1 r1]| |] eqn:Ed; try discriminate.
    cbn [res_bind fst snd] in Er.
    eapply uof_trans; [eapply dispatch_uof; exact Ed | eapply IH; exact Er]. }
  destruct (js_eqb code (JFin 0) && opt_eqb v "SECTION"); [|exact (Hd _ E)].
  destruct (next rest1) as [[[c2 v2] rest2]|]; [|exact (Hd _ E)].
  destruct (js_eqb c2 (JFin 2) && opt_eqb v2 "ENTITIES"); [|exact (Hd _ E)].
  eapply uof_trans; [apply uof_set, uof_refl | eapply IH; exact E].
Qed.

(** Reading a truncated or malformed input never stops the loops early:
    with an even number of lines every value line is present, so no
    [TEXT] record is left without its text. *)
Lemma fields_loop_even {A} (upd : jsnum -> option string -> A -> A) (P : A -> Prop) :
  (forall c v a, P a -> P (upd c (Some v) a)) ->
  forall n l a, (length l <= n)%nat -> Nat.even (length l) = true -> P a ->
  P (fst (fields_loop upd l a)) /\ Nat.even (length (snd (fields_loop upd l a))) = true.
Proof.
  intros Hu. induction n as [|n IH]; intros l a Hl He Ha.
  - destruct l; [cbn; auto | cbn in Hl; lia].
  - destruct l as [|c [|v r]]; cbn [fields_loop].
    + cbn; auto.
    + discriminate He.
    + destruct (js_eqb (parseInt c) (JFin 0)); [cbn; auto|].
      cbn in Hl, He. apply IH; [lia | exact He | apply Hu, Ha].
Qed.

Lemma next_even l code v r :
  next l = Some ((code, v), r) -> Nat.even (length l) = true ->
  v <> None /\ Nat.even (length r) = true.
Proof.
  destruct l as [|c [|v' t]]; cbn; intros E He; try discriminate.
  inversion E; subst. split; [discriminate | exact He].
Qed.

Lemma vertex_loop_even :
  forall f rest o st, (length rest < f)%nat -> Nat.even (length rest) = true ->
  exists o' st' r', vertex_loop f rest o st = Some (o', st', r')
                    /\ Nat.even (length r') = true.
Proof.
  induction f as [|f IH]; intros rest o st Hf He; [lia|].
  cbn [vertex_loop].
  destruct (next rest) as [[[code v] rest1]|] eqn:En; [|eexists _, _, _; split; [reflexivity | exact He]].
  pose proof (next_length _ _ _ En) as Hn.
  destruct (next_even _ _ _ _ En He) as [_ He1].
  destruct (opt_eqb v "SEQEND"); [eexists _, _, _; split; [reflexivity | exact He1]|].
  destruct (opt_eqb v "VERTEX").
  - pose proof (fields_loop_le vertex_upd rest1 (JFin 0, JFin 0)) as Hl.
    destruct (fields_loop_even vertex_upd (fun _ => True) ltac:(auto)
                (length rest1) rest1 (JFin 0, JFin 0) ltac:(lia) He1 I) as [_ He2].
    destruct (fields_loop vertex_upd rest1 (JFin 0, JFin 0)) as [[vx vy] rest2].
    cbn [snd] in Hl, He2. now apply IH; [lia|].
  - now apply IH; [lia|].
Qed.

Lemma dispatch_even st code v rest :
  Nat.even (length rest) = true ->
  exists st' r', dispatch st code v rest = RDone (st', r') /\ Nat.even (length r') = true.
Proof.
  intro He. unfold dispatch.
  set (st0 := if js_eqb code (JFin 0) && opt_eqb v "ENDSEC" then set_in st false else st).
  destruct (inEntities st0 && js_eqb code (JFin 0)); [|eexists _, _; split; [reflexivity | exact He]].
  destruct (opt_eqb v "LINE").
  { destruct (fields_loop_even line_upd (fun _ => True) ltac:(auto) (length rest) rest
      (mk_line (Some "0") (JFin 7) (JFin 0) (JFin 0) (JFin 0) (JFin 0)) ltac:(lia) He I) as [_ H].
    destruct (fields_loop line_upd rest _) as [o r']. eexists _, _; split; [reflexivity | exact H]. }
  destruct (opt_eqb v "CIRCLE").
  { destruct (fields_loop_even circle_upd (fun _ => True) ltac:(auto) (length rest) rest
      (mk_circle (Some "0") (JFin 7) (JFin 0) (JFin 0) (JFin 0)) ltac:(lia) He I) as [_ H].
    destruct (fields_loop circle_upd rest _) as [o r']. eexists _, _; split; [reflexivity | exact H]. }
  destruct (opt_eqb v "TEXT").
  { assert (Hu : forall c v' a, t_text a <> None -> t_text (text_upd c (Some v') a) <> None).
    { intros c v' a Ha. unfold text_upd.
      destruct (js_eqb c (JFin 8)), (js_eqb c (JFin 62)), (js_eqb c (JFin 10)),
        (js_eqb c (JFin 20)), (js_eqb c (JFin 40)), (js_eqb c (JFin 1));
        cbn; first [exact Ha | discriminate]. }
    destruct (fields_loop_even text_upd (fun o => t_text o <> None) Hu (length rest) rest
      (mk_text (Some "0") (JFin 7) (JFin 0) (JFin 0) (JFin 10) (Some "")) ltac:(lia) He
      ltac:(discriminate)) as [Ht H].
    destruct (fields_loop text_upd rest _) as [o r']. cbn [fst snd] in Ht, H.
    destruct (t_text o) as [t|]; [|congruence].
    eexists _, _; split; [reflexivity | exact H]. }
  destruct (opt_eqb v "POLYLINE").
  { pose proof (fields_loop_le poly_upd rest (mk_poly (Some "0") (JFin 7) [] false)) as Hl.
    destruct (fields_loop_even poly_upd (fun _ => True) ltac:(auto) (length rest) rest
      (mk_poly (Some "0") (JFin 7) [] false) ltac:(lia) He I) as [_ H].
    destruct (fields_loop poly_upd rest _) as [o r']. cbn [snd] in Hl, H.
    destruct (vertex_loop_even (S (length r')) r' o st0 ltac:(lia) H) as (o' & st' & r'' & E & H').
    rewrite E. eexists _, _; split; [reflexivity | exact H']. }
  eexists _, _; split; [reflexivity | exact He].
Qed.

Lemma main_loop_even :
  forall f st l, (length l < f)%nat -> Nat.even (length l) = true ->
  exists st', main_loop f st l = RDone st'.
Proof.
  induction f as [|f IH]; intros st l Hf He; [lia|].
  cbn [main_loop].
  destruct (next l) as [[[code v] rest1]|] eqn:En; [|eexists; reflexivity].
  pose proof (next_length _ _ _ En) as Hn.
  destruct (next_even _ _ _ _ En He) as [_ He1].
  assert (Hd : forall r, (length r <= length rest1)%nat -> Nat.even (length r) = true ->
      exists st', (p <- dispatch st code v r ;; main_loop f (fst p) (snd p)) = RDone st').
  { intros r Hr Her. destruct (dispatch_progress st code v r) as [_ Hlen].
    destruct (dispatch_even st code v r Her) as (st1 & r1 & Ed & He2).
    rewrite Ed. cbn [res_bind fst snd]. specialize (Hlen _ _ Ed). apply IH; [lia | exact He2]. }
  destruct (js_eqb code (JFin 0) && opt_eqb v "SECTION"); [|now apply Hd].
  destruct (next rest1) as [[[c2 v2] rest2]|] eqn:En2; [|now apply Hd].
  pose proof (next_length _ _ _ En2).
  destruct (next_even _ _ _ _ En2 He1) as [_ He2].
  destruct (js_eqb c2 (JFin 2) && opt_eqb v2 "ENTITIES"); [apply IH; [lia | exact He2]|].
  apply Hd; [lia | exact He2].
Qed.

End ParserProofs.

Module ParserClaims.
Import Js Writer Parser ParserProofs.
Local Open Scope string_scope.

(** C7: when no recognised entity feeds any coordinate to [updateBounds]
    (the record [fed] of the result is empty), [parseDxf] returns exactly
    the fallback bounds minX = 0, minY = 0, maxX = 100, maxY = 100. *)
Theorem parseDxf_no_coordinates_bounds (content : string) (r : parse_result) :
  parseDxf content = RDone r -> r_fed r = [] ->
  r_bounds r = mk_bounds (JFin 0) (JFin 0) (JFin 100) (JFin 100).
Proof.
  unfold parseDxf.
  destruct (main_loop _ init_state (dxf_lines content)) as [st| |] eqn:E;
    cbn [res_bind]; intro H; inversion H; subst; clear H; cbn [r_fed r_bounds].
  intro Hf.
  destruct (main_loop_uof _ _ _ _ E) as [[_ B]|N]; [|contradiction].
  rewrite B. reflexivity.
Qed.

Lemma parseDxf_no_coordinates_bounds_witness :
  parseDxf (fst (toString new_writer))
    = RDone (mk_result [] (mk_bounds (JFin 0) (JFin 0) (JFin 100) (JFin 100)) [])
  /\ r_bounds (mk_result [] (mk_bounds (JFin 0) (JFin 0) (JFin 100) (JFin 100)) [])
     = mk_bounds (JFin 0) (JFin 0) (JFin 100) (JFin 100).
Proof.
  assert (E : parseDxf (fst (toString new_writer))
    = RDone (mk_result [] (mk_bounds (JFin 0) (JFin 0) (JFin 100) (JFin 100)) []))
    by (vm_compute; reflexivity).
  split; [exact E|].
  exact (parseDxf_no_coordinates_bounds _ _ E eq_refl).
Defined.

(** C10, failing input: a TEXT record whose last code line has no value
    line (an input of seven lines) makes [text.text!.length] read the
    length of [undefined], so [parseDxf] throws a TypeError. *)
Lemma parseDxf_truncated_text_throws :
  parseDxf (join_nl ["0"; "SECTION"; "2"; "ENTITIES"; "0"; "TEXT"; "1"]) = RTypeError.
Proof. vm_compute. reflexivity. Qed.

(** [parseDxf] always terminates (its loops never exhaust a fuel of one
    step per line), and an input with an even number of lines is always
    parsed without an exception. *)
Theorem parseDxf_terminates_even_done (content : string) :
  parseDxf content <> ROutOfFuel
  /\ (Nat.even (length (dxf_lines content)) = true ->
      exists r, parseDxf content = RDone r).
Proof.
  unfold parseDxf. split.
  - pose proof (run_loop_terminates init_state (dxf_lines content)) as H.
    unfold run_loop in H.
    destruct (main_loop _ init_state (dxf_lines content)); cbn [res_bind]; congruence.
  - intro He.
    destruct (main_loop_even (S (length (dxf_lines content))) init_state
                (dxf_lines content) ltac:(lia) He) as [st E].
    rewrite E. cbn [res_bind]. eexists; reflexivity.
Qed.

End ParserClaims.

Module SkipProofs.
Import Js Parser ParserProofs.
Local Open Scope string_scope.

Lemma run_loop_skip_pair st c v r :
  js_eqb (parseInt c) (JFin 0) = false ->
  run_loop st (c :: v :: r) = run_loop st r.
Proof.
  intro Hc. rewrite run_loop_step. cbn [next hd_error]. rewrite Hc. cbn [andb].
  unfold dispatch. rewrite Hc. cbn [andb]. rewrite andb_false_r. reflexivity.
Qed.

Lemma run_loop_skip_fields :
  forall n st l rest, (length l <= n)%nat -> nonzero_pairs l = true ->
  run_loop st (l ++ rest) = run_loop st rest.
Proof.
  induction n as [|n IH]; intros st l rest Hl Hz.
  - destruct l; [reflexivity | cbn in Hl; lia].
  - destruct l as [|c [|v r]]; [reflexivity | discriminate |].
    cbn [nonzero_pairs] in Hz. apply andb_prop in Hz as [Hc Hz].
    apply negb_true_iff in Hc. cbn [app].
    rewrite run_loop_skip_pair by exact Hc.
    apply IH; [cbn in Hl; lia | exact Hz].
Qed.

End SkipProofs.

Module SkipClaims.
Import Js Parser ParserProofs SkipProofs.
Local Open Scope string_scope.

(** C8: inside the ENTITIES section, a record of any entity type other
    than LINE, CIRCLE, TEXT and POLYLINE (and other than the section
    markers SECTION and ENDSEC), followed by field pairs whose code lines
    do not parse to 0, is skipped without any effect: the main loop then
    behaves exactly as on the input with that record removed, so it adds
    no entity for it, fails no more than without it, and parses every
    following entity as before. *)
Theorem parseDxf_skips_unknown_record (st : pstate) (ty : string)
    (fields rest : list string) :
  inEntities st = true ->
  existsb (String.eqb ty) ["LINE"; "CIRCLE"; "TEXT"; "POLYLINE"; "SECTION"; "ENDSEC"] = false ->
  nonzero_pairs fields = true ->
  run_loop st ("0" :: ty :: fields ++ rest) = run_loop st rest.
Proof.
  intros Hin Hty Hz.
  cbn [existsb] in Hty.
  repeat (apply orb_false_elim in Hty as [? Hty]).
  rewrite run_loop_step. cbn [next hd_error].
  change (parseInt "0") with (JFin 0). cbn [js_eqb opt_eqb Qeq_bool andb].
  replace (Qeq_bool 0 0) with true by reflexivity.
  cbn [andb].
  match goal with H : String.eqb ty "SECTION" = false |- _ => rewrite H end.
  unfold dispatch. cbn [js_eqb opt_eqb].
  replace (Qeq_bool 0 0) with true by reflexivity. cbn [andb].
  match goal with H : String.eqb ty "ENDSEC" = false |- _ => rewrite H end.
  rewrite Hin. cbn [andb].
  repeat match goal with H : String.eqb ty _ = false |- _ => rewrite H; clear H end.
  cbn [res_bind fst snd].
  now apply (run_loop_skip_fields (length fields)).
Qed.

Lemma parseDxf_skips_unknown_record_witness :
  run_loop (set_in init_state true) ("0" :: "ARC" :: ["10"; "1.0"; "40"; "5.0"] ++ [])
  = run_loop (set_in init_state true) [].
Proof.
  apply parseDxf_skips_unknown_record; reflexivity.
Defined.

End SkipClaims.

(* ================================================================== *)
(** ** Proofs: dimensions *)

Module DimProofs.
Import Writer Dim.
Local Open Scope R_scope.

Lemma atan_nonpos z : z <= 0 -> atan z <= 0.
Proof.
  intro H. destruct (Req_dec z 0) as [->|Hz]; [rewrite atan_0; rlra|].
  left. rewrite <- atan_0. apply atan_increasing. rlra.
Qed.

Lemma atan_pos z : 0 < z -> 0 < atan z.
Proof. intro H. rewrite <- atan_0. now apply atan_increasing. Qed.

Lemma atan2_range y x : - PI < atan2 y x <= PI.
Proof.
  pose proof PI_RGT_0 as Hpi.
  pose proof (atan_bound (y / x)) as [Ha Hb].
  unfold atan2.
  destruct (Rlt_dec 0 x) as [Hx|Hx]; [split; rlra|].
  destruct (Rlt_dec x 0) as [Hx'|Hx'].
  - destruct (Rle_dec 0 y) as [Hy|Hy].
    + assert (Hz : y / x <= 0).
      { assert (E : y / x * x = y) by (field; rlra). rnra. }
      pose proof (atan_nonpos _ Hz). split; rlra.
    + assert (Hz : 0 < y / x).
      { assert (E : y / x * x = y) by (field; rlra). rnra. }
      pose proof (atan_pos _ Hz). split; rlra.
  - destruct (Rlt_dec 0 y); [split; rlra|].
    destruct (Rlt_dec y 0); split; rlra.
Qed.

Lemma degrees_range a : - PI < a <= PI -> -180 < a * 180 / PI <= 180.
Proof.
  pose proof PI_RGT_0 as Hpi. intros [H1 H2].
  assert (E : a * 180 / PI = a * (180 / PI)) by (field; rlra).
  assert (Hc : 0 < 180 / PI) by (apply Rdiv_lt_0_compat; rlra).
  assert (E1 : PI * (180 / PI) = 180) by (field; rlra).
  rewrite E. split.
  - apply (Rmult_lt_compat_r (180 / PI)) in H1; [|exact Hc]. rnra.
  - apply (Rmult_le_compat_r (180 / PI)) in H2; [|rlra]. rnra.
Qed.

Lemma text_rotation_spec a :
  - PI < a <= PI ->
  let t := a * 180 / PI in
  let r := text_rotation a in
  -180 < t <= 180
  /\ ((-90 <= t <= 90 /\ r = t) \/ (t < -90 /\ r = t + 180) \/ (90 < t /\ r = t + 180))
  /\ ((-90 <= r <= 90) \/ (270 < r <= 360)).
Proof.
  intros Ha t r. pose proof (degrees_range a Ha) as Ht. fold t in Ht.
  subst r. unfold text_rotation, rltb. fold t.
  destruct (Rlt_dec 90 t); destruct (Rlt_dec t (-90)); cbn [orb];
    repeat split; rlra.
Qed.

End DimProofs.

Module DimClaims.
Import Writer Dim DimProofs.
Local Open Scope R_scope.
Local Open Scope string_scope.

(** C5 (as amended): when the endpoints are at least 0.1 apart,
    [addDimension] ends with [addText] whose rotation [r] is derived from
    the line's angle [t] in degrees, [t] in (-180, 180]: [r = t] when
    -90 <= t <= 90, and [r = t + 180] otherwise.  So [r] lies in
    [-90, 90] or in (270, 360]; it is only congruent, modulo 360, to an
    angle in [-90, 90], and [r = -90] is kept as is. *)
Theorem addDimension_text_rotation (w : writer) (x1 y1 x2 y2 : R)
    (value : option R) (offset : R) :
  1 / 10 <= sqrt ((x2 - x1) ^ 2 + (y2 - y1) ^ 2) ->
  let t := atan2 (y2 - y1) (x2 - x1) * 180 / PI in
  exists w' s tx ty r,
    addDimension w x1 y1 x2 y2 value offset = addTextR w' s tx ty (7 / 2) "TEXT" r
    /\ -180 < t <= 180
    /\ ((-90 <= t <= 90 /\ r = t) \/ (t < -90 /\ r = t + 180) \/ (90 < t /\ r = t + 180))
    /\ ((-90 <= r <= 90) \/ (270 < r <= 360)).
Proof.
  intros Hd t.
  pose proof (text_rotation_spec _ (atan2_range (y2 - y1) (x2 - x1))) as Hs.
  cbv zeta in Hs. fold t in Hs.
  unfold addDimension.
  destruct (Rlt_dec _ (1 / 10)) as [Hlt|_]; [exfalso; rlra|].
  cbv zeta.
  eexists _, _, _, _, (text_rotation (atan2 (y2 - y1) (x2 - x1))).
  split; [reflexivity | exact Hs].
Qed.

Lemma addDimension_text_rotation_witness :
  exists w' s tx ty r,
    addDimension new_writer 0 0 10 0 None 20 = addTextR w' s tx ty (7 / 2) "TEXT" r
    /\ -180 < atan2 (0 - 0) (10 - 0) * 180 / PI <= 180
    /\ ((-90 <= atan2 (0 - 0) (10 - 0) * 180 / PI <= 90
         /\ r = atan2 (0 - 0) (10 - 0) * 180 / PI)
        \/ (atan2 (0 - 0) (10 - 0) * 180 / PI < -90
            /\ r = atan2 (0 - 0) (10 - 0) * 180 / PI + 180)
        \/ (90 < atan2 (0 - 0) (10 - 0) * 180 / PI
            /\ r = atan2 (0 - 0) (10 - 0) * 180 / PI + 180))
    /\ ((-90 <= r <= 90) \/ (270 < r <= 360)).
Proof.
  apply (addDimension_text_rotation new_writer 0 0 10 0 None 20).
  replace ((10 - 0) ^ 2 + (0 - 0) ^ 2) with (10 ^ 2) by ring.
  rewrite sqrt_pow2 by rlra. rlra.
Defined.

(** C5, counterexample: a dimension drawn from (10, 0) to (0, 0) has angle
    180 degrees; its text is written with rotation 360, outside (-90, 90]. *)
Lemma addDimension_rotation_360 :
  exists w' s tx ty r,
    addDimension new_writer 10 0 0 0 None 20 = addTextR w' s tx ty (7 / 2) "TEXT" r
    /\ r = 360 /\ ~ (-90 < r <= 90).
Proof.
  pose proof PI_RGT_0 as Hpi.
  unfold addDimension.
  destruct (Rlt_dec _ (1 / 10)) as [Hlt|_].
  { exfalso. replace ((0 - 10) ^ 2 + (0 - 0) ^ 2) with (10 ^ 2) in Hlt by ring.
    rewrite sqrt_pow2 in Hlt by rlra. rlra. }
  cbv zeta.
  eexists _, _, _, _, (text_rotation (atan2 (0 - 0) (0 - 10))).
  split; [reflexivity|].
  assert (Ea : atan2 (0 - 0) (0 - 10) = PI).
  { unfold atan2.
    destruct (Rlt_dec 0 (0 - 10)); [rlra|].
    destruct (Rlt_dec (0 - 10) 0); [|rlra].
    destruct (Rle_dec 0 (0 - 0)); [|rlra].
    replace ((0 - 0) / (0 - 10)) with 0 by (field; rlra).
    rewrite atan_0. ring. }
  rewrite Ea. unfold text_rotation, rltb.
  replace (PI * 180 / PI) with 180 by (field; rlra).
  destruct (Rlt_dec 90 180); [|rlra]. cbn [orb].
  split; [ring | rlra].
Qed.

(** C6: when the two endpoints are less than 0.1 apart, [addDimension]
    returns before writing anything: the writer is unchanged. *)
Theorem addDimension_tiny_noop (w : writer) (x1 y1 x2 y2 : R)
    (value : option R) (offset : R) :
  sqrt ((x2 - x1) ^ 2 + (y2 - y1) ^ 2) < 1 / 10 ->
  addDimension w x1 y1 x2 y2 value offset = w.
Proof.
  intro H. unfold addDimension.
  destruct (Rlt_dec _ (1 / 10)) as [_|Hn]; [reflexivity | contradiction].
Qed.

Lemma addDimension_tiny_noop_witness :
  addDimension new_writer 5 5 5 5 None 20 = new_writer.
Proof.
  apply addDimension_tiny_noop.
  replace ((5 - 5) ^ 2 + (5 - 5) ^ 2) with 0 by ring.
  rewrite sqrt_0. rlra.
Defined.

End DimClaims.

(* ================================================================== *)
(** ** Proofs: text of numbers and lines *)

Module TextProofs.
Import Js.

Definition chars := list_ascii_of_string.

Lemma chars_app (a b : string) : chars (a ++ b)%string = chars a ++ chars b.
Proof. induction a as [|c a IH]; cbn; [reflexivity | now rewrite IH]. Qed.

Lemma chars_String c s : chars (String c s) = c :: chars s.
Proof. reflexivity. Qed.

(** A string without white space. *)
Definition no_ws (s : string) : Prop := Forall (fun c => is_ws c = false) (chars s).

Lemma no_ws_app a b : no_ws a -> no_ws b -> no_ws (a ++ b)%string.
Proof. unfold no_ws. rewrite chars_app. intros. now apply Forall_app. Qed.

Lemma ltrim_no_ws s : no_ws s -> ltrim s = s.
Proof.
  destruct s as [|c r]; [reflexivity|]. intro H. inversion H; subst.
  cbn. now rewrite H2.
Qed.

Lemma rtrim_no_ws s : no_ws s -> rtrim s = s.
Proof.
  induction s as [|c r IH]; [reflexivity|]. intro H. inversion H; subst.
  cbn [rtrim]. rewrite IH by exact H3. rewrite H2, andb_false_r. reflexivity.
Qed.

Lemma trim_no_ws s : no_ws s -> trim s = s.
Proof. intro H. unfold trim. rewrite ltrim_no_ws by exact H. now apply rtrim_no_ws. Qed.

Lemma has_newline_no_ws s : no_ws s -> has_newline s = false.
Proof.
  unfold has_newline, no_ws. fold (chars s). induction (chars s) as [|c l IH]; [reflexivity|].
  intro H. inversion H; subst. cbn [existsb]. rewrite IH by exact H3.
  destruct (Ascii.eqb newline c) eqn:E; [|reflexivity].
  apply Ascii.eqb_eq in E. subst c. discriminate H2.
Qed.

Lemma split_nl_single s : has_newline s = false -> split_nl s = [s].
Proof.
  induction s as [|c r IH]; [reflexivity|].
  unfold has_newline. cbn [list_ascii_of_string existsb]. intro H.
  apply orb_false_elim in H as [Hc Hr].
  cbn [split_nl]. rewrite IH by exact Hr.
  rewrite Ascii.eqb_sym, Hc. reflexivity.
Qed.

Lemma split_nl_app_nl s t :
  has_newline s = false -> split_nl (s ++ String newline t)%string = s :: split_nl t.
Proof.
  induction s as [|c r IH].
  - intros _. cbn [append split_nl]. now rewrite Ascii.eqb_refl.
  - unfold has_newline. cbn [list_ascii_of_string existsb]. intro H.
    apply orb_false_elim in H as [Hc Hr].
    cbn [append split_nl]. rewrite IH by exact Hr.
    rewrite Ascii.eqb_sym, Hc. reflexivity.
Qed.

Lemma split_join l :
  l <> [] -> Forall (fun s => has_newline s = false) l -> split_nl (join_nl l) = l.
Proof.
  induction l as [|x l IH]; [congruence|]. intros _ H. inversion H; subst.
  destruct l as [|y l].
  - now apply split_nl_single.
  - change (join_nl (x :: y :: l)) with (x ++ String newline (join_nl (y :: l)))%string.
    rewrite split_nl_app_nl by exact H2. rewrite IH by (discriminate || exact H3).
    reflexivity.
Qed.

(** *** Digits *)

Definition is_digit (c : ascii) : Prop := digit_val c <> None.

Definition dv (c : ascii) : Z := match digit_val c with Some d => d | None => 0%Z end.

Lemma digit_char_spec d :
  (0 <= d < 10)%Z -> digit_val (digit_char d) = Some d /\ is_ws (digit_char d) = false.
Proof.
  intro H.
  assert (d = 0 \/ d = 1 \/ d = 2 \/ d = 3 \/ d = 4 \/ d = 5 \/ d = 6 \/ d = 7
          \/ d = 8 \/ d = 9)%Z as Hd by lia.
  repeat destruct Hd as [-> | Hd]; subst; split; reflexivity.
Qed.

Lemma fold_digits_shift (l : list Z) (a : Z) :
  fold_left (fun acc d => acc * 10 + d)%Z l a
  = (a * 10 ^ Z.of_nat (length l) + fold_left (fun acc d => acc * 10 + d)%Z l 0)%Z.
Proof.
  revert a. induction l as [|d l IH]; intro a; cbn [fold_left length].
  - lia.
  - rewrite IH, (IH (0 * 10 + d)%Z). rewrite Nat2Z.inj_succ, Z.pow_succ_r by lia. lia.
Qed.

Lemma digits_value_app (l1 l2 : list Z) :
  digits_value 10 (l1 ++ l2)
  = (digits_value 10 l1 * 10 ^ Z.of_nat (length l2) + digits_value 10 l2)%Z.
Proof.
  unfold digits_value. rewrite fold_left_app. apply fold_digits_shift.
Qed.

Lemma digits_acc_S f n acc :
  digits_acc (S f) n acc
  = if (n <? 10)%Z then String (digit_char (n mod 10)) acc
    else digits_acc f (n / 10) (String (digit_char (n mod 10)) acc).
Proof. reflexivity. Qed.

Lemma digits_acc_spec :
  forall f n acc, (0 <= n < 10 ^ Z.of_nat (S f))%Z ->
  exists D, chars (digits_acc (S f) n acc) = D ++ chars acc
    /\ D <> []
    /\ Forall (fun c => is_digit c /\ is_ws c = false) D
    /\ digits_value 10 (map dv D) = n
    /\ (forall k, (1 <= k)%nat -> (n < 10 ^ Z.of_nat k)%Z -> (length D <= k)%nat).
Proof.
  induction f as [|f IH]; intros n acc Hn.
  - assert (Hn' : (n < 10)%Z) by (cbn in Hn; lia).
    rewrite digits_acc_S, (proj2 (Z.ltb_lt n 10) Hn').
    destruct (digit_char_spec (n mod 10)) as [Hv Hw]; [apply Z.mod_pos_bound; lia|].
    exists [digit_char (n mod 10)]. repeat split.
    + discriminate.
    + constructor; [split; [unfold is_digit; congruence | exact Hw] | constructor].
    + cbn [map]. unfold digits_value, dv. rewrite Hv. cbn [fold_left]. rewrite Z.mod_small by lia. lia.
    + intros k Hk _. cbn. lia.
  - rewrite digits_acc_S.
    destruct (digit_char_spec (n mod 10)) as [Hv Hw]; [apply Z.mod_pos_bound; lia|].
    destruct (n <? 10)%Z eqn:Hlt.
    + apply Z.ltb_lt in Hlt.
      exists [digit_char (n mod 10)]. repeat split.
      * discriminate.
      * constructor; [split; [unfold is_digit; congruence | exact Hw] | constructor].
      * cbn [map]. unfold digits_value, dv. rewrite Hv. cbn [fold_left]. rewrite Z.mod_small by lia. lia.
      * intros k Hk _. cbn. lia.
    + apply Z.ltb_ge in Hlt.
      destruct (IH (n / 10)%Z (String (digit_char (n mod 10)) acc)) as
        (D & E & Hne & HD & Hval & Hlen).
      { split; [apply Z.div_pos; lia|].
        apply Z.div_lt_upper_bound; [lia|].
        rewrite <- Z.pow_succ_r by lia. rewrite <- Nat2Z.inj_succ. lia. }
      exists (D ++ [digit_char (n mod 10)]). repeat split.
      * rewrite E, chars_String, <- app_assoc. reflexivity.
      * destruct D; [congruence | discriminate].
      * apply Forall_app. split; [exact HD|].
        constructor; [split; [unfold is_digit; congruence | exact Hw] | constructor].
      * rewrite map_app, digits_value_app, Hval. cbn [map length]. unfold digits_value at 1, dv. rewrite Hv. cbn [fold_left].
        pose proof (Z.div_mod n 10). lia.
      * intros k Hk Hnk. rewrite length_app. cbn [length].
        destruct k as [|[|k]]; [lia| |].
        -- cbn in Hnk. lia.
        -- assert (Hlk := Hlen (S k) ltac:(lia)).
           enough (length D <= S k)%nat by lia. apply Hlk.
           apply Z.div_lt_upper_bound; [lia|].
           rewrite <- Z.pow_succ_r by lia. rewrite <- Nat2Z.inj_succ. exact Hnk.
Qed.

Lemma z_digits_spec n :
  (0 <= n)%Z ->
  exists D, chars (z_digits n) = D
    /\ D <> []
    /\ Forall (fun c => is_digit c /\ is_ws c = false) D
    /\ digits_value 10 (map dv D) = n
    /\ (forall k, (1 <= k)%nat -> (n < 10 ^ Z.of_nat k)%Z -> (length D <= k)%nat).
Proof.
  intro Hn. unfold z_digits.
  destruct (digits_acc_spec (Z.to_nat (Z.log2 n)) n EmptyString) as (D & E & H).
  - split; [exact Hn|].
    rewrite Nat2Z.inj_succ, Z2Nat.id by apply Z.log2_nonneg.
    destruct (Z.eq_dec n 0) as [->|Hn0]; [cbn; lia|].
    apply Z.lt_le_trans with (2 ^ Z.succ (Z.log2 n))%Z.
    + apply Z.log2_spec; lia.
    + apply Z.pow_le_mono_l. split; [lia | lia].
  - exists D. rewrite E. cbn [chars list_ascii_of_string]. rewrite app_nil_r. now split.
Qed.

Lemma chars_zeros k : chars (zeros k) = repeat "0"%char k.
Proof. induction k as [|k IH]; cbn; [reflexivity | now rewrite <- IH]. Qed.

Lemma digits_value_zeros m : digits_value 10 (repeat 0%Z m) = 0%Z.
Proof.
  unfold digits_value. induction m as [|m IH]; [reflexivity|].
  cbn [repeat fold_left]. exact IH.
Qed.

Lemma digits_value_zeros_app m ds :
  digits_value 10 (repeat 0%Z m ++ ds) = digits_value 10 ds.
Proof. rewrite digits_value_app, digits_value_zeros. lia. Qed.

Ltac solve_disj := first [ left; reflexivity | right; solve_disj | reflexivity ].

Lemma digit_enum c :
  is_digit c ->
  c = "0"%char \/ c = "1"%char \/ c = "2"%char \/ c = "3"%char \/ c = "4"%char
  \/ c = "5"%char \/ c = "6"%char \/ c = "7"%char \/ c = "8"%char \/ c = "9"%char.
Proof.
  unfold is_digit, digit_val. intro H.
  rewrite <- (ascii_nat_embedding c).
  destruct ((48 <=? nat_of_ascii c) && (nat_of_ascii c <=? 57))%nat eqn:E; [|congruence].
  apply andb_prop in E as [E1 E2]. apply Nat.leb_le in E1, E2.
  assert (nat_of_ascii c = 48 \/ nat_of_ascii c = 49 \/ nat_of_ascii c = 50
          \/ nat_of_ascii c = 51 \/ nat_of_ascii c = 52 \/ nat_of_ascii c = 53
          \/ nat_of_ascii c = 54 \/ nat_of_ascii c = 55 \/ nat_of_ascii c = 56
          \/ nat_of_ascii c = 57)%nat as Hc by lia.
  repeat destruct Hc as [Hc|Hc]; rewrite Hc; solve_disj.
Qed.

Lemma digit_read_sign c r : is_digit c -> read_sign (c :: r) = (false, c :: r).
Proof. intro H. apply digit_enum in H. repeat destruct H as [->|H]; subst; reflexivity. Qed.

Lemma digit_not_infinity c r :
  is_digit c -> list_prefix (list_ascii_of_string "Infinity") (c :: r) = false.
Proof. intro H. apply digit_enum in H. repeat destruct H as [->|H]; subst; reflexivity. Qed.

Lemma scan_digits D l :
  Forall is_digit D ->
  scan digit_val (D ++ l) = (map dv D ++ fst (scan digit_val l), snd (scan digit_val l)).
Proof.
  induction D as [|c D IH]; intro H; [cbn; now destruct (scan digit_val l)|].
  inversion H as [|? ? Hc HD]; subst.
  change ((c :: D) ++ l) with (c :: (D ++ l)).
  unfold is_digit in Hc. destruct (digit_val c) as [d|] eqn:Ec; [|congruence].
  cbn [scan]. rewrite Ec, IH by exact HD. cbn [map app].
  replace (dv c) with d by (unfold dv; now rewrite Ec). reflexivity.
Qed.

Lemma scan_digits_all D :
  Forall is_digit D -> scan digit_val D = (map dv D, []).
Proof.
  intro H. rewrite <- (app_nil_r D) at 1. rewrite scan_digits by exact H.
  cbn. now rewrite app_nil_r.
Qed.

Lemma skip_ws_head c r : is_ws c = false -> skip_ws (c :: r) = c :: r.
Proof. intro H. cbn. now rewrite H. Qed.

(** [parseFloat] of an optional minus sign, digits, a point and digits. *)
Lemma parseFloat_fixed (neg : bool) (D1 D2 : list ascii) :
  D1 <> [] -> Forall (fun c => is_digit c /\ is_ws c = false) D1 ->
  Forall is_digit D2 ->
  parseFloat (string_of_list_ascii ((if neg then ["-"%char] else []) ++ D1 ++ "."%char :: D2))
  = JFin (signed neg (inject_Z (digits_value 10 (map dv D1 ++ map dv D2))
                      * Qpower 10 (0 - Z.of_nat (length D2)))).
Proof.
  intros Hne H1 H2.
  destruct D1 as [|c D1]; [congruence|].
  inversion H1 as [|? ? [Hcd Hcw] HD1]; subst.
  assert (HD1' : Forall is_digit (c :: D1)).
  { constructor; [exact Hcd|]. eapply Forall_impl; [|exact HD1]. now intros a [? ?]. }
  unfold parseFloat. rewrite list_ascii_of_string_of_list_ascii.
  assert (Hs : read_sign (skip_ws ((if neg then ["-"%char] else []) ++ (c :: D1) ++ "."%char :: D2))
               = (neg, (c :: D1) ++ "."%char :: D2)).
  { destruct neg; cbn [app].
    - reflexivity.
    - rewrite skip_ws_head by exact Hcw. now apply digit_read_sign. }
  rewrite Hs. cbn [app] in *. rewrite digit_not_infinity by exact Hcd.
  change (c :: D1 ++ "."%char :: D2) with ((c :: D1) ++ "."%char :: D2).
  rewrite scan_digits by exact HD1'.
  replace (scan digit_val ("."%char :: D2)) with (@nil Z, "."%char :: D2) by reflexivity.
  cbn [fst snd]. rewrite app_nil_r, scan_digits_all by exact H2.
  cbn [map app read_exponent]. rewrite length_map. reflexivity.
Qed.

Lemma string_length_chars s : String.length s = length (chars s).
Proof. induction s as [|c s IH]; cbn; [reflexivity | now rewrite IH]. Qed.

Lemma no_ws_String c s : is_ws c = false -> no_ws s -> no_ws (String c s).
Proof. intros Hc Hs. unfold no_ws. rewrite chars_String. now constructor. Qed.

Lemma digits_acc_no_ws f n acc : no_ws acc -> no_ws (digits_acc f n acc).
Proof.
  revert n acc. induction f as [|f IH]; intros n acc H; [exact H|].
  rewrite digits_acc_S.
  destruct (digit_char_spec (n mod 10)) as [_ Hw]; [apply Z.mod_pos_bound; lia|].
  destruct (n <? 10)%Z; [|apply IH]; now apply no_ws_String.
Qed.

Lemma zeros_no_ws k : no_ws (zeros k).
Proof. induction k as [|k IH]; [constructor | now apply no_ws_String]. Qed.

Lemma fixed_string_no_ws f neg n : no_ws (fixed_string f neg n).
Proof.
  unfold fixed_string. apply no_ws_app; [destruct neg; repeat constructor|].
  apply no_ws_app; [apply digits_acc_no_ws; constructor|].
  destruct f; [constructor|].
  apply no_ws_String; [reflexivity|].
  unfold frac_digits. apply no_ws_app; [apply zeros_no_ws | apply digits_acc_no_ws; constructor].
Qed.

Lemma toFixed_no_ws f x : no_ws (toFixed f x).
Proof. apply fixed_string_no_ws. Qed.

Lemma number_to_string_no_ws x : no_ws (number_to_string x).
Proof.
  unfold number_to_string. generalize 20%nat as fuel. generalize 0%nat as k.
  intros k fuel. revert k. induction fuel as [|fuel IH]; intro k; cbn [shortest_fixed].
  - apply toFixed_no_ws.
  - destruct (Qeq_bool _ _); [apply fixed_string_no_ws | apply IH].
Qed.

(** The characters of [toFixed 3 x]. *)
Lemma toFixed3_chars x :
  exists D1 D2,
    chars (toFixed 3 x) = (if qltb x 0 then ["-"%char] else []) ++ D1 ++ "."%char :: D2
    /\ D1 <> []
    /\ Forall (fun c => is_digit c /\ is_ws c = false) D1
    /\ Forall is_digit D2
    /\ length D2 = 3%nat
    /\ digits_value 10 (map dv D1 ++ map dv D2)
       = Qfloor (Qabs x * inject_Z (10 ^ Z.of_nat 3) + (1 # 2)).
Proof.
  set (n := Qfloor (Qabs x * inject_Z (10 ^ Z.of_nat 3) + (1 # 2))).
  assert (Hn : (0 <= n)%Z).
  { unfold n. change 0%Z with (Qfloor 0). apply Qfloor_resp_le.
    pose proof (Qabs_nonneg x). change (inject_Z (10 ^ Z.of_nat 3)) with (1000 # 1).
    qlra. }
  destruct (z_digits_spec (n / 10 ^ Z.of_nat 3)) as (D1 & E1 & Hne & HD1 & V1 & _).
  { apply Z.div_pos; [exact Hn | reflexivity]. }
  assert (Hr : (0 <= n mod 10 ^ Z.of_nat 3 < 10 ^ Z.of_nat 3)%Z)
    by (apply Z.mod_pos_bound; reflexivity).
  destruct (z_digits_spec (n mod 10 ^ Z.of_nat 3)) as (D & E & _ & HD & V & L); [lia|].
  specialize (L 3%nat ltac:(lia) (proj2 Hr)).
  exists D1, (repeat "0"%char (3 - length D) ++ D).
  unfold toFixed. fold n. unfold fixed_string, frac_digits.
  repeat split.
  - rewrite !chars_app, E1, chars_zeros, string_length_chars, E.
    destruct (qltb x 0); reflexivity.
  - exact Hne.
  - exact HD1.
  - apply Forall_app. split.
    + apply Forall_forall. intros c Hc. apply repeat_spec in Hc. subst. discriminate.
    + eapply Forall_impl; [|exact HD]. now intros a [? ?].
  - rewrite length_app, repeat_length. lia.
  - rewrite digits_value_app, V1, map_app, map_repeat. change (dv "0"%char) with 0%Z.
    rewrite digits_value_zeros_app, V, !length_app, repeat_length, length_map.
    replace (3 - length D + length D)%nat with 3%nat by lia.
    pose proof (Z.div_mod n (10 ^ Z.of_nat 3)). lia.
Qed.

Lemma parseFloat_toFixed3 x :
  parseFloat (toFixed 3 x)
  = JFin (signed (qltb x 0)
            (inject_Z (Qfloor (Qabs x * inject_Z (10 ^ Z.of_nat 3) + (1 # 2)))
             * Qpower 10 (-3))).
Proof.
  destruct (toFixed3_chars x) as (D1 & D2 & E & Hne & H1 & H2 & L & V).
  rewrite <- (string_of_list_ascii_of_string (toFixed 3 x)). fold (chars (toFixed 3 x)).
  rewrite E, parseFloat_fixed by assumption. rewrite V, L. reflexivity.
Qed.

(** Rounding to 3 decimals moves a value by at most half a unit of the
    third decimal. *)
Lemma toFixed3_close x :
  Qabs (signed (qltb x 0)
          (inject_Z (Qfloor (Qabs x * inject_Z (10 ^ Z.of_nat 3) + (1 # 2)))
           * Qpower 10 (-3)) - x) <= 1 # 2000.
Proof.
  set (n := Qfloor (Qabs x * inject_Z (10 ^ Z.of_nat 3) + (1 # 2))).
  change (inject_Z (10 ^ Z.of_nat 3)) with (1000 # 1) in n.
  change (Qpower 10 (-3)) with (1 # 1000).
  pose proof (Qfloor_le (Qabs x * (1000 # 1) + (1 # 2))) as Hle.
  pose proof (Qlt_floor (Qabs x * (1000 # 1) + (1 # 2))) as Hlt.
  fold n in Hle, Hlt. rewrite inject_Z_plus in Hlt. change (inject_Z 1) with 1 in Hlt.
  unfold qltb. destruct (Qle_bool 0 x) eqn:Ex; cbn [negb signed].
  - apply Qle_bool_iff in Ex. rewrite (Qabs_pos x Ex) in Hle, Hlt.
    apply Qabs_Qle_condition. split; qlra.
  - assert (Ex' : x <= 0).
    { apply Qlt_le_weak, Qnot_le_lt. intro H. apply Qle_bool_iff in H. congruence. }
    rewrite (Qabs_neg x Ex') in Hle, Hlt.
    apply Qabs_Qle_condition. split; qlra.
Qed.

End TextProofs.




Module RoundTripProofs.
Import Js Writer Parser ParserProofs TextProofs RoundTrip.
Local Open Scope string_scope.

#[local] Arguments parseFloat : simpl never.
#[local] Arguments toFixed : simpl never.
#[local] Arguments number_to_string : simpl never.
#[local] Arguments trim : simpl nomatch.
#[local] Arguments parseInt : simpl nomatch.

Ltac eval_closed t := let v := eval vm_compute in t in change t with v.

(** Evaluate the closed literals the writer emits. *)
Ltac lits :=
  repeat match goal with
  | |- context [trim (String ?a ?b)] => eval_closed (trim (String a b))
  | |- context [parseInt (String ?a ?b)] => eval_closed (parseInt (String a b))
  end.

Ltac trim_numbers :=
  repeat match goal with
  | |- context [trim (toFixed ?f ?x)] => rewrite (trim_no_ws (toFixed f x)) by apply toFixed_no_ws
  | |- context [trim (number_to_string ?x)] =>
      rewrite (trim_no_ws (number_to_string x)) by apply number_to_string_no_ws
  end.

Lemma run_loop_record st ty rest st' rest' :
  String.eqb ty "SECTION" = false ->
  dispatch st (JFin 0) (Some ty) rest = RDone (st', rest') ->
  run_loop st ("0" :: ty :: rest) = run_loop st' rest'.
Proof.
  intros Hs Hd. rewrite run_loop_step. cbn [next hd_error].
  change (parseInt "0") with (JFin 0). cbn [js_eqb opt_eqb].
  replace (Qeq_bool 0 0) with true by reflexivity. cbn [andb].
  rewrite Hs, Hd. reflexivity.
Qed.

Lemma close_toFixed3 x : close (parseFloat (toFixed 3 x)) x.
Proof.
  unfold close. rewrite parseFloat_toFixed3.
  eapply Qle_trans; [apply toFixed3_close | apply Qle_bool_imp_le; reflexivity].
Qed.

Lemma run_line st x1 y1 x2 y2 layer color r' :
  inEntities st = true ->
  exists st' e,
    run_loop st (map trim (line_lines x1 y1 x2 y2 layer color) ++ "0" :: r')%list
    = run_loop st' ("0" :: r')
    /\ entities st' = (entities st ++ [e])%list /\ inEntities st' = true
    /\ call_matches (CLine x1 y1 x2 y2 layer color) e.
Proof.
  intro Hin. unfold line_lines. cbn [map app]. lits. trim_numbers.
  eexists _, _. split.
  - apply run_loop_record; [reflexivity|].
    unfold dispatch. simpl. rewrite Hin. simpl. lits. simpl. reflexivity.
  - cbn [entities inEntities add_entity upd_st].
    repeat split; [exact Hin | ..]; simpl; apply close_toFixed3.
Qed.

Lemma run_circle st cx cy rad layer color r' :
  inEntities st = true ->
  exists st' e,
    run_loop st (map trim (circle_lines cx cy rad layer color) ++ "0" :: r')%list
    = run_loop st' ("0" :: r')
    /\ entities st' = (entities st ++ [e])%list /\ inEntities st' = true
    /\ call_matches (CCircle cx cy rad layer color) e.
Proof.
  intro Hin. unfold circle_lines. cbn [map app]. lits. trim_numbers.
  eexists _, _. split.
  - apply run_loop_record; [reflexivity|].
    unfold dispatch. simpl. rewrite Hin. simpl. lits. simpl. reflexivity.
  - cbn [entities inEntities add_entity upd_st].
    repeat split; [exact Hin | ..]; simpl; apply close_toFixed3.
Qed.

Lemma run_text st t x y h layer rot r' :
  inEntities st = true ->
  exists st' e,
    run_loop st (map trim (text_lines t x y h layer rot) ++ "0" :: r')%list
    = run_loop st' ("0" :: r')
    /\ entities st' = (entities st ++ [e])%list /\ inEntities st' = true
    /\ call_matches (CText t x y h layer rot) e.
Proof.
  intro Hin. unfold text_lines. cbn [map app]. lits. trim_numbers.
  eexists _, _. split.
  - apply run_loop_record; [reflexivity|].
    unfold dispatch. simpl. rewrite Hin. simpl. lits. simpl. reflexivity.
  - cbn [entities inEntities add_entity upd_st].
    repeat split; [exact Hin | ..]; simpl; apply close_toFixed3.
Qed.

Lemma vertex_lines_length layer pts :
  length (flat_map (vertex_lines layer) pts) = (10 * length pts)%nat.
Proof.
  induction pts as [|p pts IH]; [reflexivity|].
  cbn [flat_map]. rewrite length_app, IH. cbn [length]. unfold vertex_lines. simpl. lia.
Qed.

Lemma vertices_head layer pts r :
  exists rr, (map trim (flat_map (vertex_lines layer) pts) ++ "0" :: "SEQEND" :: r)%list
             = "0" :: rr.
Proof. destruct pts; eexists; reflexivity. Qed.

Lemma vertex_loop_points layer pts :
  forall f o st r, (length pts < f)%nat ->
  vertex_loop f (map trim (flat_map (vertex_lines layer) pts) ++ "0" :: "SEQEND" :: r)%list o st
  = Some (mk_poly (p_layer o) (p_color o) (p_points o ++ map written_point pts)%list (p_closed o),
          fold_left (fun s p => upd_st s (fst p) (snd p)) (map written_point pts) st, r).
Proof.
  induction pts as [|[px py] pts IH]; intros f o st r Hf;
    (destruct f as [|f]; [cbn [length] in Hf; lia|]).
  - cbn [flat_map map app]. lits. simpl. rewrite app_nil_r. destruct o; reflexivity.
  - cbn [flat_map]. rewrite map_app, <- app_assoc.
    destruct (vertices_head layer pts r) as [rr Err]. rewrite Err.
    unfold vertex_lines. cbn [map app fst snd]. lits. trim_numbers.
    simpl. rewrite <- Err, IH by (cbn [length] in Hf; lia).
    simpl. rewrite <- app_assoc. reflexivity.
Qed.

Lemma fold_upd_st ps st :
  entities (fold_left (fun s p => upd_st s (fst p) (snd p)) ps st) = entities st /\
  inEntities (fold_left (fun s p => upd_st s (fst p) (snd p)) ps st) = inEntities st.
Proof.
  revert st; induction ps as [|p ps IH]; intro st; [split; reflexivity|].
  cbn [fold_left]. destruct (IH (upd_st st (fst p) (snd p))) as [E I].
  rewrite E, I. split; reflexivity.
Qed.

Lemma points_close pts : Forall2 point_close pts (map written_point pts).
Proof.
  induction pts as [|p pts IH]; constructor; [|exact IH].
  split; apply close_toFixed3.
Qed.

#[local] Arguments vertex_loop : simpl never.

Lemma run_polyline st pts layer color closed r' :
  inEntities st = true ->
  exists st' e,
    run_loop st (map trim (polyline_lines pts layer color closed) ++ "0" :: r')%list
    = run_loop st' ("0" :: r')
    /\ entities st' = (entities st ++ [e])%list /\ inEntities st' = true
    /\ call_matches (CPolyline pts layer color closed) e.
Proof.
  intro Hin. unfold polyline_lines. rewrite !map_app, <- !app_assoc.
  replace (map trim ["0"; "SEQEND"] ++ "0" :: r')%list
    with ("0" :: "SEQEND" :: "0" :: r') by reflexivity.
  pose proof (vertices_head layer pts ("0" :: r')) as [rr Err].
  pose proof (f_equal (@length string) Err) as Elen.
  rewrite length_app, length_map, vertex_lines_length in Elen. cbn [length] in Elen.
  destruct closed; (eexists _, _; split;
  [ apply run_loop_record; [reflexivity|];
    rewrite Err; cbn [map app]; lits; trim_numbers;
    unfold dispatch; simpl; rewrite Hin; simpl; lits; simpl;
    rewrite <- Err, vertex_loop_points by lia; reflexivity
  | ]).
  all: 
destruct (fold_upd_st (map written_point pts) st) as [E I];
    cbn [entities inEntities add_entity]; rewrite E, I;
    repeat split; [exact Hin|]; simpl; apply points_close.
Qed.

Lemma run_call st c r' :
  inEntities st = true ->
  exists st' e,
    run_loop st (map trim (call_lines c) ++ "0" :: r')%list = run_loop st' ("0" :: r')
    /\ entities st' = (entities st ++ [e])%list /\ inEntities st' = true
    /\ call_matches c e.
Proof.
  destruct c; cbn [call_lines].
  - apply run_line.
  - apply run_polyline.
  - apply run_circle.
  - apply run_text.
Qed.

Lemma calls_head cs r' :
  exists rr, (map trim (concat (map call_lines cs)) ++ "0" :: r')%list = "0" :: rr.
Proof. destruct cs as [|[] cs]; eexists; reflexivity. Qed.

Lemma run_calls_loop cs : forall st r',
  inEntities st = true ->
  exists st' es,
    run_loop st (map trim (concat (map call_lines cs)) ++ "0" :: r')%list
    = run_loop st' ("0" :: r')
    /\ entities st' = (entities st ++ es)%list /\ inEntities st' = true
    /\ Forall2 call_matches cs es.
Proof.
  induction cs as [|c cs IH]; intros st r' Hin.
  - exists st, []. rewrite app_nil_r. repeat split; auto.
  - cbn [map concat]. rewrite map_app, <- app_assoc.
    destruct (calls_head cs r') as [rr Err]. rewrite Err.
    destruct (run_call st c rr Hin) as (st1 & e & R1 & E1 & I1 & M1).
    rewrite R1, <- Err.
    destruct (IH st1 r' I1) as (st2 & es & R2 & E2 & I2 & M2).
    exists st2, (e :: es). rewrite R2, E2, E1, <- app_assoc.
    repeat split; auto.
Qed.

(** The state reached after the header: the ENTITIES section is open. *)
Lemma main_loop_header f X :
  main_loop (41 + f) init_state (header_lines ++ X)%list
  = main_loop f (mk_pstate [] (mk_bounds JInf JInf JNegInf JNegInf) true []) X.
Proof. reflexivity. Qed.

Lemma run_header X :
  run_loop init_state (header_lines ++ X)%list
  = run_loop (mk_pstate [] (mk_bounds JInf JInf JNegInf JNegInf) true []) X.
Proof.
  unfold run_loop at 1. rewrite length_app.
  change (length header_lines) with 88%nat.
  replace (S (88 + length X)) with (41 + S (47 + length X))%nat by lia.
  rewrite main_loop_header. apply run_loop_fuel. lia.
Qed.

Lemma run_footer st :
  run_loop st ["0"; "ENDSEC"; "0"; "EOF"] = RDone (set_in st false).
Proof. reflexivity. Qed.

Lemma content_run_calls cs : forall w,
  content (fold_left apply_call cs w) = (content w ++ concat (map call_lines cs))%list.
Proof.
  induction cs as [|c cs IH]; intro w; cbn [fold_left map concat].
  - now rewrite app_nil_r.
  - rewrite IH, app_assoc. f_equal. destruct c; reflexivity.
Qed.

Lemma Forall_flat_map {A B} (P : B -> Prop) (f : A -> list B) l :
  (forall x, Forall P (f x)) -> Forall P (flat_map f l).
Proof. intro H. induction l; [constructor|]. cbn [flat_map]. now apply Forall_app. Qed.

Ltac no_nl :=
  repeat (apply Forall_cons || apply Forall_nil);
  match goal with
  | |- has_newline (toFixed _ _) = false => apply has_newline_no_ws, toFixed_no_ws
  | |- has_newline (number_to_string _) = false =>
      apply has_newline_no_ws, number_to_string_no_ws
  | H : has_newline ?s = false |- has_newline ?s = false => exact H
  | |- has_newline (String _ _) = false => reflexivity
  end.

Lemma call_lines_no_newline c :
  no_newline_call c -> Forall (fun s => has_newline s = false) (call_lines c).
Proof.
  unfold no_newline_call. destruct c; cbn [call_strings call_lines]; intro H;
    repeat match goal with H : Forall _ (_ :: _) |- _ => inversion H; subst; clear H end.
  - unfold line_lines. no_nl.
  - unfold polyline_lines. apply Forall_app; split; [destruct closed; no_nl|].
    apply Forall_app; split; [|no_nl].
    apply Forall_flat_map. intro p. unfold vertex_lines. no_nl.
  - unfold circle_lines. no_nl.
  - unfold text_lines. no_nl.
Qed.

Lemma rendered_lines cs :
  Forall no_newline_call cs ->
  dxf_lines (fst (toString (run_calls cs)))
  = (header_lines ++ map trim (concat (map call_lines cs)) ++ ["0"; "ENDSEC"; "0"; "EOF"])%list.
Proof.
  intro H. unfold toString, run_calls. cbn [fst content push].
  rewrite content_run_calls. cbn [content new_writer].
  unfold dxf_lines. rewrite <- app_assoc, split_join.
  - rewrite !map_app. reflexivity.
  - destruct header_lines eqn:E; discriminate.
  - apply Forall_app; split; [unfold header_lines; no_nl|].
    apply Forall_app; split; [|unfold footer_lines; no_nl].
    induction H as [|c cs Hc _ IH]; [constructor|]. cbn [map concat].
    apply Forall_app; split; [apply call_lines_no_newline, Hc | exact IH].
Qed.

End RoundTripProofs.

Module RoundTripClaims.
Import Js Writer Parser ParserProofs RoundTrip RoundTripProofs.
Local Open Scope string_scope.

(** C3 (amended): for every sequence of addLine / addPolyline / addCircle /
    addText calls whose layer names and texts hold no line break, parsing the
    rendered document yields one entity per call, in call order, of the
    call's type, and every coordinate the call wrote (line end points,
    polyline vertices, circle centre and radius, text anchor) is read back
    within 0.001 of the original. *)
Theorem render_parse_roundtrip (cs : list call) :
  Forall no_newline_call cs ->
  exists r, parseDxf (fst (toString (run_calls cs))) = RDone r
            /\ Forall2 call_matches cs (r_entities r).
Proof.
  intro H. unfold parseDxf. cbv zeta. rewrite (rendered_lines cs H).
  rewrite run_loop_fuel by lia. rewrite run_header.
  destruct (run_calls_loop cs (mk_pstate [] (mk_bounds JInf JInf JNegInf JNegInf) true [])
              ["ENDSEC"; "0"; "EOF"] eq_refl) as (st & es & R & E & _ & M).
  rewrite R, run_footer. cbn [res_bind].
  eexists. split; [reflexivity|]. cbn [r_entities entities set_in].
  rewrite E. exact M.
Qed.

Lemma render_parse_roundtrip_witness :
  Forall no_newline_call [CLine 0 0 (201 # 2) 0 "CUT" 7] /\
  exists r, parseDxf (fst (toString (run_calls [CLine 0 0 (201 # 2) 0 "CUT" 7]))) = RDone r
            /\ Forall2 call_matches [CLine 0 0 (201 # 2) 0 "CUT" 7] (r_entities r).
Proof.
  assert (H : Forall no_newline_call [CLine 0 0 (201 # 2) 0 "CUT" 7])
    by (repeat constructor).
  split; [exact H | apply (render_parse_roundtrip _ H)].
Defined.

(** C3 (counterexample): one addLine call whose layer name holds line breaks
    ("A", "0", "LINE" on three lines) renders to a document that parses to
    two entities, so the entity count does not match the one call. *)
Lemma render_parse_newline_layer :
  exists r, parseDxf (fst (toString (run_calls newline_layer_calls))) = RDone r
            /\ length (r_entities r) = 2%nat
            /\ ~ Forall2 call_matches newline_layer_calls (r_entities r).
Proof.
  eexists. split; [vm_compute; reflexivity|]. split; [reflexivity|].
  intro F. apply Forall2_length in F. discriminate F.
Qed.

End RoundTripClaims.

(* ================================================================== *)
(** ** Proofs: bounds, sections and line endings of [parseDxf] *)

Module PreviewProofs.
Import Js Parser ParserProofs TextProofs Preview.
Local Open Scope string_scope.

Lemma fields_loop_inv {A} (upd : jsnum -> option string -> A -> A) (P : A -> Prop) :
  (forall c v a, P a -> P (upd c v a)) ->
  forall n l a, (length l <= n)%nat -> P a -> P (fst (fields_loop upd l a)).
Proof.
  intros Hu. induction n as [|n IH]; intros l a Hl Ha.
  - destruct l; [exact Ha | cbn in Hl; lia].
  - destruct l as [|c [|v r]]; cbn [fields_loop].
    + exact Ha.
    + destruct (js_eqb (parseInt c) (JFin 0)); [exact Ha | apply Hu, Ha].
    + destruct (js_eqb (parseInt c) (JFin 0)); [exact Ha|].
      cbn in Hl. apply IH; [lia | apply Hu, Ha].
Qed.

Lemma fields_loop_fst {A} (upd : jsnum -> option string -> A -> A) (P : A -> Prop) l a :
  (forall c v a, P a -> P (upd c v a)) -> P a -> P (fst (fields_loop upd l a)).
Proof. intros Hu Ha. now apply (fields_loop_inv upd P Hu (length l)). Qed.

(** What the vertex loop adds: the same vertices to the polyline and to the
    fed coordinates, nothing to the entities. *)
Lemma vertex_loop_fed :
  forall f rest o st o' st' r, vertex_loop f rest o st = Some (o', st', r) ->
  exists ps, p_points o' = (p_points o ++ ps)%list /\ fed st' = (fed st ++ ps)%list
             /\ entities st' = entities st /\ inEntities st' = inEntities st.
Proof.
  induction f as [|f IH]; intros rest o st o' st' r E; [discriminate|].
  cbn [vertex_loop] in E.
  destruct (next rest) as [[[code v] rest1]|];
    [| inversion E; subst; exists []; rewrite !app_nil_r; auto].
  destruct (opt_eqb v "SEQEND"); [inversion E; subst; exists []; rewrite !app_nil_r; auto|].
  destruct (opt_eqb v "VERTEX").
  - destruct (fields_loop vertex_upd rest1 (JFin 0, JFin 0)) as [[vx vy] rest2].
    apply IH in E. destruct E as (ps & P & F & En & I).
    exists ((vx, vy) :: ps). cbn [poly_add_point p_points upd_st fed entities inEntities] in *.
    rewrite P, F, En, I, <- !app_assoc. auto.
  - eapply IH; exact E.
Qed.

(** Invariant 1: the fed coordinates are the points of the entities. *)
Definition fed_inv (st : pstate) : Prop :=
  fed st = flat_map entity_points (entities st).

Lemma dispatch_fed_inv st code v rest st' r :
  fed_inv st -> dispatch st code v rest = RDone (st', r) -> fed_inv st'.
Proof.
  unfold fed_inv, dispatch.
  set (st0 := if js_eqb code (JFin 0) && opt_eqb v "ENDSEC" then set_in st false else st).
  intro H. assert (H0 : fed st0 = flat_map entity_points (entities st0))
    by (unfold st0; destruct (_ && _); exact H).
  clearbody st0. clear H.
  destruct (inEntities st0 && js_eqb code (JFin 0)); [|intro E; inversion E; subst; exact H0].
  destruct (opt_eqb v "LINE").
  { destruct (fields_loop line_upd rest _) as [o r'].
    intro E; inversion E; subst. cbn [fed entities add_entity upd_st].
    rewrite flat_map_app, H0, <- !app_assoc. reflexivity. }
  destruct (opt_eqb v "CIRCLE").
  { destruct (fields_loop circle_upd rest _) as [o r'].
    intro E; inversion E; subst. cbn [fed entities add_entity upd_st].
    rewrite flat_map_app, H0, <- !app_assoc. reflexivity. }
  destruct (opt_eqb v "TEXT").
  { destruct (fields_loop text_upd rest _) as [o r'].
    destruct (t_text o) as [t|] eqn:Et; intro E; inversion E; subst.
    cbn [fed entities add_entity upd_st].
    rewrite flat_map_app, H0, <- !app_assoc. cbn [flat_map entity_points]. rewrite Et.
    reflexivity. }
  destruct (opt_eqb v "POLYLINE").
  { pose proof (fields_loop_fst poly_upd (fun o => p_points o = [])
                  rest (mk_poly (Some "0") (JFin 7) [] false)) as Hp.
    destruct (fields_loop poly_upd rest _) as [o r'].
    cbn [fst] in Hp. specialize (Hp ltac:(intros c w a Ha; unfold poly_upd;
      repeat match goal with |- context [if ?b then _ else _] => destruct b end;
      exact Ha) eq_refl).
    destruct (vertex_loop _ r' o st0) as [[[o' st''] r'']|] eqn:Ev; intro E; inversion E; subst.
    destruct (vertex_loop_fed _ _ _ _ _ _ _ Ev) as (ps & P & F & En & _).
    cbn [fed entities add_entity]. rewrite F, En, flat_map_app, H0.
    cbn [flat_map entity_points]. rewrite P, Hp, app_nil_r. reflexivity. }
  intro E; inversion E; subst; exact H0.
Qed.

(** A state invariant kept by [dispatch] and by entering a section is kept
    by the main loop. *)
Lemma main_loop_inv (Inv : pstate -> Prop) :
  (forall st code v r st' r', Inv st -> dispatch st code v r = RDone (st', r') -> Inv st') ->
  (forall st, Inv st -> Inv (set_in st true)) ->
  forall f st l st', main_loop f st l = RDone st' -> Inv st -> Inv st'.
Proof.
  intros Hd Hs. induction f as [|f IH]; intros st l st' E Hi; [discriminate|].
  cbn [main_loop] in E.
  destruct (next l) as [[[code v] rest1]|]; [|inversion E; subst; exact Hi].
  assert (Hr : forall r, (p <- dispatch st code v r ;; main_loop f (fst p) (snd p)) = RDone st' ->
                         Inv st').
  { intros r Er. destruct (dispatch st code v r) as [[st1 r1]| |] eqn:Ed; try discriminate.
    cbn [res_bind fst snd] in Er. eapply IH; [exact Er | eapply Hd; eassumption]. }
  destruct (js_eqb code (JFin 0) && opt_eqb v "SECTION"); [|exact (Hr _ E)].
  destruct (next rest1) as [[[c2 v2] rest2]|]; [|exact (Hr _ E)].
  destruct (js_eqb c2 (JFin 2) && opt_eqb v2 "ENTITIES"); [|exact (Hr _ E)].
  eapply IH; [exact E | apply Hs, Hi].
Qed.

Definition init_bounds : bounds := mk_bounds JInf JInf JNegInf JNegInf.

Definition fold_bounds (pts : list (jsnum * jsnum)) (b : bounds) : bounds :=
  fold_left (fun b p => update_bounds b (fst p) (snd p)) pts b.

(** Invariant 2: the bounds are [updateBounds] folded over the fed points. *)
Definition bounds_inv (st : pstate) : Prop := bnds st = fold_bounds (fed st) init_bounds.

Lemma bounds_inv_upd st x y : bounds_inv st -> bounds_inv (upd_st st x y).
Proof.
  unfold bounds_inv, fold_bounds. intro H. cbn [bnds fed upd_st].
  rewrite fold_left_app, <- H. reflexivity.
Qed.

Lemma vertex_loop_bounds_inv :
  forall f rest o st o' st' r, vertex_loop f rest o st = Some (o', st', r) ->
  bounds_inv st -> bounds_inv st'.
Proof.
  induction f as [|f IH]; intros rest o st o' st' r E H; [discriminate|].
  cbn [vertex_loop] in E.
  destruct (next rest) as [[[code v] rest1]|]; [|inversion E; subst; exact H].
  destruct (opt_eqb v "SEQEND"); [inversion E; subst; exact H|].
  destruct (opt_eqb v "VERTEX").
  - destruct (fields_loop vertex_upd rest1 (JFin 0, JFin 0)) as [[vx vy] rest2].
    eapply IH; [exact E | apply bounds_inv_upd, H].
  - eapply IH; eassumption.
Qed.

Lemma dispatch_bounds_inv st code v rest st' r :
  bounds_inv st -> dispatch st code v rest = RDone (st', r) -> bounds_inv st'.
Proof.
  unfold dispatch.
  set (st0 := if js_eqb code (JFin 0) && opt_eqb v "ENDSEC" then set_in st false else st).
  intro H. assert (H0 : bounds_inv st0) by (unfold st0; destruct (_ && _); exact H).
  clearbody st0. clear H.
  destruct (inEntities st0 && js_eqb code (JFin 0)); [|intro E; inversion E; subst; exact H0].
  destruct (opt_eqb v "LINE").
  { destruct (fields_loop line_upd rest _) as [o r'].
    intro E; inversion E; subst. apply (bounds_inv_upd (upd_st _ _ _)), bounds_inv_upd, H0. }
  destruct (opt_eqb v "CIRCLE").
  { destruct (fields_loop circle_upd rest _) as [o r'].
    intro E; inversion E; subst. apply (bounds_inv_upd (upd_st _ _ _)), bounds_inv_upd, H0. }
  destruct (opt_eqb v "TEXT").
  { destruct (fields_loop text_upd rest _) as [o r'].
    destruct (t_text o); intro E; inversion E; subst.
    apply (bounds_inv_upd (upd_st _ _ _)), bounds_inv_upd, H0. }
  destruct (opt_eqb v "POLYLINE").
  { destruct (fields_loop poly_upd rest _) as [o r'].
    destruct (vertex_loop _ r' o st0) as [[[o' st''] r'']|] eqn:Ev; intro E; inversion E; subst.
    apply (vertex_loop_bounds_inv _ _ _ _ _ _ _ Ev H0). }
  intro E; inversion E; subst; exact H0.
Qed.

(** *** [updateBounds] keeps every fed finite point inside the box *)

Lemma qltb_lt x y : qltb x y = true -> x < y.
Proof.
  unfold qltb. intro H. apply negb_true_iff in H. apply Qnot_le_lt.
  intro L. apply Qle_bool_iff in L. congruence.
Qed.

Lemma qltb_false x y : qltb x y = false -> y <= x.
Proof.
  unfold qltb. intro H. apply negb_false_iff in H. now apply Qle_bool_iff.
Qed.

Lemma lo_keep x m q : bound_le m q -> bound_le (if js_lt x m then x else m) q.
Proof.
  destruct (js_lt x m) eqn:E; [|auto].
  destruct x, m; cbn in *; try discriminate; try tauto.
  apply qltb_lt in E. intro; qlra.
Qed.

Lemma hi_keep x m q : bound_ge m q -> bound_ge (if js_lt m x then x else m) q.
Proof.
  destruct (js_lt m x) eqn:E; [|auto].
  destruct x, m; cbn in *; try discriminate; try tauto.
  apply qltb_lt in E. intro; qlra.
Qed.

Lemma lo_new m q : m <> JNaN -> bound_le (if js_lt (JFin q) m then JFin q else m) q.
Proof.
  intro Hn. destruct (js_lt (JFin q) m) eqn:E; [cbn; apply Qle_refl|].
  destruct m; cbn in *; try discriminate; try tauto. now apply qltb_false.
Qed.

Lemma hi_new m q : m <> JNaN -> bound_ge (if js_lt m (JFin q) then JFin q else m) q.
Proof.
  intro Hn. destruct (js_lt m (JFin q)) eqn:E; [cbn; apply Qle_refl|].
  destruct m; cbn in *; try discriminate; try tauto. now apply qltb_false.
Qed.

Lemma nn_lo x m : m <> JNaN -> (if js_lt x m then x else m) <> JNaN.
Proof. destruct (js_lt x m) eqn:E; [destruct x; cbn in E; congruence | auto]. Qed.

Lemma nn_hi x m : m <> JNaN -> (if js_lt m x then x else m) <> JNaN.
Proof. destruct (js_lt m x) eqn:E; [destruct x, m; cbn in E; congruence | auto]. Qed.

Definition bounds_nn (b : bounds) : Prop :=
  minX b <> JNaN /\ minY b <> JNaN /\ maxX b <> JNaN /\ maxY b <> JNaN.

Lemma bounds_nn_upd b x y : bounds_nn b -> bounds_nn (update_bounds b x y).
Proof.
  intros (H1 & H2 & H3 & H4). unfold update_bounds; cbn [minX minY maxX maxY].
  repeat split; [apply nn_lo | apply nn_lo | apply nn_hi | apply nn_hi]; assumption.
Qed.

Lemma encloses_upd b x y qx qy : encloses b qx qy -> encloses (update_bounds b x y) qx qy.
Proof.
  intros (H1 & H2 & H3 & H4). unfold update_bounds, encloses; cbn [minX minY maxX maxY].
  repeat split; [apply lo_keep | apply hi_keep | apply lo_keep | apply hi_keep]; assumption.
Qed.

Lemma encloses_new b qx qy :
  bounds_nn b -> encloses (update_bounds b (JFin qx) (JFin qy)) qx qy.
Proof.
  intros (H1 & H2 & H3 & H4). unfold update_bounds, encloses; cbn [minX minY maxX maxY].
  repeat split; [apply lo_new | apply hi_new | apply lo_new | apply hi_new]; assumption.
Qed.

Lemma fold_bounds_keep pts : forall b qx qy,
  encloses b qx qy -> encloses (fold_bounds pts b) qx qy.
Proof.
  induction pts as [|p pts IH]; intros b qx qy H; [exact H|].
  apply IH, encloses_upd, H.
Qed.

Lemma fold_bounds_nn pts : forall b, bounds_nn b -> bounds_nn (fold_bounds pts b).
Proof. induction pts as [|p pts IH]; intros b H; [exact H|]. apply IH, bounds_nn_upd, H. Qed.

Lemma fold_bounds_encloses pts : forall b qx qy,
  bounds_nn b -> In (JFin qx, JFin qy) pts -> encloses (fold_bounds pts b) qx qy.
Proof.
  induction pts as [|p pts IH]; intros b qx qy Hn Hin; [destruct Hin|].
  destruct Hin as [E|Hin].
  - subst p. apply (fold_bounds_keep pts (update_bounds b (JFin qx) (JFin qy))).
    apply encloses_new, Hn.
  - apply IH; [apply bounds_nn_upd, Hn | exact Hin].
Qed.

(** The final state of a successful parse and the result built from it. *)
Lemma parseDxf_state content r :
  parseDxf content = RDone r ->
  exists st, run_loop init_state (dxf_lines content) = RDone st
             /\ r = mk_result (entities st) (final_bounds (bnds st)) (fed st).
Proof.
  unfold parseDxf. cbv zeta. fold (run_loop init_state (dxf_lines content)).
  destruct (run_loop init_state (dxf_lines content)) as [st| |]; cbn [res_bind];
    intro E; inversion E; subst. eauto.
Qed.

Lemma run_loop_inv (Inv : pstate -> Prop) st l st' :
  (forall st code v r st' r', Inv st -> dispatch st code v r = RDone (st', r') -> Inv st') ->
  (forall st, Inv st -> Inv (set_in st true)) ->
  run_loop st l = RDone st' -> Inv st -> Inv st'.
Proof. intros Hd Hs. unfold run_loop. apply main_loop_inv; assumption. Qed.

(** *** Documents without an ENTITIES section header *)

Lemma next_in l code v r :
  next l = Some ((code, v), r) ->
  (forall s, In s r -> In s l) /\ (forall s, v = Some s -> In s l).
Proof.
  destruct l as [|c [|w t]]; cbn; intro E; inversion E; subst; split.
  - intros s [].
  - intros s Hs; discriminate.
  - intros s Hs; right; right; exact Hs.
  - intros s Hs; inversion Hs; subst; right; left; reflexivity.
Qed.

Lemma opt_eqb_some v s : opt_eqb v s = true -> v = Some s.
Proof. destruct v; cbn; [intro H; apply String.eqb_eq in H; now subst | discriminate]. Qed.

Lemma dispatch_outside st code v rest :
  inEntities st = false ->
  dispatch st code v rest
  = RDone (if js_eqb code (JFin 0) && opt_eqb v "ENDSEC" then set_in st false else st, rest).
Proof.
  intro H. unfold dispatch. destruct (js_eqb code (JFin 0) && opt_eqb v "ENDSEC");
    cbn [inEntities set_in]; [reflexivity | rewrite H; reflexivity].
Qed.

Lemma main_loop_outside :
  forall f st l st', main_loop f st l = RDone st' ->
  inEntities st = false -> ~ In "ENTITIES" l ->
  entities st' = entities st /\ inEntities st' = false.
Proof.
  induction f as [|f IH]; intros st l st' E Hi Hl; [discriminate|].
  cbn [main_loop] in E.
  destruct (next l) as [[[code v] rest1]|] eqn:En; [|inversion E; subst; auto].
  destruct (next_in _ _ _ _ En) as [Hs1 _].
  assert (Hr : forall r, (forall s, In s r -> In s l) ->
      (p <- dispatch st code v r ;; main_loop f (fst p) (snd p)) = RDone st' ->
      entities st' = entities st /\ inEntities st' = false).
  { intros r Hr Er. rewrite dispatch_outside in Er by exact Hi. cbn [res_bind fst snd] in Er.
    apply IH in Er.
    - destruct (js_eqb code (JFin 0) && opt_eqb v "ENDSEC");
        cbn [entities set_in] in Er; exact Er.
    - destruct (js_eqb code (JFin 0) && opt_eqb v "ENDSEC"); [reflexivity | exact Hi].
    - intro Hin. apply Hl, Hr, Hin. }
  destruct (js_eqb code (JFin 0) && opt_eqb v "SECTION"); [|exact (Hr _ Hs1 E)].
  destruct (next rest1) as [[[c2 v2] rest2]|] eqn:En2; [|exact (Hr _ Hs1 E)].
  destruct (next_in _ _ _ _ En2) as [Hs2 Hv2].
  destruct (js_eqb c2 (JFin 2) && opt_eqb v2 "ENTITIES") eqn:Ee.
  - apply andb_true_iff in Ee as [_ Ee]. apply opt_eqb_some in Ee.
    exfalso. apply Hl, Hs1, Hv2, Ee.
  - apply (Hr rest2); [intros s Hs; apply Hs1, Hs2, Hs | exact E].
Qed.

(** *** Trailing carriage returns *)

Lemma rtrim_add_ws s c : is_ws c = true -> rtrim (s ++ String c EmptyString) = rtrim s.
Proof.
  intro Hc. induction s as [|d s IH]; cbn.
  - rewrite Hc. reflexivity.
  - rewrite IH. reflexivity.
Qed.

Lemma trim_add_cr s : trim (add_cr s) = trim s.
Proof.
  unfold trim, add_cr. induction s as [|d s IH]; [reflexivity|].
  cbn [append ltrim]. destruct (is_ws d); [exact IH|].
  change (String d (s ++ String cr EmptyString)) with (String d s ++ String cr EmptyString).
  apply rtrim_add_ws. reflexivity.
Qed.

Lemma has_newline_add_cr s : has_newline s = false -> has_newline (add_cr s) = false.
Proof.
  unfold has_newline, add_cr. fold (chars s). fold (chars (s ++ String cr EmptyString)).
  rewrite chars_app, existsb_app. intro H. rewrite H. reflexivity.
Qed.

End PreviewProofs.

Module PreviewClaims.
Import Js Writer Parser ParserProofs TextProofs Preview PreviewProofs.
Local Open Scope string_scope.

Ltac not_in :=
  let H := fresh in intro H; repeat (destruct H as [H|H]; [discriminate H|]); exact H.

Lemma viewBox_in_view b x y :
  bounds_finite b = true -> encloses b x y -> in_view (viewBox b) x (- y).
Proof.
  destruct b as [[mx| | |] [my| | |] [Mx| | |] [My| | |]]; try discriminate.
  intros _ (H1 & H2 & H3 & H4). cbn in H1, H2, H3, H4.
  unfold viewBox, js_max; cbn [minX minY maxX maxY js_sub js_neg js_add js_lt].
  destruct (qltb (Mx + - mx) (My + - my)) eqn:E;
    [apply qltb_lt in E | apply qltb_false in E]; cbn [js_mul in_view]; split; split; qlra.
Qed.

(** Extra: every finite point that [parseDxf] fed to [updateBounds] for a
    returned entity (LINE end points, CIRCLE corners, TEXT anchor and far
    corner, POLYLINE vertices) lies inside the returned bounds. *)
Theorem parseDxf_bounds_enclose content r e x y :
  parseDxf content = RDone r -> In e (r_entities r) ->
  In (JFin x, JFin y) (entity_points e) -> encloses (r_bounds r) x y.
Proof.
  intros Hp He Hx. destruct (parseDxf_state content r Hp) as (st & R & ->).
  cbn [r_entities r_bounds] in *.
  assert (F : fed_inv st).
  { eapply (run_loop_inv fed_inv); [exact dispatch_fed_inv | intros s Hs; exact Hs | exact R |].
    reflexivity. }
  assert (B : bounds_inv st).
  { eapply (run_loop_inv bounds_inv); [exact dispatch_bounds_inv | intros s Hs; exact Hs | exact R |].
    reflexivity. }
  assert (Hin : In (JFin x, JFin y) (fed st)).
  { rewrite F. apply in_flat_map. eauto. }
  assert (Enc : encloses (bnds st) x y).
  { rewrite B. apply fold_bounds_encloses; [|exact Hin].
    repeat split; discriminate. }
  unfold final_bounds. destruct (js_eqb (minX (bnds st)) JInf) eqn:Ei; [|exact Enc].
  exfalso. destruct Enc as [L _]. destruct (minX (bnds st)); cbn in Ei, L; try discriminate; exact L.
Qed.

Lemma parseDxf_bounds_enclose_witness :
  exists r, parseDxf (join_nl ["0"; "SECTION"; "2"; "ENTITIES"; "0"; "LINE"; "10"; "1";
                               "20"; "2"; "11"; "3"; "21"; "4"; "0"; "ENDSEC"]) = RDone r
            /\ encloses (r_bounds r) 1 2.
Proof.
  eexists. split; [vm_compute; reflexivity|].
  eapply (parseDxf_bounds_enclose
            (join_nl ["0"; "SECTION"; "2"; "ENTITIES"; "0"; "LINE"; "10"; "1";
                      "20"; "2"; "11"; "3"; "21"; "4"; "0"; "ENDSEC"]) _ _ 1 2).
  - vm_compute. reflexivity.
  - cbn. left. reflexivity.
  - cbn. left. reflexivity.
Defined.

(** Extra: when the returned bounds are finite, the viewBox that
    [DxfPreview] computes from them holds every finite point fed to
    [updateBounds] for a parsed entity, drawn at [(x, -y)]. *)
Theorem preview_viewBox_contains content r e x y :
  parseDxf content = RDone r -> In e (r_entities r) ->
  In (JFin x, JFin y) (entity_points e) -> bounds_finite (r_bounds r) = true ->
  in_view (viewBox (r_bounds r)) x (- y).
Proof.
  intros Hp He Hx Hf. apply viewBox_in_view; [exact Hf|].
  exact (parseDxf_bounds_enclose content r e x y Hp He Hx).
Qed.

Lemma preview_viewBox_contains_witness :
  exists r, parseDxf (join_nl ["0"; "SECTION"; "2"; "ENTITIES"; "0"; "LINE"; "10"; "1";
                               "20"; "2"; "11"; "3"; "21"; "4"; "0"; "ENDSEC"]) = RDone r
            /\ in_view (viewBox (r_bounds r)) 1 (- 2).
Proof.
  eexists. split; [vm_compute; reflexivity|].
  eapply (preview_viewBox_contains
            (join_nl ["0"; "SECTION"; "2"; "ENTITIES"; "0"; "LINE"; "10"; "1";
                      "20"; "2"; "11"; "3"; "21"; "4"; "0"; "ENDSEC"]) _ _ 1 2).
  - vm_compute. reflexivity.
  - cbn. left. reflexivity.
  - cbn. left. reflexivity.
  - vm_compute. reflexivity.
Defined.

(** Extra: entities are only read inside a section opened by a [0 SECTION]
    pair followed by a [2 ENTITIES] pair: a document none of whose lines is
    [ENTITIES] parses to no entity. *)
Theorem parseDxf_no_entities_section content r :
  parseDxf content = RDone r -> ~ In "ENTITIES" (dxf_lines content) -> r_entities r = [].
Proof.
  intros Hp Hn. destruct (parseDxf_state content r Hp) as (st & R & ->).
  cbn [r_entities]. unfold run_loop in R.
  destruct (main_loop_outside _ _ _ _ R eq_refl Hn) as [E _]. exact E.
Qed.

Lemma parseDxf_no_entities_section_witness :
  exists r, parseDxf (join_nl ["0"; "SECTION"; "2"; "BLOCKS"; "0"; "LINE"; "10"; "1";
                               "20"; "2"; "0"; "ENDSEC"]) = RDone r /\ r_entities r = [].
Proof.
  eexists. split; [vm_compute; reflexivity|].
  apply (parseDxf_no_entities_section
           (join_nl ["0"; "SECTION"; "2"; "BLOCKS"; "0"; "LINE"; "10"; "1";
                     "20"; "2"; "0"; "ENDSEC"])).
  - vm_compute. reflexivity.
  - vm_compute. not_in.
Defined.

(** Extra: a [0 ENDSEC] pair ends the reading of entities: from any state
    of the main loop, when no later line is [ENTITIES], the entities at the
    end are those read before the ENDSEC. *)
Theorem parseDxf_endsec_closes st rest st' :
  run_loop st ("0" :: "ENDSEC" :: rest) = RDone st' -> ~ In "ENTITIES" rest ->
  entities st' = entities st.
Proof.
  intros R Hn. rewrite run_loop_step in R. cbn [next hd_error] in R.
  change (js_eqb (parseInt "0") (JFin 0) && opt_eqb (Some "ENDSEC") "SECTION") with false in R.
  assert (D : dispatch st (parseInt "0") (Some "ENDSEC") rest = RDone (set_in st false, rest)).
  { unfold dispatch.
    change (js_eqb (parseInt "0") (JFin 0) && opt_eqb (Some "ENDSEC") "ENDSEC") with true.
    reflexivity. }
  cbv iota in R. rewrite D in R. cbn [res_bind fst snd] in R. unfold run_loop in R.
  destruct (main_loop_outside _ _ _ _ R eq_refl Hn) as [E _]. exact E.
Qed.

Lemma parseDxf_endsec_closes_witness :
  run_loop init_state ["0"; "ENDSEC"; "0"; "LINE"; "10"; "5"] = RDone init_state
  /\ entities init_state = [].
Proof.
  split; [vm_compute; reflexivity|].
  apply (parseDxf_endsec_closes init_state ["0"; "LINE"; "10"; "5"]).
  - vm_compute. reflexivity.
  - not_in.
Defined.

(** Extra: a CRLF document reads like its LF version: when no line holds a
    line break, ending every line with a carriage return does not change
    the result of [parseDxf]. *)
Theorem parseDxf_crlf (l : list string) :
  Forall (fun s => has_newline s = false) l ->
  parseDxf (join_nl (map add_cr l)) = parseDxf (join_nl l).
Proof.
  intro H. destruct l as [|s l]; [reflexivity|].
  assert (Hcr : Forall (fun s => has_newline s = false) (map add_cr (s :: l))).
  { apply Forall_map. eapply Forall_impl; [|exact H]. apply has_newline_add_cr. }
  unfold parseDxf, dxf_lines. rewrite (split_join (s :: l) ltac:(congruence) H).
  rewrite (split_join (map add_cr (s :: l)) ltac:(cbn; congruence) Hcr), map_map.
  rewrite (map_ext (fun x => trim (add_cr x)) trim trim_add_cr). reflexivity.
Qed.

Lemma parseDxf_crlf_witness :
  Forall (fun s => has_newline s = false) ["0"; "EOF"] /\
  parseDxf (join_nl (map add_cr ["0"; "EOF"])) = parseDxf (join_nl ["0"; "EOF"]).
Proof.
  assert (H : Forall (fun s => has_newline s = false) ["0"; "EOF"]) by (repeat constructor).
  split; [exact H | apply (parseDxf_crlf _ H)].
Defined.

End PreviewClaims.

(* ================================================================== *)
(** ** Proofs: mirror-symmetric flat patterns and profiles *)

Module ProfileProofs.
Import Js Flat FlatProofs Parts Profile TextProofs.

Lemma qsum_app (a b : list Q) : qsum (a ++ b) == qsum a + qsum b.
Proof. induction a as [|x a IH]; cbn [app qsum]; [qlra|]. rewrite IH. qlra. Qed.

Lemma qsum_rev (l : list Q) : qsum (rev l) == qsum l.
Proof.
  induction l as [|x l IH]; [reflexivity|].
  cbn [rev qsum]. rewrite qsum_app, IH. cbn [qsum]. qlra.
Qed.


Lemma regex_search_match (l : list ascii) m :
  match_at l = Some m -> regex_search l = Some m.
Proof. destruct l as [|c r]; [discriminate|]. intro H. cbn [regex_search]. now rewrite H. Qed.

(** Replaces each [inject_Z] of a closed integer expression by its value. *)
Ltac eval_inj :=
  repeat match goal with
  | |- context [inject_Z ?z] =>
      let v := eval vm_compute in z in
      lazymatch v with
      | Zpos _ => progress change z with v
      | Zneg _ => progress change z with v
      | Z0 => progress change z with v
      end
  end; unfold inject_Z.

Lemma is_digit_b_digit c : is_digit_b c = true -> is_digit c.
Proof. unfold is_digit_b, is_digit. destruct (digit_val c); congruence. Qed.

Lemma digit_not_ws c : is_digit c -> is_ws c = false.
Proof. intro H. apply digit_enum in H. repeat destruct H as [->|H]; subst; reflexivity. Qed.

Lemma x_not_digit c : is_x c = true -> is_digit_b c = false.
Proof.
  unfold is_x. intro H. apply orb_true_iff in H as [H|H];
    apply Ascii.eqb_eq in H; subst c; reflexivity.
Qed.

Lemma span_digits_app (D R : list ascii) :
  Forall (fun c => is_digit_b c = true) D -> starts_with_digit R = false ->
  span_digits (D ++ R) = (D, R).
Proof.
  intros HD HR. induction D as [|c D IH].
  - destruct R as [|c R]; [reflexivity|]. cbn in HR |- *. now rewrite HR.
  - inversion HD; subst. cbn [app span_digits]. rewrite H1, IH by exact H2. reflexivity.
Qed.

Lemma match_at_nondigit c r : is_digit_b c = false -> match_at (c :: r) = None.
Proof. intro H. unfold match_at. cbn [span_digits]. now rewrite H. Qed.

Lemma regex_search_cons c r :
  regex_search (c :: r)
  = match match_at (c :: r) with Some m => Some m | None => regex_search r end.
Proof. reflexivity. Qed.

Lemma regex_search_skip (P l : list ascii) :
  Forall (fun c => is_digit_b c = false) P -> regex_search (P ++ l) = regex_search l.
Proof.
  induction P as [|c P IH]; intro H; [reflexivity|].
  inversion H; subst. cbn [app]. rewrite regex_search_cons, match_at_nondigit by exact H2.
  now apply IH.
Qed.

Lemma regex_search_none (l : list ascii) :
  Forall (fun c => is_digit_b c = false) l -> regex_search l = None.
Proof. intro H. rewrite <- (app_nil_r l). rewrite regex_search_skip by exact H. reflexivity. Qed.

Lemma parseFloat_digits (D : list ascii) :
  D <> [] -> Forall (fun c => is_digit_b c = true) D ->
  parseFloat (string_of_list_ascii D)
  = JFin (signed false (inject_Z (digits_value 10 (map dv D ++ []))
                        * Qpower 10 (0 - Z.of_nat (length (@nil ascii))))).
Proof.
  intros Hne HD.
  assert (HD' : Forall is_digit D).
  { eapply Forall_impl; [|exact HD]. exact is_digit_b_digit. }
  destruct D as [|c D]; [congruence|].
  inversion HD'; subst.
  unfold parseFloat. rewrite list_ascii_of_string_of_list_ascii.
  rewrite skip_ws_head by now apply digit_not_ws.
  rewrite digit_read_sign by assumption.
  rewrite digit_not_infinity by assumption.
  rewrite scan_digits_all by exact HD'. reflexivity.
Qed.

Lemma pf_digits (D : list ascii) :
  D <> [] -> Forall (fun c => is_digit_b c = true) D -> pf D == digits_Q D.
Proof.
  intros Hne HD. unfold pf. rewrite parseFloat_digits by assumption.
  cbn [signed length]. rewrite app_nil_r. unfold digits_Q, dv.
  change (Qpower 10 (0 - Z.of_nat 0)) with 1. ring.
Qed.

Lemma match_at_three (D1 D2 D3 post : list ascii) (x1 x2 : ascii) :
  D1 <> [] -> D2 <> [] -> D3 <> [] ->
  Forall (fun c => is_digit_b c = true) (D1 ++ D2 ++ D3) ->
  is_x x1 = true -> is_x x2 = true -> starts_with_digit post = false ->
  match_at (D1 ++ x1 :: D2 ++ x2 :: D3 ++ post) = Some (D1, D2, Some D3).
Proof.
  intros H1 H2 H3 HD Hx1 Hx2 Hp.
  apply Forall_app in HD as [HD1 HD]. apply Forall_app in HD as [HD2 HD3].
  unfold match_at.
  rewrite span_digits_app by (try exact HD1; cbn; now apply x_not_digit).
  destruct D1 as [|c1 D1]; [congruence|]. cbv iota beta. rewrite Hx1.
  rewrite span_digits_app by (try exact HD2; cbn; now apply x_not_digit).
  destruct D2 as [|c2 D2]; [congruence|]. cbv iota beta. rewrite Hx2.
  rewrite span_digits_app by assumption.
  destruct D3 as [|c3 D3]; [congruence|]. reflexivity.
Qed.

Lemma match_at_two (D1 D2 post : list ascii) (x1 : ascii) :
  D1 <> [] -> D2 <> [] ->
  Forall (fun c => is_digit_b c = true) (D1 ++ D2) ->
  is_x x1 = true -> starts_with_digit post = false ->
  starts_with_x_digit post = false ->
  match_at (D1 ++ x1 :: D2 ++ post) = Some (D1, D2, None).
Proof.
  intros H1 H2 HD Hx1 Hp Hxp.
  apply Forall_app in HD as [HD1 HD2].
  unfold match_at.
  rewrite span_digits_app by (try exact HD1; cbn; now apply x_not_digit).
  destruct D1 as [|c1 D1]; [congruence|]. cbv iota beta. rewrite Hx1.
  rewrite span_digits_app by assumption.
  destruct D2 as [|c2 D2]; [congruence|]. cbv iota beta.
  destruct post as [|c [|c' r]]; [reflexivity| |].
  - destruct (is_x c); reflexivity.
  - cbn in Hxp. destruct (is_x c); [|reflexivity].
    cbn in Hxp. cbn [span_digits]. now rewrite Hxp.
Qed.

End ProfileProofs.

Module ProfileClaims.
Import Js Flat FlatProofs Parts Profile ProfileProofs.
Local Open Scope string_scope.

(** Extra: when the segment list reads the same backwards, the bend
    positions are mirror images about the middle of the blank: for every
    [i < n - 1], bend [i] and bend [n - 2 - i] add up to the flat length. *)
Theorem calculateFlatPattern_mirror (segments : list Q) (t : Q) (i : nat) :
  rev segments = segments ->
  (i < length segments - 1)%nat ->
  nth i (bendPositions (calculateFlatPattern segments t)) 0
  + nth (length segments - 2 - i) (bendPositions (calculateFlatPattern segments t)) 0
  == flatLength (calculateFlatPattern segments t).
Proof.
  intros Hrev Hi.
  set (n := length segments) in *.
  set (j := (n - 2 - i)%nat).
  rewrite (bend_nth segments t i) by exact Hi.
  rewrite (bend_nth segments t j) by lia.
  cbn [calculateFlatPattern flatLength]. unfold reduce_sum.
  rewrite fold_left_Qplus_qsum.
  assert (Hf : firstn (S j) segments = rev (skipn (S i) segments)).
  { rewrite <- Hrev at 1. rewrite firstn_rev. f_equal. f_equal. subst j n. lia. }
  rewrite Hf, qsum_rev.
  assert (Hs : qsum segments == qsum (firstn (S i) segments) + qsum (skipn (S i) segments)).
  { rewrite <- (firstn_skipn (S i) segments) at 1. apply qsum_app. }
  assert (Hz : Z.of_nat j = (Z.of_nat n - 1 - 1 - Z.of_nat i)%Z) by (subst j; lia).
  rewrite Hz. fold n.
  setoid_replace (inject_Z (Z.of_nat n - 1 - 1 - Z.of_nat i))
    with (inject_Z (Z.of_nat n - 1) - 1 - inject_Z (Z.of_nat i))
    by (unfold Z.sub; rewrite !inject_Z_plus, !inject_Z_opp; reflexivity).
  rewrite Hs. ring.
Qed.

Lemma calculateFlatPattern_mirror_witness :
  nth 0 (bendPositions (calculateFlatPattern [15; 35; 100; 35; 15] 2)) 0
  + nth (length [15; 35; 100; 35; 15] - 2 - 0)
        (bendPositions (calculateFlatPattern [15; 35; 100; 35; 15] 2)) 0
  == flatLength (calculateFlatPattern [15; 35; 100; 35; 15] 2).
Proof. apply (calculateFlatPattern_mirror [15; 35; 100; 35; 15] 2 0); [reflexivity | cbn; lia]. Defined.

(** Extra: a profile name of the form [pre D1 x D2 x D3 post], where [pre]
    has no digit, [D1], [D2], [D3] are non-empty digit strings, each [x] is
    [x] or [X] and [post] does not start with a digit, is read as web [D1],
    flange [D2] and lip [D3]. *)
Theorem parseProfileDims_three (pre D1 D2 D3 post : list ascii) (x1 x2 : ascii)
    (defaultWeb : Q) :
  Forall (fun c => is_digit_b c = false) pre ->
  D1 <> [] -> D2 <> [] -> D3 <> [] ->
  Forall (fun c => is_digit_b c = true) (D1 ++ D2 ++ D3) ->
  is_x x1 = true -> is_x x2 = true -> starts_with_digit post = false ->
  let d := parseProfileDims
             (string_of_list_ascii (pre ++ D1 ++ x1 :: D2 ++ x2 :: D3 ++ post)) defaultWeb in
  web d == digits_Q D1 /\ flange d == digits_Q D2 /\ lip d == digits_Q D3.
Proof.
  intros Hpre H1 H2 H3 HD Hx1 Hx2 Hp d. subst d.
  unfold parseProfileDims.
  rewrite list_ascii_of_string_of_list_ascii, regex_search_skip by exact Hpre.
  rewrite (regex_search_match _ _ (match_at_three D1 D2 D3 post x1 x2 H1 H2 H3 HD Hx1 Hx2 Hp)).
  cbn [web flange lip].
  apply Forall_app in HD as [HD1 HD]. apply Forall_app in HD as [HD2 HD3].
  split; [|split]; now apply pf_digits.
Qed.

Lemma parseProfileDims_three_witness :
  let d := parseProfileDims
             (string_of_list_ascii (list_ascii_of_string "C-Ch " ++ list_ascii_of_string "100"
                ++ "x"%char :: list_ascii_of_string "50" ++ "x"%char :: list_ascii_of_string "15"
                ++ [])) 0 in
  web d == digits_Q (list_ascii_of_string "100")
  /\ flange d == digits_Q (list_ascii_of_string "50")
  /\ lip d == digits_Q (list_ascii_of_string "15").
Proof.
  apply (parseProfileDims_three (list_ascii_of_string "C-Ch ") (list_ascii_of_string "100")
           (list_ascii_of_string "50") (list_ascii_of_string "15") [] "x"%char "x"%char 0);
    cbn; try discriminate; try reflexivity; repeat constructor.
Defined.

(** Extra: a profile name of the form [pre D1 x D2 post], where [pre] has
    no digit, [D1] and [D2] are non-empty digit strings, [x] is [x] or [X]
    and [post] starts neither with a digit nor with [x]/[X] followed by a
    digit, is read as web [D1], flange [D2] and lip 0. *)
Theorem parseProfileDims_two (pre D1 D2 post : list ascii) (x1 : ascii) (defaultWeb : Q) :
  Forall (fun c => is_digit_b c = false) pre ->
  D1 <> [] -> D2 <> [] ->
  Forall (fun c => is_digit_b c = true) (D1 ++ D2) ->
  is_x x1 = true -> starts_with_digit post = false -> starts_with_x_digit post = false ->
  let d := parseProfileDims (string_of_list_ascii (pre ++ D1 ++ x1 :: D2 ++ post)) defaultWeb in
  web d == digits_Q D1 /\ flange d == digits_Q D2 /\ lip d = 0.
Proof.
  intros Hpre H1 H2 HD Hx1 Hp Hxp d. subst d.
  unfold parseProfileDims.
  rewrite list_ascii_of_string_of_list_ascii, regex_search_skip by exact Hpre.
  rewrite (regex_search_match _ _ (match_at_two D1 D2 post x1 H1 H2 HD Hx1 Hp Hxp)).
  cbn [web flange lip].
  apply Forall_app in HD as [HD1 HD2].
  split; [|split]; [now apply pf_digits | now apply pf_digits | reflexivity].
Qed.

Lemma parseProfileDims_two_witness :
  let d := parseProfileDims
             (string_of_list_ascii (list_ascii_of_string "Z " ++ list_ascii_of_string "30"
                ++ "X"%char :: list_ascii_of_string "40" ++ list_ascii_of_string " x2")) 0 in
  web d == digits_Q (list_ascii_of_string "30")
  /\ flange d == digits_Q (list_ascii_of_string "40") /\ lip d = 0.
Proof.
  apply (parseProfileDims_two (list_ascii_of_string "Z ") (list_ascii_of_string "30")
           (list_ascii_of_string "40") (list_ascii_of_string " x2") "X"%char 0);
    cbn; try discriminate; try reflexivity; repeat constructor.
Defined.

(** Extra: a profile whose name has no digit gets the default dimensions
    (web [defaultWeb], flange 35, lip 15); in the profile branch it is
    bent from the segments [15; 35; Height_mm; 35; 15], with web 100 when
    [Height_mm] is 0. *)
Theorem profile_no_digits (prof : part) (defaultWeb : Q) :
  Forall (fun c => is_digit_b c = false) (list_ascii_of_string (Part_Name prof)) ->
  parseProfileDims (Part_Name prof) defaultWeb = mk_dims defaultWeb 35 15
  /\ profile_flat prof
     = calculateFlatPattern [15; 35; height_or_100 (Height_mm prof); 35; 15] 2.
Proof.
  intro H. unfold profile_flat, parseProfileDims.
  rewrite regex_search_none by exact H. split; reflexivity.
Qed.

Lemma profile_no_digits_witness :
  parseProfileDims (Part_Name (mk_part "Angle" Profile "GI" 4 1200 0 None None)) 50
  = mk_dims 50 35 15
  /\ profile_flat (mk_part "Angle" Profile "GI" 4 1200 0 None None)
     = calculateFlatPattern
         [15; 35; height_or_100 (Height_mm (mk_part "Angle" Profile "GI" 4 1200 0 None None));
          35; 15] 2.
Proof.
  apply (profile_no_digits (mk_part "Angle" Profile "GI" 4 1200 0 None None) 50).
  cbn; repeat constructor.
Defined.

(** Extra: the flat pattern of a profile with parsed dimensions
    [web], [flange], [lip] (thickness 2, so 4 per bend): with a positive lip
    it has flat length [2 lip + 2 flange + web - 16] and four bends at
    [lip - 2], [lip + flange - 6], [lip + flange + web - 10] and
    [lip + 2 flange + web - 14]; otherwise the lips are left out, the flat
    length is [2 flange + web - 8] and the two bends are at [flange - 2]
    and [flange + web - 6]. *)
Theorem profile_flat_pattern (prof : part) :
  let d := parseProfileDims (Part_Name prof) (height_or_100 (Height_mm prof)) in
  let fp := profile_flat prof in
  (0 < lip d -> flatLength fp == 2 * lip d + 2 * flange d + web d - 16
     /\ Forall2 Qeq (bendPositions fp)
          [lip d - 2; lip d + flange d - 6; lip d + flange d + web d - 10;
           lip d + 2 * flange d + web d - 14])
  /\ (lip d <= 0 -> flatLength fp == 2 * flange d + web d - 8
     /\ Forall2 Qeq (bendPositions fp) [flange d - 2; flange d + web d - 6]).
Proof.
  intros d fp. subst fp. unfold profile_flat. fold d.
  destruct d as [w f l]; cbn [web flange lip].
  unfold profile_segments; cbn [web flange lip].
  split; intro H.
  - assert (E : Qle_bool l 0 = false).
    { destruct (Qle_bool l 0) eqn:E; [apply Qle_bool_iff in E; qlra | reflexivity]. }
    rewrite E. cbn [app]. unfold calculateFlatPattern, cum_outer, reduce_sum.
    cbn [flatLength bendPositions length seq map firstn fold_left Nat.sub Z.of_nat].
    split; [eval_inj; ring|].
    repeat apply Forall2_cons; try apply Forall2_nil; eval_inj; field.
  - assert (E : Qle_bool l 0 = true) by now apply Qle_bool_iff.
    rewrite E. cbn [app]. unfold calculateFlatPattern, cum_outer, reduce_sum.
    cbn [flatLength bendPositions length seq map firstn fold_left Nat.sub Z.of_nat].
    split; [eval_inj; ring|].
    repeat apply Forall2_cons; try apply Forall2_nil; eval_inj; field.
Qed.

End ProfileClaims.

(* ================================================================== *)
(** ** Rivet pitch of tray flanges *)

Module RivetClaims.
Import Tray.

(** Extra: on a flange whose usable length [flat - 2 notchSize] is not
    negative, the hole step is below the 150 mm hole spacing, and at least
    75 mm as soon as there is a hole; every hole lies strictly between the
    two corner notches. *)
Theorem rivet_pitch (flat : Q) :
  2 * notchSize <= flat ->
  holeStep flat < holeSpacing
  /\ ((1 <= numHoles flat)%Z -> 75 <= holeStep flat)
  /\ (forall p, In p (hole_positions flat) -> notchSize < p < flat - notchSize).
Proof.
  intro Hf.
  unfold hole_positions, holeStep, numHoles.
  set (u := flat - 2 * notchSize).
  assert (Hu : 0 <= u) by (unfold u; qlra).
  set (k := Qfloor (u / holeSpacing)).
  assert (Hk1 : inject_Z k <= u / holeSpacing) by apply Qfloor_le.
  assert (Hk2 : u / holeSpacing < inject_Z (k + 1)) by apply Qlt_floor.
  assert (Hdiv : u == u / holeSpacing * 150) by (unfold holeSpacing; field).
  rewrite inject_Z_plus in Hk2. change (inject_Z 1) with 1 in Hk2.
  assert (Hk0 : (0 <= k)%Z).
  { assert (Hm : (-1 < k)%Z); [|lia].
    rewrite Zlt_Qlt. change (inject_Z (-1)) with (-1). unfold holeSpacing in *. nra. }
  set (K := inject_Z (k + 1)).
  assert (HK : K == inject_Z k + 1) by (unfold K; rewrite inject_Z_plus; reflexivity).
  assert (HK0 : 0 < K).
  { rewrite HK. assert (0 <= inject_Z k) by (change 0 with (inject_Z 0); rewrite <- Zle_Qle; exact Hk0). qlra. }
  set (s := u / K).
  assert (Hs : s * K == u) by (unfold s; field; intro E; rewrite E in HK0; discriminate).
  split; [|split].
  - unfold holeSpacing in *. nra.
  - intro H1. rewrite Zle_Qle in H1. change (inject_Z 1) with 1 in H1.
    unfold holeSpacing in *. nra.
  - intros p Hp. apply in_map_iff in Hp as [i [<- Hi]].
    apply in_seq in Hi.
    assert (Hik : (1 <= Z.of_nat i <= k)%Z) by lia.
    assert (HI1 : 1 <= inject_Z (Z.of_nat i))
      by (change 1 with (inject_Z 1); rewrite <- Zle_Qle; lia).
    assert (HIk : inject_Z (Z.of_nat i) <= inject_Z k)
      by (rewrite <- Zle_Qle; lia).
    assert (Hk1' : 1 <= inject_Z k) by (change 1 with (inject_Z 1); rewrite <- Zle_Qle; lia).
    assert (Hspos : 0 < s) by (unfold holeSpacing in *; nra).
    assert (H1 : 0 < inject_Z (Z.of_nat i) * s) by (apply Qmult_lt_0_compat; qlra).
    assert (H2 : 0 < (K - inject_Z (Z.of_nat i)) * s) by (apply Qmult_lt_0_compat; qlra).
    assert (Eu : u == flat - 2 * notchSize) by reflexivity.
    clearbody s K k u. split; nra.
Qed.

Lemma rivet_pitch_witness :
  holeStep 500 < holeSpacing
  /\ ((1 <= numHoles 500)%Z -> 75 <= holeStep 500)
  /\ (forall p, In p (hole_positions 500) -> notchSize < p < 500 - notchSize).
Proof. apply (rivet_pitch 500). apply Qle_bool_imp_le. vm_compute. reflexivity. Defined.

End RivetClaims.

(* ================================================================== *)
(** ** The tray / flat-plate decision *)

Module TrayTestProofs.
Import Parts.
Local Open Scope string_scope.

Lemma toLowerCase_app (a b : string) : toLowerCase (a ++ b) = toLowerCase a ++ toLowerCase b.
Proof. induction a as [|c a IH]; cbn; [reflexivity | now rewrite IH]. Qed.

Lemma prefix_app (p b : string) : String.prefix p (p ++ b) = true.
Proof.
  induction p as [|c p IH]; [destruct b; reflexivity|].
  cbn. destruct (ascii_dec c c) as [_|n]; [exact IH | now elim n].
Qed.

Lemma prefix_split (p s : string) : String.prefix p s = true -> exists b, s = p ++ b.
Proof.
  revert s; induction p as [|c p IH]; intros s H; [now exists s|].
  destruct s as [|c' s]; [discriminate|]. cbn in H.
  destruct (ascii_dec c c') as [<-|_]; [|discriminate].
  destruct (IH s H) as [b ->]. now exists b.
Qed.

Lemma includes_app (a p b : string) : includes (a ++ p ++ b) p = true.
Proof.
  induction a as [|c a IH].
  - cbn [append]. destruct (p ++ b) eqn:E; cbn [includes]; rewrite <- E, prefix_app; reflexivity.
  - cbn [append includes]. rewrite IH. apply orb_true_r.
Qed.

Lemma includes_split (s p : string) : includes s p = true -> exists a b, s = a ++ p ++ b.
Proof.
  induction s as [|c s IH]; cbn [includes]; intro H.
  - rewrite orb_false_r in H. apply prefix_split in H as [b E].
    exists EmptyString, b. exact E.
  - apply orb_true_iff in H as [H|H].
    + apply prefix_split in H as [b E]. exists EmptyString, b. exact E.
    + destruct (IH H) as [a [b ->]]. now exists (String c a), b.
Qed.

Lemma toLowerCase_split (n a m : string) :
  toLowerCase n = a ++ m ->
  exists n1 n2, n = n1 ++ n2 /\ toLowerCase n1 = a /\ toLowerCase n2 = m.
Proof.
  revert n; induction a as [|c a IH]; intros n H.
  - now exists EmptyString, n.
  - destruct n as [|c' n]; [discriminate|]. cbn in H. injection H as Ec Hn.
    destruct (IH n Hn) as [n1 [n2 [-> [E1 E2]]]].
    exists (String c' n1), n2. cbn. now rewrite Ec, E1.
Qed.

End TrayTestProofs.

Module TrayTestClaims.
Import Parts TrayTestProofs.
Local Open Scope string_scope.

(** Extra: a panel is drawn as a flat plate rather than a tray exactly
    when it has notes containing the word "flat" in any letter case, at
    any place: [isTray p] is false iff the notes are
    [pre ++ f ++ post] with [toLowerCase f = "flat"] (so "Not flat" also
    gives a flat plate). *)
Theorem isTray_false_iff (p : part) :
  isTray p = false <->
  exists pre f post, Notes p = Some (pre ++ f ++ post) /\ toLowerCase f = "flat".
Proof.
  unfold isTray. split.
  - destruct (Notes p) as [n|]; [|discriminate]. intro H.
    apply negb_false_iff, includes_split in H as [a [b E]].
    apply toLowerCase_split in E as [n1 [n2 [-> [_ E2]]]].
    apply toLowerCase_split in E2 as [f [post [-> [Ef _]]]].
    now exists n1, f, post.
  - intros [pre [f [post [-> Ef]]]].
    rewrite !toLowerCase_app, Ef, includes_app. reflexivity.
Qed.

End TrayTestClaims.

(* ================================================================== *)
(** ** Geometry of [addDimension] *)

Module DimGeomProofs.
Import Writer Dim.
Local Open Scope R_scope.

Lemma atan_rel (dx dy : R) :
  dx <> 0 -> sin (atan (dy / dx)) * dx = cos (atan (dy / dx)) * dy.
Proof.
  intro Hdx.
  pose proof (tan_atan (dy / dx)) as Ht.
  destruct (atan_bound (dy / dx)) as [Hb1 Hb2].
  pose proof (cos_gt_0 (atan (dy / dx)) ltac:(rlra) Hb2) as Hc.
  unfold tan in Ht. set (t := atan (dy / dx)) in *.
  assert (Hs : sin t = dy / dx * cos t).
  { rewrite <- Ht. field. rlra. }
  rewrite Hs. field. exact Hdx.
Qed.

(** The direction [(cos a, sin a)] of [a = atan2 dy dx] is parallel to
    [(dx, dy)]. *)
Lemma atan2_parallel (dy dx : R) :
  sin (atan2 dy dx) * dx = cos (atan2 dy dx) * dy.
Proof.
  unfold atan2.
  destruct (Rlt_dec 0 dx) as [H|H]; [apply atan_rel; rlra|].
  destruct (Rlt_dec dx 0) as [H'|H'].
  - pose proof (atan_rel dx dy ltac:(rlra)) as E.
    destruct (Rle_dec 0 dy).
    + rewrite neg_sin, neg_cos. rnra.
    + unfold Rminus. rewrite sin_plus, cos_plus, sin_neg, cos_neg, sin_PI, cos_PI. rnra.
  - assert (dx = 0) by rlra. subst dx.
    destruct (Rlt_dec 0 dy).
    + rewrite cos_PI2. ring.
    + destruct (Rlt_dec dy 0).
      * rewrite cos_neg, cos_PI2. ring.
      * assert (dy = 0) by rlra. subst dy. ring.
Qed.

End DimGeomProofs.

Module DimGeomClaims.
Import Writer Dim DimGeomProofs.
Local Open Scope R_scope.
Local Open Scope string_scope.

(** Extra: when the endpoints are at least 0.1 apart, [addDimension]
    draws exactly five lines and then the text [toFixed(1)] of the value
    (the distance when no value is given).  With a unit normal [(ux, uy)]
    of the measured segment: the two extension lines run along the normal
    from [2] to [offset + 2] past each endpoint (on the side of
    [offset]), the dimension line is the segment moved by [offset] along
    the normal, and the two ticks are segments of half-length 2 centred on
    its ends. *)
Theorem addDimension_geometry (w : writer) (x1 y1 x2 y2 : R)
    (value : option R) (offset : R) :
  1 / 10 <= sqrt ((x2 - x1) ^ 2 + (y2 - y1) ^ 2) ->
  exists ux uy kx ky tx ty r,
    ux ^ 2 + uy ^ 2 = 1
    /\ ux * (x2 - x1) + uy * (y2 - y1) = 0
    /\ kx ^ 2 + ky ^ 2 = 4
    /\ addDimension w x1 y1 x2 y2 value offset
       = addTextR
           (addLineR (addLineR (addLineR (addLineR (addLineR w
              (x1 + ux * (sign offset * 2)) (y1 + uy * (sign offset * 2))
              (x1 + ux * offset + ux * (sign offset * 2))
              (y1 + uy * offset + uy * (sign offset * 2)) "DIMENSIONS" 3)
              (x2 + ux * (sign offset * 2)) (y2 + uy * (sign offset * 2))
              (x2 + ux * offset + ux * (sign offset * 2))
              (y2 + uy * offset + uy * (sign offset * 2)) "DIMENSIONS" 3)
              (x1 + ux * offset) (y1 + uy * offset)
              (x2 + ux * offset) (y2 + uy * offset) "DIMENSIONS" 3)
              (x1 + ux * offset - kx) (y1 + uy * offset - ky)
              (x1 + ux * offset + kx) (y1 + uy * offset + ky) "DIMENSIONS" 3)
              (x2 + ux * offset - kx) (y2 + uy * offset - ky)
              (x2 + ux * offset + kx) (y2 + uy * offset + ky) "DIMENSIONS" 3)
           (toFixedR 1 (match value with
                        | Some v => v
                        | None => sqrt ((x2 - x1) ^ 2 + (y2 - y1) ^ 2)
                        end))
           tx ty (7 / 2) "TEXT" r.
Proof.
  intro Hd.
  set (a := atan2 (y2 - y1) (x2 - x1)).
  exists (cos (a + PI / 2)), (sin (a + PI / 2)),
         (cos (a + PI / 4) * 2), (sin (a + PI / 4) * 2).
  unfold addDimension.
  destruct (Rlt_dec _ (1 / 10)) as [Hlt|_]; [exfalso; rlra|].
  cbv zeta. fold a.
  do 3 eexists.
  split; [|split; [|split]].
  - pose proof (sin2_cos2 (a + PI / 2)). unfold Rsqr in *. rnra.
  - pose proof (atan2_parallel (y2 - y1) (x2 - x1)) as E. fold a in E.
    rewrite cos_plus, sin_plus, cos_PI2, sin_PI2. rnra.
  - pose proof (sin2_cos2 (a + PI / 4)). unfold Rsqr in *. rnra.
  - reflexivity.
Qed.

Lemma addDimension_geometry_witness :
  exists ux uy kx ky tx ty r,
    ux ^ 2 + uy ^ 2 = 1
    /\ ux * (10 - 0) + uy * (0 - 0) = 0
    /\ kx ^ 2 + ky ^ 2 = 4
    /\ addDimension new_writer 0 0 10 0 None 20
       = addTextR
           (addLineR (addLineR (addLineR (addLineR (addLineR new_writer
              (0 + ux * (sign 20 * 2)) (0 + uy * (sign 20 * 2))
              (0 + ux * 20 + ux * (sign 20 * 2))
              (0 + uy * 20 + uy * (sign 20 * 2)) "DIMENSIONS" 3)
              (10 + ux * (sign 20 * 2)) (0 + uy * (sign 20 * 2))
              (10 + ux * 20 + ux * (sign 20 * 2))
              (0 + uy * 20 + uy * (sign 20 * 2)) "DIMENSIONS" 3)
              (0 + ux * 20) (0 + uy * 20)
              (10 + ux * 20) (0 + uy * 20) "DIMENSIONS" 3)
              (0 + ux * 20 - kx) (0 + uy * 20 - ky)
              (0 + ux * 20 + kx) (0 + uy * 20 + ky) "DIMENSIONS" 3)
              (10 + ux * 20 - kx) (0 + uy * 20 - ky)
              (10 + ux * 20 + kx) (0 + uy * 20 + ky) "DIMENSIONS" 3)
           (toFixedR 1 (match None with
                        | Some v => v
                        | None => sqrt ((10 - 0) ^ 2 + (0 - 0) ^ 2)
                        end))
           tx ty (7 / 2) "TEXT" r.
Proof.
  apply (addDimension_geometry new_writer 0 0 10 0 None 20).
  replace ((10 - 0) ^ 2 + (0 - 0) ^ 2) with (10 ^ 2) by ring.
  rewrite sqrt_pow2 by rlra. rlra.
Defined.

End DimGeomClaims.


(* ================================================================== *)
(** ** Callouts and datum dimensions of the hole loop *)

Module HoleAnnotProofs.
Import Writer Dim.
Local Open Scope R_scope.

Lemma atan2_horizontal (dx : R) : 0 < dx -> atan2 0 dx = 0.
Proof.
  intro H. unfold atan2. destruct (Rlt_dec 0 dx); [|rlra].
  replace (0 / dx) with 0 by (field; rlra). apply atan_0.
Qed.

Lemma atan2_vertical (dy : R) : 0 < dy -> atan2 dy 0 = PI / 2.
Proof.
  intro H. unfold atan2.
  destruct (Rlt_dec 0 0); [rlra|]. destruct (Rlt_dec 0 0); [rlra|].
  destruct (Rlt_dec 0 dy); [reflexivity | rlra].
Qed.

Lemma sqrt_square_pos (d : R) : 0 <= d -> sqrt (d ^ 2) = d.
Proof. intro H. now apply sqrt_pow2. Qed.

End HoleAnnotProofs.

Module HoleAnnotClaims.
Import Writer Dim Callout HoleAnnotProofs.
Local Open Scope R_scope.
Local Open Scope string_scope.



(** Extra: the datum dimensions of the hole loop stack outside the part,
    one row per hole: for hole number [idx] centred at [(cx, cy)], when
    [cx > 10] the horizontal dimension [addDimension(0, cy, cx, cy, cx,
    -(cy + 15 + idx*10))] draws its dimension line from [(0, Y)] to
    [(cx, Y)] with [Y = -(15 + 10 idx)], with the text [toFixed(1)] of
    [cx] centred on it at rotation 0; when [cy > 10] the vertical one
    [addDimension(cx, 0, cx, cy, cy, cx + 15 + idx*10)] draws it from
    [(X, 0)] to [(X, cy)] with [X = -(15 + 10 idx)], text at rotation 90. *)
Theorem datum_dimensions (w : writer) (cx cy : R) (idx : nat) :
  let Y := - (15 + INR idx * 10) in
  (10 < cx ->
   exists w1 kx ky,
     addDimension w 0 cy cx cy (Some cx) (- (cy + 15 + INR idx * 10))
     = addTextR
         (addLineR (addLineR (addLineR w1 0 Y cx Y "DIMENSIONS" 3)
                     (0 - kx) (Y - ky) (0 + kx) (Y + ky) "DIMENSIONS" 3)
            (cx - kx) (Y - ky) (cx + kx) (Y + ky) "DIMENSIONS" 3)
         (toFixedR 1 cx)
         (cx / 2 - INR (String.length (toFixedR 1 cx)) * (7 / 2 * (3 / 5)) / 2)
         (Y + 1 / 4) (7 / 2) "TEXT" 0)
  /\ (10 < cy ->
   exists w1 kx ky,
     addDimension w cx 0 cx cy (Some cy) (cx + 15 + INR idx * 10)
     = addTextR
         (addLineR (addLineR (addLineR w1 Y 0 Y cy "DIMENSIONS" 3)
                     (Y - kx) (0 - ky) (Y + kx) (0 + ky) "DIMENSIONS" 3)
            (Y - kx) (cy - ky) (Y + kx) (cy + ky) "DIMENSIONS" 3)
         (toFixedR 1 cy)
         (Y - 2 - INR (String.length (toFixedR 1 cy)) * (7 / 2 * (3 / 5)) / 2)
         (cy / 2 - 7 / 4) (7 / 2) "TEXT" 90).
Proof.
  intro Y. pose proof PI_RGT_0 as Hpi. split; intro H.
  - unfold addDimension.
    replace ((cx - 0) ^ 2 + (cy - cy) ^ 2) with (cx ^ 2) by ring.
    rewrite sqrt_square_pos by rlra.
    destruct (Rlt_dec cx (1 / 10)) as [Hlt|_]; [exfalso; rlra|].
    cbv zeta.
    replace (atan2 (cy - cy) (cx - 0)) with 0
      by (replace (cy - cy) with 0 by ring; symmetry; apply atan2_horizontal; rlra).
    rewrite !Rplus_0_l, cos_PI2, sin_PI2.
    eexists _, (cos (PI / 4) * 2), (sin (PI / 4) * 2).
    replace (0 * - (cy + 15 + INR idx * 10)) with 0 by ring.
    replace (cx + 0) with cx by ring.
    replace (cy + 1 * - (cy + 15 + INR idx * 10)) with Y by (unfold Y; ring).
    replace ((0 + cx) / 2 + 0 * 2) with (cx / 2) by field.
    replace ((Y + Y) / 2 + 1 * 2 - 7 / 2 / 2) with (Y + 1 / 4) by field.
    replace (text_rotation 0) with 0.
    + reflexivity.
    + unfold text_rotation, rltb.
      replace (0 * 180 / PI) with 0 by (field; rlra).
      destruct (Rlt_dec 90 0); [rlra|]. destruct (Rlt_dec 0 (-90)); [rlra|]. reflexivity.
  - unfold addDimension.
    replace ((cx - cx) ^ 2 + (cy - 0) ^ 2) with (cy ^ 2) by ring.
    rewrite sqrt_square_pos by rlra.
    destruct (Rlt_dec cy (1 / 10)) as [Hlt|_]; [exfalso; rlra|].
    cbv zeta.
    replace (atan2 (cy - 0) (cx - cx)) with (PI / 2)
      by (replace (cy - 0) with cy by ring; replace (cx - cx) with 0 by ring;
          symmetry; apply atan2_vertical; rlra).
    replace (PI / 2 + PI / 2) with PI by field. rewrite cos_PI, sin_PI.
    eexists _, (cos (PI / 2 + PI / 4) * 2), (sin (PI / 2 + PI / 4) * 2).
    replace (cx + -1 * (cx + 15 + INR idx * 10)) with Y by (unfold Y; ring).
    replace (0 + 0 * (cx + 15 + INR idx * 10)) with 0 by ring.
    replace (cy + 0 * (cx + 15 + INR idx * 10)) with cy by ring.
    replace ((Y + Y) / 2 + -1 * 2) with (Y - 2) by field.
    replace ((0 + cy) / 2 + 0 * 2 - 7 / 2 / 2) with (cy / 2 - 7 / 4) by field.
    replace (text_rotation (PI / 2)) with 90.
    + reflexivity.
    + unfold text_rotation, rltb.
      replace (PI / 2 * 180 / PI) with 90 by (field; rlra).
      destruct (Rlt_dec 90 90); [rlra|]. destruct (Rlt_dec 90 (-90)); [rlra|]. reflexivity.
Qed.

End HoleAnnotClaims.

(* ================================================================== *)
(** ** The CSV cut list *)

Module CutListProofs.
Import Js Parts CutList TextProofs.
Local Open Scope string_scope.

(** Every character that number printing produces satisfies [P] as soon
    as digits, the minus sign and the decimal point do. *)
Section NumberChars.
Variable P : ascii -> Prop.
Hypothesis P_digit : forall d, (0 <= d < 10)%Z -> P (digit_char d).
Hypothesis P_minus : P "-"%char.
Hypothesis P_dot : P "."%char.

Lemma digits_acc_chars f n acc :
  Forall P (chars acc) -> Forall P (chars (digits_acc f n acc)).
Proof.
  revert n acc. induction f as [|f IH]; intros n acc H; [exact H|].
  rewrite digits_acc_S.
  assert (Hd : P (digit_char (n mod 10))) by (apply P_digit; apply Z.mod_pos_bound; lia).
  destruct (n <? 10)%Z; [|apply IH]; rewrite chars_String; now constructor.
Qed.

Lemma zeros_chars k : Forall P (chars (zeros k)).
Proof.
  induction k as [|k IH]; [constructor|].
  cbn [zeros]. rewrite chars_String. constructor; [|exact IH].
  exact (P_digit 0 ltac:(lia)).
Qed.

Lemma fixed_string_chars f neg n : Forall P (chars (fixed_string f neg n)).
Proof.
  unfold fixed_string. rewrite !chars_app. apply Forall_app; split.
  { destruct neg; repeat constructor; exact P_minus. }
  apply Forall_app; split; [apply digits_acc_chars; constructor|].
  destruct f; [constructor|].
  rewrite chars_app. apply Forall_app; split; [repeat constructor; exact P_dot|].
  unfold frac_digits. rewrite chars_app. apply Forall_app; split;
    [apply zeros_chars | apply digits_acc_chars; constructor].
Qed.

Lemma number_to_string_chars x : Forall P (chars (number_to_string x)).
Proof.
  unfold number_to_string. generalize 20%nat as fuel. generalize 0%nat as k.
  intros k fuel. revert k. induction fuel as [|fuel IH]; intro k; cbn [shortest_fixed].
  - apply fixed_string_chars.
  - destruct (Qeq_bool _ _); [apply fixed_string_chars | apply IH].
Qed.

End NumberChars.

Lemma digit_char_not_comma d : (0 <= d < 10)%Z -> digit_char d <> ","%char.
Proof.
  intros H E. destruct (digit_char_spec d H) as [Hv _]. rewrite E in Hv. discriminate.
Qed.

Lemma number_to_string_no_comma x : count_char "," (number_to_string x) = 0%nat.
Proof.
  unfold count_char. apply count_occ_not_In. intro Hin.
  assert (H := number_to_string_chars (fun c => c <> ","%char) digit_char_not_comma
                 ltac:(discriminate) ltac:(discriminate) x).
  rewrite Forall_forall in H. exact (H _ Hin eq_refl).
Qed.

Lemma count_char_app c a b : count_char c (a ++ b) = (count_char c a + count_char c b)%nat.
Proof. unfold count_char. fold (chars (a ++ b)). rewrite chars_app. apply count_occ_app. Qed.

Lemma has_newline_app a b : has_newline (a ++ b) = has_newline a || has_newline b.
Proof. unfold has_newline. fold (chars (a ++ b)). rewrite chars_app. apply existsb_app. Qed.

Lemma number_to_string_no_newline x : has_newline (number_to_string x) = false.
Proof. apply has_newline_no_ws, number_to_string_no_ws. Qed.

End CutListProofs.

Module CutListClaims.
Import Js Parts CutList TextProofs CutListProofs.
Local Open Scope string_scope.

(** Extra: splitting the cut list on line breaks gives back the header and
    one row per part, in the order of the parts list, as long as no part
    name, material or notes text contains a line break. *)
Theorem cut_list_lines (parts : list part) :
  Forall (fun p => has_newline (Part_Name p) = false /\ has_newline (Material p) = false
                   /\ has_newline (notes_text (Notes p)) = false) parts ->
  split_nl (cut_list parts) = csv_header :: map csv_row parts.
Proof.
  intro H. unfold cut_list. apply split_join; [discriminate|].
  constructor; [reflexivity|].
  apply Forall_map. eapply Forall_impl; [|exact H].
  intros p [Hn [Hm Ho]]. unfold csv_row.
  rewrite !has_newline_app, Hn, Hm, Ho, !number_to_string_no_newline.
  destruct (Type_ p); reflexivity.
Qed.

Lemma cut_list_lines_witness :
  split_nl (cut_list [mk_part "Side_A" Panel "GI" 1 300 200 (Some "Not flat") None;
                      mk_part "C-Ch 100x50x15" Profile "GI" 2 2400 100 None None])
  = csv_header :: map csv_row [mk_part "Side_A" Panel "GI" 1 300 200 (Some "Not flat") None;
                               mk_part "C-Ch 100x50x15" Profile "GI" 2 2400 100 None None].
Proof. apply cut_list_lines. repeat constructor. Defined.

(** Extra: the row fields are neither quoted nor escaped: a row holds six
    separating commas plus every comma of the part name, the material and
    the notes (the numbers and the type contain none), so a comma in one of
    those texts shifts the later columns. *)
Theorem csv_row_commas (p : part) :
  count_char "," (csv_row p)
  = (6 + count_char "," (Part_Name p) + count_char "," (Material p)
     + count_char "," (notes_text (Notes p)))%nat.
Proof.
  unfold csv_row. rewrite !count_char_app, !number_to_string_no_comma.
  replace (count_char "," (type_name (Type_ p))) with 0%nat by (destruct (Type_ p); reflexivity).
  change (count_char "," ",") with 1%nat. lia.
Qed.

End CutListClaims.
